(** * vault-cli-manager: the secret engine of package [vault]

    A shallow embedding of the mutation engine ([Read], [Write], [Delete],
    [DeleteTree], [Undelete], [Copy], [Move], [MoveCopyTree]), of the
    version-state verifier ([verifySecretState], [canSemanticallyDelete]),
    of the [export], [import], [undelete] and [revert] commands, and of
    the change computation of package [vaultsync] ([ComputeChanges],
    [mapsEqual], [Counts], [SplitDiff], [PackMap]).

    The Go code talks to the store through the [vaultkv] client, one
    blocking call at a time.  A Go method is embedded as a [prog]: a finite
    tree whose nodes are the client calls, in the order the method issues
    them, and whose branches are the client's answers.  Running a [prog]
    against a [backend] gives the returned value, the final state of the
    backend and the list of calls that were issued. *)

From Stdlib Require Import NArith Ascii String List Bool Lia.
From stdpp Require Import base option list gmap strings fin_maps pretty
  sorting.

Local Open Scope string_scope.
Local Open Scope N_scope.

Module vault.

(** ** Errors *)

(** The error values that flow through package [vault]: its own
    [secretNotFound] and [keyNotFound] types, the values of [fmt.Errorf],
    and the errors of the [vaultkv] client, of which only [*ErrNotFound] is
    told apart ([vaultkv.IsNotFound]). *)
Inductive error : Type :=
| secretNotFound (msg : string)
| keyNotFound (secret key : string)
| errorString (msg : string)
| kvNotFound (msg : string)
| kvError (msg : string).

#[global] Instance error_eq_dec : EqDecision error.
Proof. solve_decision. Defined.

(** Modelled from the spec: errors.go is not under src/; the constructors'
    messages and the three predicates are the ones errors_test.go pins
    down (SecretNotFound and KeyNotFound of the spec's taxonomy). *)
Definition NewSecretNotFoundError (path : string) : error :=
  secretNotFound ("no secret exists at path `" ++ path ++ "`").

Definition NewKeyNotFoundError (path key : string) : error :=
  keyNotFound path key.

Definition Error (e : error) : string :=
  match e with
  | secretNotFound msg => msg
  | keyNotFound secret key =>
      "no key `" ++ key ++ "` exists in secret `" ++ secret ++ "`"
  | errorString msg => msg
  | kvNotFound msg => msg
  | kvError msg => msg
  end.

Definition IsSecretNotFound (err : option error) : bool :=
  match err with Some (secretNotFound _) => true | _ => false end.

Definition IsKeyNotFound (err : option error) : bool :=
  match err with Some (keyNotFound _ _) => true | _ => false end.

Definition IsNotFound (err : option error) : bool :=
  IsSecretNotFound err || IsKeyNotFound err.

(** [vaultkv.IsNotFound] *)
Definition vaultkv_IsNotFound (err : option error) : bool :=
  match err with Some (kvNotFound _) => true | _ => false end.

(** ** Data model *)

(** [vaultkv.KVVersion], the fields the engine reads.  Version numbers
    ([uint], and [uint64] in addresses) are in [N]: the engine compares
    them, and subtracts them only below a test that rules the wrap-around
    out. *)
Record KVVersion : Type := mkKVVersion {
  Version : N;
  Deleted : bool;
  Destroyed : bool
}.

(** Modelled from the spec: secret.go is not under src/.  A Secret is a
    mapping from key to string value; [Has], [Get], [Set], [Delete], [Keys]
    and [Empty] are the map operations secret_test.go exercises. *)
Record Secret : Type := mkSecret { data : gmap string string }.

Definition NewSecret : Secret := mkSecret ∅.

Definition Has (s : Secret) (key : string) : bool :=
  bool_decide (is_Some (data s !! key)).

Definition Get (s : Secret) (key : string) : string :=
  default "" (data s !! key).

(** [Set] with [skipIfExists = false]: the only use the engine makes. *)
Definition Set_ (s : Secret) (key value : string) : Secret :=
  mkSecret (<[key := value]> (data s)).

(** [Delete] removes the key in place and tells whether it was there: the
    pair is the updated secret and the returned flag. *)
Definition Secret_Delete (s : Secret) (key : string) : Secret * bool :=
  match data s !! key with
  | Some _ => (mkSecret (delete key (data s)), true)
  | None => (s, false)
  end.

Definition Empty (s : Secret) : bool :=
  bool_decide (data s = ∅).

Definition Keys (s : Secret) : list string :=
  (map_to_list (data s)).*1.

Inductive SecretState : Type :=
| SecretStateAlive
| SecretStateDeleted
| SecretStateDestroyed.

#[global] Instance SecretState_eq_dec : EqDecision SecretState.
Proof. solve_decision. Defined.

Record SecretVersion : Type := mkSecretVersion {
  Data : Secret;
  Number : N;
  State : SecretState
}.

Record SecretEntry : Type := mkSecretEntry {
  Path : string;
  Versions : list SecretVersion
}.

Definition Secrets : Type := list SecretEntry.

Record TreeOpts : Type := mkTreeOpts {
  FetchKeys : bool;
  GetOnly : bool;
  FetchAllVersions : bool;
  GetDeletedVersions : bool;
  AllowDeletedSecrets : bool;
  SkipVersionInfo : bool
}.

Record TreeCopyOpts : Type := mkTreeCopyOpts {
  Clear : bool;
  Pad : bool
}.

Inductive verifyState : Type :=
| verifyStateAlive
| verifyStateAliveOrDeleted.

#[global] Instance verifyState_eq_dec : EqDecision verifyState.
Proof. solve_decision. Defined.

Record verifyOpts : Type := mkVerifyOpts {
  AnyVersion : bool;
  VState : verifyState
}.

Record DeleteOpts : Type := mkDeleteOpts {
  Destroy : bool;
  All : bool
}.

Record MoveCopyOpts : Type := mkMoveCopyOpts {
  SkipIfExists : bool;
  Quiet : bool;
  Deep : bool;
  DeletedVersions : bool
}.

(** ** What the engine takes from outside src/ *)

(** The pure helpers the engine calls and whose code is not under src/:
    the address codec of utils.go, [Secrets.Paths] of tree.go, and the
    values [encoding/json] decodes into [interface{}] together with the
    type assertion [v.(string)] and [json.Marshal].  The engine is
    embedded over any such helpers; [spec_helpers] below is the instance
    the examples run on. *)
Class Helpers : Type := mkHelpers {
  ParsePath : string → string * string * N;
  Canonicalize : string → string;
  PathHasKey : string → bool;
  Paths : Secrets → list string;
  rawval : Type;
  asString : rawval → option string;
  json_Marshal : rawval → string + error
}.

Section engine.

Context `{HP : Helpers}.

(** ** Calls and programs *)

(** The calls the engine issues.  The first ten are methods of the
    [vaultkv] client; [ConstructSecrets] and [SecretEntry.Copy] stand for
    the two methods of tree.go (not under src/) that the engine invokes;
    [Stderr] is a line printed on standard error. *)
Inductive call : Type → Type :=
| client_Get (path : string) (version : N)
    : call (gmap string rawval * option error)
| client_Set (path : string) (values : gmap string string)
    : call (option error)
| client_List (path : string)
    : call (list string * option error)
| client_Delete (path : string) (versions : list N) (V1Destroy : bool)
    : call (option error)
| client_Destroy (path : string) (versions : list N)
    : call (option error)
| client_DestroyAll (path : string)
    : call (option error)
| client_Undelete (path : string) (versions : list N)
    : call (option error)
| client_Versions (path : string)
    : call (list KVVersion * option error)
| client_MountVersion (path : string)
    : call (N * option error)
| client_MountPath (path : string)
    : call (string * option error)
| ConstructSecrets (path : string) (opts : TreeOpts)
    : call (Secrets * option error)
| SecretEntry_Copy (entry : SecretEntry) (dst : string) (opts : TreeCopyOpts)
    : call (option error)
| Stderr (text : string)
    : call unit.

Inductive event : Type :=
| Event {R : Type} (c : call R).

(** The calls that change the store. *)
Definition mutates {R : Type} (c : call R) : bool :=
  match c with
  | client_Set _ _ | client_Delete _ _ _ | client_Destroy _ _
  | client_DestroyAll _ | client_Undelete _ _
  | SecretEntry_Copy _ _ _ => true
  | _ => false
  end.

(** The store calls aimed at one path. *)
Definition mutates_path {R : Type} (c : call R) (p : string) : bool :=
  match c with
  | client_Set q _ | client_Delete q _ _ | client_Destroy q _
  | client_DestroyAll q | client_Undelete q _
  | SecretEntry_Copy _ q _ => bool_decide (q = p)
  | _ => false
  end.

Definition is_mutation_of (p : string) (e : event) : bool :=
  match e with Event c => mutates_path c p end.

Inductive prog (A : Type) : Type :=
| Ret (a : A)
| Panic (msg : string)
| Vis {R : Type} (c : call R) (k : R → prog A).

Arguments Ret {A} a.
Arguments Panic {A} msg.
Arguments Vis {A R} c k.

Fixpoint bind {A B : Type} (m : prog A) (f : A → prog B) : prog B :=
  match m with
  | Ret a => f a
  | Panic msg => Panic msg
  | Vis c k => Vis c (fun r => bind (k r) f)
  end.

Definition perform {R : Type} (c : call R) : prog R := Vis c Ret.

(** A backend answers every call and moves to a new state. *)
Record backend : Type := mkBackend {
  St : Type;
  answer : ∀ R : Type, call R → St → R * St
}.

Inductive outcome (A : Type) : Type :=
| Returned (a : A)
| Panicked (msg : string).

Arguments Returned {A} a.
Arguments Panicked {A} msg.

Fixpoint run (B : backend) {A : Type} (m : prog A) (s : St B)
  : outcome A * St B * list event :=
  match m with
  | Ret a => (Returned a, s, [])
  | Panic msg => (Panicked msg, s, [])
  | Vis c k =>
      let rs := answer B _ c s in
      let '(o, s', t) := run B (k rs.1) rs.2 in
      (o, s', Event c :: t)
  end.

(** A kind of call, and the programs that never issue a call of that
    kind, whatever the backend answers. *)
Definition callpred : Type := ∀ R : Type, call R → bool.

Inductive never (P : callpred) {A : Type} : prog A → Prop :=
| never_Ret (a : A) : never P (Ret a)
| never_Panic (msg : string) : never P (Panic msg)
| never_Vis {R : Type} (c : call R) (k : R → prog A) :
    P R c = false → (∀ r, never P (k r)) → never P (Vis c k).

Definition event_sat (P : callpred) (e : event) : bool :=
  match e with Event c => P _ c end.

(** No call of the kind [P] in the trace. *)
Definition trace_free (P : callpred) (t : list event) : Prop :=
  Forall (fun e => event_sat P e = false) t.

Definition any_mutation : callpred := fun R c => mutates c.

Definition any_Set : callpred :=
  fun R c => match c with client_Set _ _ => true | _ => false end.

Notation "'let!' x ':=' m 'in' k" := (bind m (fun x => k))
  (at level 10, x name, m at level 100, k at level 200, only parsing).

Notation "'let!' ( x , y ) ':=' m 'in' k" :=
  (bind m (fun xy => let '(x, y) := xy in k))
  (at level 10, x name, y name, m at level 100, k at level 200,
   only parsing).

(** ** vault.go *)

Definition MountVersion (path : string) : prog (N * option error) :=
  let path := Canonicalize path in
  perform (client_MountVersion path).

(** The method [Versions] of [*Vault] (the name [Versions] is the field of
    [SecretEntry]). *)
Definition Vault_Versions (path : string)
  : prog (list KVVersion * option error) :=
  let path := Canonicalize path in
  let! (ret, err) := perform (client_Versions path) in
  if vaultkv_IsNotFound err
  then Ret ([], Some (NewSecretNotFoundError path))
  else Ret (ret, err).

(** ** Read, List and Write *)

(** The loop of [Read] over the fetched map.  Go ranges over a map in no
    fixed order; the order only shows in the partly filled secret that is
    returned next to a [json.Marshal] error, which no caller reads. *)
Fixpoint Read_fill (key : string) (raw : list (string * rawval))
    (secret : Secret) : Secret * option error :=
  match raw with
  | [] => (secret, None)
  | (k, v) :: rest =>
      if bool_decide (key ≠ "") && bool_decide (k = key)
         || bool_decide (key = "")
      then
        match asString v with
        | Some s => Read_fill key rest (mkSecret (<[k := s]> (data secret)))
        | None =>
            match json_Marshal v with
            | inr e => (secret, Some e)
            | inl b =>
                Read_fill key rest (mkSecret (<[k := b]> (data secret)))
            end
        end
      else Read_fill key rest secret
  end.

(** A nil [*Secret] is [None]. *)
Definition Read (path : string) : prog (option Secret * option error) :=
  let '(path, key, version) := ParsePath path in
  let secret := NewSecret in
  let! (raw, err) := perform (client_Get path version) in
  match err with
  | Some _ =>
      if vaultkv_IsNotFound err
      then Ret (Some secret, Some (NewSecretNotFoundError path))
      else Ret (Some secret, err)
  | None =>
      let filter : gmap string rawval + error :=
        if bool_decide (key ≠ "") then
          match raw !! key with
          | None => inr (NewKeyNotFoundError path key)
          | Some val => inl {[ key := val ]}
          end
        else inl raw in
      match filter with
      | inr e => Ret (None, Some e)
      | inl raw =>
          let '(secret, err) := Read_fill key (map_to_list raw) secret in
          Ret (Some secret, err)
      end
  end.

Definition List (path : string) : prog (list string * option error) :=
  let path := Canonicalize path in
  let! (paths, err) := perform (client_List path) in
  if vaultkv_IsNotFound err
  then Ret (paths, Some (NewSecretNotFoundError path))
  else Ret (paths, err).

(** [Write], with its call of [deleteIfPresent] as an argument: in Go,
    [Write], [deleteIfPresent], [Delete] and [deleteSpecificKey] call one
    another in a cycle. *)
Definition Write_body
    (deleteIfPresent : string → DeleteOpts → prog (option error))
    (path : string) (s : Secret) : prog (option error) :=
  let '(path, key, version) := ParsePath path in
  if bool_decide (key ≠ "") then
    Ret (Some (errorString "cannot write to paths in /path:key notation"))
  else if bool_decide (version ≠ 0) then
    Ret (Some (errorString "cannot write to paths in /path^version notation"))
  else if Empty s then
    deleteIfPresent path (mkDeleteOpts false false)
  else
    let! err := perform (client_Set path (data s)) in
    if vaultkv_IsNotFound err
    then Ret (Some (NewSecretNotFoundError path))
    else Ret err.

(** The [Write] that [deleteSpecificKey] reaches: it is only called after
    [secret.Empty()] was found false, so the branch to [deleteIfPresent]
    is not taken there (lemma [Write_nonempty_eq]). *)
Definition Write_nonempty : string → Secret → prog (option error) :=
  Write_body (fun _ _ => Panic "Write: empty secret in deleteSpecificKey").

(** ** The version-state verifier *)

(** The message is formatted by the caller. *)
Definition errIfFolder (path message : string) : prog (option error) :=
  let path := Canonicalize path in
  let! (_, err) := List path in
  match err with
  | None => Ret (Some (errorString message))
  | Some _ => if negb (IsNotFound err) then Ret err else Ret None
  end.

Definition verifySecretExists (path : string) : prog (option error) :=
  let path := Canonicalize path in
  let! (_, err) := Read path in
  match err with
  | Some _ =>
      if IsNotFound err then
        let! folderErr :=
          errIfFolder path ("`" ++ path ++ "` points to a folder, not a secret") in
        match folderErr with
        | Some _ => Ret folderErr
        | None => Ret err
        end
      else Ret err
  | None => Ret err
  end.

Definition index_panic {A : Type} : prog A :=
  Panic "runtime error: index out of range".

(** [versions[len(versions)-1]] *)
Definition last_version (versions : list KVVersion) : option KVVersion :=
  versions !! (length versions - 1)%nat.

Definition verifySecretState (path : string) (opts : verifyOpts)
  : prog (option error) :=
  let '(secret, _, version) := ParsePath path in
  let! (mountV, err) := MountVersion secret in
  match err with
  | Some _ => Ret err
  | None =>
      let deletedErr := secretNotFound ("`" ++ path ++ "' is deleted") in
      let destroyedErr := secretNotFound ("`" ++ path ++ "' is destroyed") in
      if mountV =? 1 then verifySecretExists path
      else if mountV =? 2 then
        let! (versions, err) := Vault_Versions secret in
        match err with
        | Some _ =>
            if IsNotFound err then
              let! err :=
                errIfFolder path
                  ("`" ++ path ++ "' points to a folder, not a secret") in
              match err with
              | Some _ => Ret err
              | None => Ret (Some (NewSecretNotFoundError secret))
              end
            else Ret err
        | None =>
            if negb (AnyVersion opts) then
              let check (v : KVVersion) : prog (option error) :=
                if Destroyed v then Ret (Some destroyedErr)
                else if bool_decide (VState opts = verifyStateAlive)
                        && Deleted v
                then Ret (Some deletedErr)
                else Ret None in
              if version =? 0 then
                match last_version versions with
                | None => index_panic
                | Some v => check v
                end
              else
                match versions !! 0%nat, last_version versions with
                | Some first, Some last =>
                    if version <? Version first then Ret (Some destroyedErr)
                    else if Version last <? version then
                      Ret (Some (secretNotFound
                        ("`" ++ path ++
                         "' references a version that does not yet exist")))
                    else
                      (* no wrap-around: Version first <= version here *)
                      let idx := version - Version first in
                      match versions !! N.to_nat idx with
                      | None => index_panic
                      | Some v => check v
                      end
                | _, _ => index_panic
                end
            else
              if existsb
                   (fun v =>
                      negb (Deleted v || Destroyed v)
                      || bool_decide (VState opts = verifyStateAliveOrDeleted)
                         && negb (Destroyed v))
                   versions
              then Ret None
              else if bool_decide (VState opts = verifyStateAlive) then
                Ret (Some (secretNotFound
                  ("No living versions for `" ++ path ++ "'")))
              else
                Ret (Some (secretNotFound
                  ("No living or deleted versions for `" ++ path ++ "'")))
        end
      else
        Ret (Some (errorString
          ("Unsupported mount version: " ++ pretty mountV)))
  end.

Definition canSemanticallyDelete (path : string) : prog (option error) :=
  let '(justSecret, key, version) := ParsePath path in
  if bool_decide (key = "") || bool_decide (version = 0) then Ret None
  else
    let! (versions, err) := Vault_Versions justSecret in
    match err with
    | Some _ => Ret err
    | None =>
        match last_version versions with
        | None => index_panic
        | Some last =>
            if bool_decide (Version last = version) then Ret None
            else
              let! (s, err) := Read path in
              match err with
              | Some _ => Ret err
              | None =>
                  match s with
                  | None => Panic "runtime error: nil pointer dereference"
                  | Some s =>
                      if bool_decide (size (data s) ≠ 1%nat)
                         || negb (Has s key)
                      then Ret (Some (errorString
                        "Cannot delete specific non-isolated key of non-latest version"))
                      else Ret None
                  end
              end
        end
    end.

(** ** The mutation engine: deletion *)

(** [for verIdx < len(versions) && versions[verIdx] < n { verIdx++ }]:
    every turn increments [verIdx], so [length versions] turns are enough
    (lemma [advance_exit]). *)
Fixpoint advance (versions : list N) (n : N) (fuel verIdx : nat) : nat :=
  match fuel with
  | O => verIdx
  | S fuel =>
      match versions !! verIdx with
      | Some x =>
          if x <? n then advance versions n fuel (S verIdx) else verIdx
      | None => verIdx
      end
  end.

(** The loop of [deleteEntireSecret] that computes [shouldNuke]. *)
Fixpoint shouldNuke_from (allVersions : list KVVersion) (versions : list N)
    (verIdx : nat) : bool :=
  match allVersions with
  | [] => true
  | v :: rest =>
      let verIdx := advance versions (Version v) (length versions) verIdx in
      if negb (Destroyed v)
         && match versions !! verIdx with
            | None => true
            | Some x => bool_decide (x ≠ Version v)
            end
      then false
      else shouldNuke_from rest versions verIdx
  end.

Definition deleteEntireSecret (path : string) (destroy all : bool)
  : prog (option error) :=
  let '(secret, _, version) := ParsePath path in
  if destroy && all then perform (client_DestroyAll secret)
  else
    let versions : list N :=
      if bool_decide (version ≠ 0) then [version] else [] in
    if destroy then
      let! (allVersions, err) := Vault_Versions secret in
      match err with
      | Some _ => Ret err
      | None =>
          let populated : option (list N) :=
            if bool_decide (length versions = 0%nat)
            then (fun v => [Version v]) <$> last_version allVersions
            else Some versions in
          match populated with
          | None => index_panic
          | Some versions =>
              let shouldNuke := shouldNuke_from allVersions versions 0 in
              if shouldNuke then perform (client_DestroyAll secret)
              else perform (client_Destroy secret versions)
          end
      end
    else if all then
      let! (allVersions, err) := Vault_Versions secret in
      match err with
      | Some _ => Ret err
      | None => perform (client_Delete secret (Version <$> allVersions) true)
      end
    else perform (client_Delete secret versions true).

Definition nil_panic {A : Type} : prog A :=
  Panic "runtime error: invalid memory address or nil pointer dereference".

Definition deleteSpecificKey (path : string) : prog (option error) :=
  let '(secretPath, key, _) := ParsePath path in
  let! (secret, err) := Read secretPath in
  match err with
  | Some _ => Ret err
  | None =>
      match secret with
      | None => nil_panic
      | Some secret =>
          let '(secret, deleted) := Secret_Delete secret key in
          if negb deleted then Ret (Some (NewKeyNotFoundError secretPath key))
          else if Empty secret then deleteEntireSecret secretPath false false
          else Write_nonempty secretPath secret
      end
  end.

Definition Delete (path : string) (opts : DeleteOpts) : prog (option error) :=
  let path := Canonicalize path in
  let reqState :=
    if Destroy opts then verifyStateAliveOrDeleted else verifyStateAlive in
  let! err := verifySecretState path (mkVerifyOpts (All opts) reqState) in
  match err with
  | Some _ => Ret err
  | None =>
      let! err := canSemanticallyDelete path in
      match err with
      | Some _ => Ret err
      | None =>
          if negb (PathHasKey path)
          then deleteEntireSecret path (Destroy opts) (All opts)
          else deleteSpecificKey path
      end
  end.

Definition deleteIfPresent (path : string) (opts : DeleteOpts)
  : prog (option error) :=
  let '(secretpath, _, _) := ParsePath path in
  let! (_, err) := Read secretpath in
  match err with
  | Some _ => if IsSecretNotFound err then Ret None else Ret err
  | None =>
      let! err := Delete path opts in
      if IsKeyNotFound err then Ret None else Ret err
  end.

Definition Write : string → Secret → prog (option error) :=
  Write_body deleteIfPresent.

(** ** The mutation engine: copy and move *)

Definition nl : string := String (ascii_of_nat 10) "".

Fixpoint Write_each (dstPath : string) (toWrite : list Secret)
  : prog (option error) :=
  match toWrite with
  | [] => Ret None
  | s :: rest =>
      let! err := Write dstPath s in
      match err with
      | Some _ => Ret err
      | None => Write_each dstPath rest
      end
  end.

(** The [skipIfExists] block of [Copy]: [Some r] when the block returns
    [r], [None] when control goes on below it. *)
Definition Copy_skip (newpath : string) (opts : MoveCopyOpts)
  : prog (option (option error)) :=
  if SkipIfExists opts then
    let! (_, err) := Read newpath in
    match err with
    | None =>
        let! _ :=
          (if negb (Quiet opts) then
             perform (Stderr
               ("@R{Cowardly refusing to copy/move data into} @C{" ++ newpath
                ++ "}@R{, as that would clobber existing data}" ++ nl))
           else Ret tt) in
        Ret (Some None)
    | Some _ => if negb (IsNotFound err) then Ret (Some err) else Ret None
    end
  else Ret None.

Definition Copy (oldpath newpath : string) (opts : MoveCopyOpts)
  : prog (option error) :=
  let oldpath := Canonicalize oldpath in
  let newpath := Canonicalize newpath in
  if DeletedVersions opts && negb (Deep opts)
  then Panic "Gave DeletedVersions and not Deep"
  else
  let reqState :=
    if DeletedVersions opts
    then verifyStateAliveOrDeleted else verifyStateAlive in
  let! err := verifySecretState oldpath (mkVerifyOpts (Deep opts) reqState) in
  match err with
  | Some _ => Ret err
  | None =>
  let! skip := Copy_skip newpath opts in
  match skip with
  | Some r => Ret r
  | None =>
  let '(srcPath, srcKey, srcVersion) := ParsePath oldpath in
  let '(dstPath, dstKey, dstVersion) := ParsePath newpath in
  if bool_decide (dstVersion ≠ 0) then
    Ret (Some (errorString
      "Copying a secret to a specific destination version is not supported"))
  else if Deep opts && bool_decide (srcVersion ≠ 0) then
    Ret (Some (errorString
      "Performing a deep copy of a specified version is not supported"))
  else if bool_decide (srcKey ≠ "") then
    if Deep opts then
      Ret (Some (errorString "Cannot take deep copy of a specific key"))
    else
      let! (srcSecret, err) := Read oldpath in
      match err, srcSecret with
      | Some _, _ => Ret err
      | None, None => nil_panic
      | None, Some srcSecret =>
          if negb (Has srcSecret srcKey)
          then Ret (Some (NewKeyNotFoundError oldpath srcKey))
          else
            let dstKey := if bool_decide (dstKey = "") then srcKey else dstKey in
            let! (dstOrig, err) := Read dstPath in
            if bool_decide (err ≠ None) && negb (IsSecretNotFound err)
            then Ret err
            else
              let dstOrig :=
                if IsSecretNotFound err then Some NewSecret else dstOrig in
              match dstOrig with
              | None => nil_panic
              | Some dstOrig =>
                  let toWrite := [Set_ dstOrig dstKey (Get srcSecret srcKey)] in
                  Write_each dstPath toWrite
              end
      end
  else
    if bool_decide (dstKey ≠ "") then
      Ret (Some (errorString
        ("Cannot move full secret `" ++ oldpath ++ "` into specific key `"
         ++ newpath ++ "`")))
    else
      let! (t, err) :=
        perform (ConstructSecrets srcPath
          {| FetchKeys := true;
             GetOnly := true;
             FetchAllVersions := Deep opts || bool_decide (srcVersion ≠ 0);
             GetDeletedVersions := Deep opts && DeletedVersions opts;
             AllowDeletedSecrets := Deep opts || bool_decide (srcVersion ≠ 0);
             SkipVersionInfo := false |}) in
      match err, t with
      | Some _, _ => Ret err
      | None, [] => Ret (Some (NewSecretNotFoundError srcPath))
      | None, t0 :: _ =>
          let t0 :=
            if bool_decide (srcVersion ≠ 0) then
              match find (fun v => Number v =? srcVersion) (Versions t0) with
              | Some v => mkSecretEntry (Path t0) [v]
              | None => t0
              end
            else t0 in
          let! err :=
            perform (SecretEntry_Copy t0 dstPath
                       (mkTreeCopyOpts (Deep opts) (Deep opts))) in
          match err with
          | Some _ => Ret err
          | None => Write_each dstPath []
          end
      end
  end
  end.

Definition Move (oldpath newpath : string) (opts : MoveCopyOpts)
  : prog (option error) :=
  let oldpath := Canonicalize oldpath in
  let newpath := Canonicalize newpath in
  let! err := canSemanticallyDelete oldpath in
  match err with
  | Some e =>
      Ret (Some (errorString
        ("Can't move `" ++ oldpath ++ "': " ++ Error e
         ++ ". Did you mean cp?")))
  | None =>
      let! err := Copy oldpath newpath opts in
      match err with
      | Some _ => Ret err
      | None =>
          if Deep opts && DeletedVersions opts then
            let! err := perform (client_DestroyAll oldpath) in
            Ret None
          else
            let! err := Delete oldpath (mkDeleteOpts false false) in
            match err with
            | Some _ => Ret err
            | None => Ret None
            end
      end
  end.

(** [strings.Replace(s, old, new, 1)] *)
Fixpoint strings_Replace1 (s old new : string) : string :=
  if String.prefix old s
  then new ++ String.substring (String.length old)
                (String.length s - String.length old) s
  else match s with
       | EmptyString => EmptyString
       | String c s' => String c (strings_Replace1 s' old new)
       end.

(** The destinations that already exist: [existingPaths]. *)
Definition existingPaths (oldRoot newRoot : string)
    (tree newTree : Secrets) : list string :=
  let existing : gset string := list_to_set (Paths newTree) in
  List.filter (fun newPath => bool_decide (newPath ∈ existing))
    ((fun path => strings_Replace1 path oldRoot newRoot) <$> Paths tree).

Fixpoint Stderr_each (lines : list string) : prog unit :=
  match lines with
  | [] => Ret tt
  | l :: rest => let! _ := perform (Stderr l) in Stderr_each rest
  end.

Fixpoint apply_each (f : string → string → MoveCopyOpts → prog (option error))
    (oldRoot newRoot : string) (opts : MoveCopyOpts) (paths : list string)
  : prog (option error) :=
  match paths with
  | [] => Ret None
  | path :: rest =>
      let newPath := strings_Replace1 path oldRoot newRoot in
      let! err := f path newPath opts in
      match err with
      | Some _ => Ret err
      | None => apply_each f oldRoot newRoot opts rest
      end
  end.

(** The [skipIfExists] block of [MoveCopyTree]: [Some r] when the block
    returns [r], [None] when control goes on below it. *)
Definition MoveCopyTree_skip (oldRoot newRoot : string) (tree : Secrets)
    (opts : MoveCopyOpts) : prog (option (option error)) :=
  if SkipIfExists opts then
    let! (newTree, err) :=
      perform (ConstructSecrets newRoot
        {| FetchKeys := false; GetOnly := false; FetchAllVersions := false;
           GetDeletedVersions := false;
           AllowDeletedSecrets := negb (Deep opts);
           SkipVersionInfo := true |}) in
    if bool_decide (err ≠ None) && negb (IsNotFound err) then Ret (Some err)
    else
      let existingPaths := existingPaths oldRoot newRoot tree newTree in
      if (0 <? length existingPaths)%nat then
        let! _ :=
          (if negb (Quiet opts) then
             let! _ := perform (Stderr
               ("@R{Cowardly refusing to copy/move data into} @C{" ++ newRoot
                ++ "}@R{, as the following paths would be clobbered:}" ++ nl)) in
             Stderr_each
               ((fun path => "@R{- }@C{" ++ path ++ "}" ++ nl) <$> existingPaths)
           else Ret tt) in
        Ret (Some None)
      else Ret None
  else Ret None.

Definition MoveCopyTree (oldRoot newRoot : string)
    (f : string → string → MoveCopyOpts → prog (option error))
    (opts : MoveCopyOpts) : prog (option error) :=
  let oldRoot := Canonicalize oldRoot in
  let newRoot := Canonicalize newRoot in
  let! (tree, err) :=
    perform (ConstructSecrets oldRoot
      {| FetchKeys := false; GetOnly := false; FetchAllVersions := false;
         GetDeletedVersions := false; AllowDeletedSecrets := Deep opts;
         SkipVersionInfo := true |}) in
  match err with
  | Some _ => Ret err
  | None =>
      let! skip := MoveCopyTree_skip oldRoot newRoot tree opts in
      match skip with
      | Some r => Ret r
      | None =>
          let! err := apply_each f oldRoot newRoot opts (Paths tree) in
          match err with
          | Some _ => Ret err
          | None =>
              let! (_, err) := Read oldRoot in
              if negb (IsNotFound err) then f oldRoot newRoot opts
              else Ret None
          end
      end
  end.

(** ** The rest of the deletion file *)

Definition verifyMetadataExists (path : string) : prog (option error) :=
  let! (versions, err) := Vault_Versions path in
  match err with
  | Some _ =>
      if vaultkv_IsNotFound err
      then Ret (Some (NewSecretNotFoundError path))
      else Ret err
  | None =>
      if bool_decide (length versions = 0%nat)
      then Ret (Some (NewSecretNotFoundError path))
      else Ret None
  end.

Definition DeleteVersions (path : string) (versions : list N)
  : prog (option error) :=
  perform (client_Delete path versions true).

Definition DestroyVersions (path : string) (versions : list N)
  : prog (option error) :=
  perform (client_Destroy path versions).

(** [strings.Trim(s, "/")] *)
Fixpoint trim_left_slash (s : string) : string :=
  match s with
  | String c rest =>
      if Ascii.eqb c "/"%char then trim_left_slash rest else s
  | EmptyString => EmptyString
  end.

Fixpoint trim_right_slash (s : string) : string :=
  match s with
  | EmptyString => EmptyString
  | String c rest =>
      match trim_right_slash rest with
      | EmptyString =>
          if Ascii.eqb c "/"%char then EmptyString
          else String c EmptyString
      | rest' => String c rest'
      end
  end.

Definition strings_Trim_slash (s : string) : string :=
  trim_right_slash (trim_left_slash s).

(** The loop of [DeleteTree] over the listed paths. *)
Fixpoint deleteEntireSecret_each (paths : list string) (opts : DeleteOpts)
  : prog (option error) :=
  match paths with
  | [] => Ret None
  | path :: rest =>
      let! err := deleteEntireSecret path (Destroy opts) (All opts) in
      match err with
      | Some _ => Ret err
      | None => deleteEntireSecret_each rest opts
      end
  end.

Definition DeleteTree (root : string) (opts : DeleteOpts)
  : prog (option error) :=
  let root := Canonicalize root in
  let! (secrets, err) :=
    perform (ConstructSecrets root
      {| FetchKeys := false; GetOnly := false; FetchAllVersions := false;
         GetDeletedVersions := false; AllowDeletedSecrets := true;
         SkipVersionInfo := true |}) in
  match err with
  | Some _ => Ret err
  | None =>
      let! err := deleteEntireSecret_each (Paths secrets) opts in
      match err with
      | Some _ => Ret err
      | None =>
          let! (mount, err) := perform (client_MountPath root) in
          match err with
          | Some _ => Ret err
          | None =>
              if bool_decide
                   (strings_Trim_slash root ≠ strings_Trim_slash mount)
              then deleteEntireSecret root (Destroy opts) (All opts)
              else Ret err
          end
      end
  end.

Definition Undelete (path : string) : prog (option error) :=
  let '(secret, key, version) := ParsePath path in
  if bool_decide (key ≠ "") then
    Ret (Some (errorString ("Cannot undelete specific key (" ++ path ++ ")")))
  else
    let! (respVersions, err) := Vault_Versions secret in
    match err with
    | Some _ => Ret err
    | None =>
        match last_version respVersions, respVersions !! 0%nat with
        | Some newest, Some oldest =>
            let version :=
              if version =? 0 then Version newest else version in
            let destroyedErr :=
              errorString ("`" ++ secret ++ "' version: " ++ pretty version
                           ++ " is destroyed") in
            let firstVersion := Version oldest in
            if version <? firstVersion then Ret (Some destroyedErr)
            else
              (* no wrap-around in the subtraction: firstVersion <= version;
                 the conversion to int is negative from 2^63 on *)
              let idx := version - firstVersion in
              if 2 ^ 63 <=? idx then index_panic
              else if (length respVersions <=? N.to_nat idx)%nat then
                Ret (Some (errorString
                  ("version " ++ pretty version ++ " of `" ++ secret
                   ++ "' does not yet exist")))
              else
                match respVersions !! N.to_nat idx with
                | None => index_panic
                | Some r =>
                    if Destroyed r then Ret (Some destroyedErr)
                    else perform (client_Undelete secret [version])
                end
        | _, _ => index_panic
        end
    end.

End engine.

Arguments Ret {HP A} a.
Arguments Panic {HP A} msg.
Arguments Vis {HP A R} c k.
Arguments Returned {A} a.
Arguments Panicked {A} msg.
Arguments Event {HP R} c.

End vault.

(** ** The export command: choice of the format *)

Module main.

Record exportVersion : Type := mkExportVersion {
  Deleted : bool;
  Destroyed : bool;
  Value : gmap string string
}.

Record exportSecret : Type := mkExportSecret {
  FirstVersion : N;
  Versions : list exportVersion
}.

Record exportFormat : Type := mkExportFormat {
  ExportVersion : N;
  Data : gmap string exportSecret;
  RequiresVersioning : gmap string bool
}.

(** The flags of [opt.Export] that the handler reads after the fetch. *)
Record ExportOpts : Type := mkExportOpts {
  Shallow : bool;
  OptDeleted : bool
}.

(** [var toExport interface{}]: nil, the legacy map, or the slice that
    wraps the versioned envelope. *)
Inductive toExport_t : Type :=
| toExport_nil
| toExport_legacy (export : gmap string vault.Secret)
| toExport_versioned (export : list exportFormat).

Section export.

Context `{HP : vault.Helpers}.

Notation "'let!' x ':=' m 'in' k" := (vault.bind m (fun x => k))
  (at level 10, x name, m at level 100, k at level 200, only parsing).

Notation "'let!' ( x , y ) ':=' m 'in' k" :=
  (vault.bind m (fun xy => let '(x, y) := xy in k))
  (at level 10, x name, y name, m at level 100, k at level 200,
   only parsing).

(** The loop that sets [mustV2Export]. *)
Definition mustV2Export (secrets : vault.Secrets) : bool :=
  existsb (fun s => (1 <? length (vault.Versions s))%nat) secrets.

Fixpoint v1Export_from (secrets : vault.Secrets)
    (export : gmap string vault.Secret)
  : vault.prog (gmap string vault.Secret) :=
  match secrets with
  | [] => vault.Ret export
  | s :: rest =>
      match vault.Versions s !! 0%nat with
      | None => vault.index_panic
      | Some v0 =>
          v1Export_from rest (<[vault.Path s := vault.Data v0]> export)
      end
  end.

Definition v1Export (secrets : vault.Secrets) (toExport : toExport_t)
  : vault.prog toExport_t :=
  let! export := v1Export_from secrets ∅ in
  vault.Ret (toExport_legacy export).

Definition thisVersion (opt : ExportOpts) (version : vault.SecretVersion)
  : exportVersion :=
  {| Deleted :=
       bool_decide (vault.State version = vault.SecretStateDeleted)
       && OptDeleted opt;
     Destroyed :=
       bool_decide (vault.State version = vault.SecretStateDestroyed)
       || bool_decide (vault.State version = vault.SecretStateDeleted)
          && negb (OptDeleted opt);
     Value :=
       foldl (fun value key => <[key := vault.Get (vault.Data version) key]> value)
         ∅ (vault.Keys (vault.Data version)) |}.

(** The loop of [v2Export]; [toExport] is assigned at the end of every
    turn. *)
Fixpoint v2Export_from (opt : ExportOpts) (secrets : vault.Secrets)
    (export : exportFormat) (toExport : toExport_t)
  : vault.prog toExport_t :=
  match secrets with
  | [] => vault.Ret toExport
  | secret :: rest =>
      let! export :=
        (if (1 <? length (vault.Versions secret))%nat then
           let! (mount, _) :=
             vault.perform (vault.client_MountPath (vault.Path secret)) in
           vault.Ret
             {| ExportVersion := ExportVersion export;
                Data := Data export;
                RequiresVersioning :=
                  <[mount := true]> (RequiresVersioning export) |}
         else vault.Ret export) in
      match vault.Versions secret !! 0%nat with
      | None => vault.index_panic
      | Some v0 =>
          let FirstVersion :=
            if bool_decide (vault.Number v0 = 1) || Shallow opt
            then 0 else vault.Number v0 in
          let thisSecret :=
            {| FirstVersion := FirstVersion;
               Versions := thisVersion opt <$> vault.Versions secret |} in
          let export :=
            {| ExportVersion := ExportVersion export;
               Data := <[vault.Path secret := thisSecret]> (Data export);
               RequiresVersioning := RequiresVersioning export |} in
          v2Export_from opt rest export (toExport_versioned [export])
      end
  end.

Definition v2Export (opt : ExportOpts) (secrets : vault.Secrets)
    (toExport : toExport_t) : vault.prog toExport_t :=
  v2Export_from opt secrets
    {| ExportVersion := 2; Data := ∅; RequiresVersioning := ∅ |} toExport.

(** The export handler from the merged [secrets] to the value handed to
    [json.Marshal]. *)
Definition export_toExport (opt : ExportOpts) (secrets : vault.Secrets)
  : vault.prog toExport_t :=
  let toExport := toExport_nil in
  if mustV2Export secrets
  then v2Export opt secrets toExport
  else v1Export secrets toExport.

End export.

(** The flags of [opt.Import]. *)
Record ImportOpts : Type := mkImportOpts {
  IgnoreDestroyed : bool;
  IgnoreDeleted : bool;
  ImportShallow : bool
}.

(** Addition of [uint] values: the numbers of versions are 64 bits wide. *)
Definition uint_add (a b : N) : N := (a + b) mod 2 ^ 64.

Section import.

Context `{HP : vault.Helpers}.

Notation "'let!' x ':=' m 'in' k" := (vault.bind m (fun x => k))
  (at level 10, x name, m at level 100, k at level 200, only parsing).

Notation "'let!' ( x , y ) ':=' m 'in' k" :=
  (vault.bind m (fun xy => let '(x, y) := xy in k))
  (at level 10, x name, y name, m at level 100, k at level 200,
   only parsing).

(** [data := vault.NewSecret()] and the loop that sets every pair of
    [Value] in it. *)
Definition import_data (value : gmap string string) : vault.Secret :=
  foldl (fun data kv => vault.Set_ data kv.1 kv.2) vault.NewSecret
    (map_to_list value).

(** The loop of [v2Import] over [secret.Versions], at index [i], with
    [s.Versions] so far in [acc]. *)
Fixpoint v2Import_versions (opt : ImportOpts) (firstVersion : N) (i : nat)
    (versions : list exportVersion) (acc : list vault.SecretVersion)
  : list vault.SecretVersion :=
  match versions with
  | [] => acc
  | ev :: rest =>
      let continue := v2Import_versions opt firstVersion (S i) rest acc in
      let append state :=
        v2Import_versions opt firstVersion (S i) rest
          (acc ++ [ {| vault.Data := import_data (Value ev);
                       vault.Number := uint_add firstVersion (N.of_nat i);
                       vault.State := state |} ])%list in
      if Destroyed ev then
        if IgnoreDestroyed opt then continue
        else append vault.SecretStateDestroyed
      else if Deleted ev then
        if IgnoreDeleted opt then continue
        else append vault.SecretStateDeleted
      else append vault.SecretStateAlive
  end.

(** The entry that [v2Import] builds for one path of the file.  The
    slice [secret.Versions[len(secret.Versions)-1:]] of the shallow
    import is out of range on an empty list. *)
Definition v2Import_entry (opt : ImportOpts) (path : string)
    (secret : exportSecret) : vault.prog vault.SecretEntry :=
  let firstVersion :=
    if FirstVersion secret =? 0 then 1 else FirstVersion secret in
  let! versions :=
    (if ImportShallow opt then
       match Versions secret with
       | [] => vault.Panic "runtime error: slice bounds out of range [-1:]"
       | _ =>
           vault.Ret (drop (length (Versions secret) - 1) (Versions secret))
       end
     else vault.Ret (Versions secret)) in
  vault.Ret
    {| vault.Path := path;
       vault.Versions := v2Import_versions opt firstVersion 0 versions [] |}.

(** The check of the mounts that need versioning.  Go ranges over the
    map in no fixed order; the order taken here is the order of the list
    handed in. *)
Fixpoint v2Import_mounts (mounts : list (string * bool))
  : vault.prog (option vault.error) :=
  match mounts with
  | [] => vault.Ret None
  | (mount, needsVersioning) :: rest =>
      if needsVersioning then
        let! (mountVersion, err) := vault.MountVersion mount in
        match err with
        | Some e =>
            vault.Ret (Some (vault.errorString
              ("Could not determine existing mount version: "
               ++ vault.Error e)))
        | None =>
            if bool_decide (mountVersion ≠ 2) then
              vault.Ret (Some (vault.errorString
                ("Export for mount `" ++ mount
                 ++ "' has secrets with multiple versions, but the mount either"
                 ++ vault.nl
                 ++ "does not exist or does not support versioning")))
            else v2Import_mounts rest
        end
      else v2Import_mounts rest
  end.

(** The loop that puts the secrets of the file in place, in the order
    of the list handed in. *)
Fixpoint v2Import_secrets (opt : ImportOpts)
    (data : list (string * exportSecret)) : vault.prog (option vault.error) :=
  match data with
  | [] => vault.Ret None
  | (path, secret) :: rest =>
      let! s := v2Import_entry opt path secret in
      let! err :=
        vault.perform
          (vault.SecretEntry_Copy s (vault.Path s)
             {| vault.Clear := true;
                vault.Pad :=
                  negb (IgnoreDestroyed opt || ImportShallow opt) |}) in
      match err with
      | Some _ => vault.Ret err
      | None => v2Import_secrets opt rest
      end
  end.

(** [v2Import] from the decoded file on. *)
Definition v2Import (opt : ImportOpts) (unmarshalTarget : list exportFormat)
  : vault.prog (option vault.error) :=
  match unmarshalTarget with
  | [data] =>
      let! err :=
        (if negb (ImportShallow opt)
         then v2Import_mounts (map_to_list (RequiresVersioning data))
         else vault.Ret None) in
      match err with
      | Some _ => vault.Ret err
      | None => v2Import_secrets opt (map_to_list (Data data))
      end
  | _ => vault.Ret (Some (vault.errorString "Improperly formatted export file"))
  end.

(** The loop of the [undelete] handler over its arguments.  In the
    [--all] branch [respVersions, err := v.Versions(secret)] declares an
    [err] of the block; the [err] that is tested after the branch is the
    one declared at the head of the loop body. *)
Fixpoint undelete_paths (All : bool) (args : list string)
  : vault.prog (option vault.error) :=
  match args with
  | [] => vault.Ret None
  | path :: rest =>
      let err : option vault.error := None in
      if All then
        let '(secret, key, version) := vault.ParsePath path in
        if bool_decide (key ≠ "") then
          vault.Ret (Some (vault.errorString
            ("Cannot undelete specific key (" ++ path ++ ")")))
        else if 0 <? version then
          vault.Ret (Some (vault.errorString
            ("--all given but path (" ++ path ++ ") has version specified")))
        else
          let! (respVersions, err') := vault.Vault_Versions secret in
          match err' with
          | Some _ => vault.Ret err'
          | None =>
              let versions := vault.Version <$> respVersions in
              let! err' := vault.perform (vault.client_Undelete path versions) in
              match err with
              | Some _ => vault.Ret err
              | None => undelete_paths All rest
              end
          end
      else
        let! err := vault.Undelete path in
        match err with
        | Some _ => vault.Ret err
        | None => undelete_paths All rest
        end
  end.

End import.

Section revert_command.

Context `{HP : vault.Helpers}.

(** [vault.EncodePath], of utils.go, which is not under src/, and
    [strconv.ParseUint(s, 10, 64)] of the Go library are parameters. *)
Variable EncodePath : string → string → N → string.
Variable ParseUint : string → option N.

Notation "'let!' x ':=' m 'in' k" := (vault.bind m (fun x => k))
  (at level 10, x name, m at level 100, k at level 200, only parsing).

Notation "'let!' ( x , y ) ':=' m 'in' k" :=
  (vault.bind m (fun xy => let '(x, y) := xy in k))
  (at level 10, x name, y name, m at level 100, k at level 200,
   only parsing).

Definition revert_destroyed (targetVersion : N) (secret : string)
  : vault.error :=
  vault.errorString
    ("Version " ++ pretty targetVersion ++ " of secret `" ++ secret
     ++ "' is destroyed").

Definition revert_not_exist (targetVersion : N) (secret : string)
  : vault.error :=
  vault.errorString
    ("Version " ++ pretty targetVersion ++ " of secret `" ++ secret
     ++ "' does not exist").

Definition revert_deleted (targetVersion : N) (secret : string)
  : vault.error :=
  vault.errorString
    ("Version " ++ pretty targetVersion ++ " of secret `" ++ secret
     ++ "' is deleted. To force a read, specify --deleted").

(** The handler of [revert] with its two arguments; [optDeleted] is
    [opt.Revert.Deleted]. *)
Definition revert (optDeleted : bool) (args0 args1 : string)
  : vault.prog (option vault.error) :=
  let '(secret, key, version) := vault.ParsePath args0 in
  if bool_decide (key ≠ "") then
    vault.Ret (Some (vault.errorString
      "Cannot call revert with path containing key"))
  else if 0 <? version then
    vault.Ret (Some (vault.errorString
      "Cannot call revert with path containing version"))
  else
    match ParseUint args1 with
    | None =>
        vault.Ret (Some (vault.errorString
          "VERSION must be a positive integer"))
    | Some targetVersion =>
        if targetVersion =? 0 then vault.Ret None
        else
          let! (allVersions, err) := vault.Vault_Versions args0 in
          match err with
          | Some _ => vault.Ret err
          | None =>
              let destroyedErr := revert_destroyed targetVersion secret in
              match allVersions !! 0%nat, vault.last_version allVersions with
              | Some oldest, Some newest =>
                  if targetVersion <? vault.Version oldest then
                    vault.Ret (Some destroyedErr)
                  else if vault.Version newest <? targetVersion then
                    vault.Ret (Some (revert_not_exist targetVersion secret))
                  else
                    match allVersions
                          !! N.to_nat (targetVersion - vault.Version oldest)
                    with
                    | None => vault.index_panic
                    | Some versionObject =>
                        if vault.Destroyed versionObject then
                          vault.Ret (Some destroyedErr)
                        else if vault.Deleted versionObject
                                && negb optDeleted then
                          vault.Ret
                            (Some (revert_deleted targetVersion secret))
                        else
                          let! err :=
                            (if vault.Deleted versionObject
                             then vault.Undelete
                                    (EncodePath secret "" targetVersion)
                             else vault.Ret None) in
                          match err with
                          | Some _ => vault.Ret err
                          | None =>
                              if targetVersion =? vault.Version newest
                              then vault.Ret None
                              else
                                let! (toWrite, err) :=
                                  vault.Read
                                    (EncodePath secret "" targetVersion) in
                                match err, toWrite with
                                | Some _, _ => vault.Ret err
                                | None, None => vault.nil_panic
                                | None, Some toWrite =>
                                    let! err := vault.Write secret toWrite in
                                    match err with
                                    | Some _ => vault.Ret err
                                    | None =>
                                        if vault.Deleted versionObject then
                                          vault.Delete
                                            (EncodePath secret ""
                                               targetVersion)
                                            (vault.mkDeleteOpts false false)
                                        else vault.Ret None
                                    end
                                end
                          end
                    end
              | _, _ => vault.index_panic
              end
          end
    end.

End revert_command.

End main.

(** * Package [vaultsync]: the difference between local and remote state *)

Module vaultsync.

Inductive ChangeType : Type :=
| ChangeNone
| ChangeAdd
| ChangeModify
| ChangeDelete.

(** Addition of [int] values: 64 bits, two's complement. *)
Definition int_add (a b : Z) : Z :=
  ((a + b + 2 ^ 63) mod 2 ^ 64 - 2 ^ 63)%Z.

(** [sort.Strings]: ascending in the byte order of Go's [<] on strings. *)
Definition sort_Strings (l : list string) : list string :=
  merge_sort (fun a b : string => String.leb a b) l.

Section sync.

(** The values of type [interface{}] that the maps hold: values decoded
    from JSON, on which [reflect.DeepEqual] is equality. *)
Context {V : Type} `{EqDecision V}.

(** A map that is [nil] reads as the empty map, and the code below only
    reads the maps of a [Change]: [nil] is [∅] here. *)
Record Change : Type := mkChange {
  Type_ : ChangeType;
  Path : string;
  LocalData : gmap string V;
  RemoteData : gmap string V
}.

Record ChangeSet : Type := mkChangeSet {
  Changes : list Change
}.

(** [LocalSecret], with the fields [Path] and [Data]. *)
Record LocalSecret : Type := mkLocalSecret {
  LocalSecret_Path : string;
  LocalSecret_Data : gmap string V
}.

(** The loop of [Counts]. *)
Fixpoint Counts_range (changes : list Change) (adds modifies deletes : Z)
  : Z * Z * Z :=
  match changes with
  | [] => (adds, modifies, deletes)
  | c :: rest =>
      match Type_ c with
      | ChangeAdd => Counts_range rest (int_add adds 1) modifies deletes
      | ChangeModify => Counts_range rest adds (int_add modifies 1) deletes
      | ChangeDelete => Counts_range rest adds modifies (int_add deletes 1)
      | ChangeNone => Counts_range rest adds modifies deletes
      end
  end.

Definition Counts (cs : ChangeSet) : Z * Z * Z :=
  Counts_range (Changes cs) 0 0 0.

Definition HasChanges (cs : ChangeSet) : bool :=
  let '(adds, modifies, deletes) := Counts cs in
  (0 <? int_add (int_add adds modifies) deletes)%Z.

Definition ValuesEqual (a b : V) : bool := bool_decide (a = b).

(** The loop of [mapsEqual] over the pairs of [a]. *)
Fixpoint mapsEqual_range (a : list (string * V)) (b : gmap string V) : bool :=
  match a with
  | [] => true
  | (k, va) :: rest =>
      match b !! k with
      | Some vb =>
          if negb (ValuesEqual va vb) then false else mapsEqual_range rest b
      | None => false
      end
  end.

Definition mapsEqual (a b : gmap string V) : bool :=
  if bool_decide (size a ≠ size b) then false
  else mapsEqual_range (map_to_list a) b.

(** [localMap]: a later secret of the same path replaces an earlier
    one. *)
Definition localMap (local : list LocalSecret) : gmap string (gmap string V) :=
  foldl (fun m ls => <[LocalSecret_Path ls := LocalSecret_Data ls]> m) ∅ local.

Definition allPaths (local : list LocalSecret)
    (remote : gmap string (gmap string V)) : gset string :=
  foldl (fun all p => {[ p ]} ∪ all)
    (foldl (fun all ls => {[ LocalSecret_Path ls ]} ∪ all) ∅ local)
    (map_to_list remote).*1.

(** The loop of [ComputeChanges] over the sorted paths. *)
Fixpoint ComputeChanges_range (localMap remote : gmap string (gmap string V))
    (sorted : list string) (changes : list Change) : list Change :=
  match sorted with
  | [] => changes
  | path :: rest =>
      ComputeChanges_range localMap remote rest
        match localMap !! path, remote !! path with
        | Some localData, None =>
            changes ++ [mkChange ChangeAdd path localData ∅]
        | None, Some remoteData =>
            changes ++ [mkChange ChangeDelete path ∅ remoteData]
        | Some localData, Some remoteData =>
            if mapsEqual localData remoteData
            then changes ++ [mkChange ChangeNone path localData remoteData]
            else changes ++ [mkChange ChangeModify path localData remoteData]
        | None, None => changes
        end%list
  end.

Definition ComputeChanges (local : list LocalSecret)
    (remote : gmap string (gmap string V)) : ChangeSet :=
  let sorted := sort_Strings (elements (allPaths local remote)) in
  mkChangeSet (ComputeChanges_range (localMap local) remote sorted []).

End sync.

(** The first loop of [SplitDiff], from index [i]: it goes round at most
    [len(a)] times. *)
Fixpoint SplitDiff_prefix (n : nat) (a b : list ascii) (i : nat) : nat :=
  match n with
  | O => i
  | S n =>
      match a !! i, b !! i with
      | Some x, Some y =>
          if Ascii.eqb x y then SplitDiff_prefix n a b (S i) else i
      | _, _ => i
      end
  end.

(** The second loop, from the end of the two rests. *)
Fixpoint SplitDiff_suffix (n : nat) (aRest bRest : list ascii) (j : nat)
  : nat :=
  match n with
  | O => j
  | S n =>
      if (j <? length aRest)%nat && (j <? length bRest)%nat then
        match aRest !! (length aRest - 1 - j)%nat,
              bRest !! (length bRest - 1 - j)%nat with
        | Some x, Some y =>
            if Ascii.eqb x y then SplitDiff_suffix n aRest bRest (S j)
            else j
        | _, _ => j
        end
      else j
  end.

(** [SplitDiff]: a Go string is its bytes. *)
Definition SplitDiff (a b : string) : string * string * string * string :=
  let a := list_ascii_of_string a in
  let b := list_ascii_of_string b in
  let i := SplitDiff_prefix (length a) a b 0 in
  let prefix := take i a in
  let aRest := drop i a in
  let bRest := drop i b in
  let j := SplitDiff_suffix (length aRest) aRest bRest 0 in
  let aMid := take (length aRest - j) aRest in
  let bMid := take (length bRest - j) bRest in
  let suffix :=
    if (0 <? j)%nat then drop (length aRest - j) aRest else [] in
  (string_of_list_ascii prefix, string_of_list_ascii aMid,
   string_of_list_ascii bMid, string_of_list_ascii suffix).

Section packing.

Context `{HP : vault.Helpers}.

(** [%q] of [fmt]: [strconv.Quote], a parameter. *)
Variable Quote : string → string.

Definition PackValue (v : vault.rawval) : string * option vault.error :=
  match vault.asString v with
  | Some s => (s, None)
  | None =>
      match vault.json_Marshal v with
      | inl b => (b, None)
      | inr err =>
          (EmptyString,
           Some (vault.errorString
             ("failed to marshal value to JSON: " ++ vault.Error err)))
      end
  end.

(** The loop of [PackMap]; the result is [nil] next to an error. *)
Fixpoint PackMap_range (m : list (string * vault.rawval))
    (result : gmap string string)
  : option (gmap string string) * option vault.error :=
  match m with
  | [] => (Some result, None)
  | (k, v) :: rest =>
      let '(packed, err) := PackValue v in
      match err with
      | Some e =>
          (None,
           Some (vault.errorString
             ("key " ++ Quote k ++ ": " ++ vault.Error e)))
      | None => PackMap_range rest (<[k := packed]> result)
      end
  end.

Definition PackMap (m : gmap string vault.rawval)
  : option (gmap string string) * option vault.error :=
  PackMap_range (map_to_list m) ∅.

End packing.

End vaultsync.


(** ** The helpers the examples run on *)

Module helpers.

Definition colon : ascii := ":"%char.
Definition caret : ascii := "^"%char.
Definition backslash : ascii := "\"%char.
Definition slash : ascii := "/"%char.

Definition is_delimiter (c : ascii) : bool :=
  Ascii.eqb c colon || Ascii.eqb c caret.

(** The text before the first unescaped [c], and the text after it when
    there is one; a backslash in front of [:] or [^] escapes it. *)
Fixpoint split_unescaped (c : ascii) (s : string) : string * option string :=
  match s with
  | EmptyString => (EmptyString, None)
  | String x tl =>
      if Ascii.eqb x backslash then
        match tl with
        | String d rest =>
            if is_delimiter d then
              let '(a, b) := split_unescaped c rest in
              (String x (String d a), b)
            else
              let '(a, b) := split_unescaped c tl in (String x a, b)
        | EmptyString => (String x EmptyString, None)
        end
      else if Ascii.eqb x c then (EmptyString, Some tl)
      else let '(a, b) := split_unescaped c tl in (String x a, b)
  end.

Fixpoint unescape (s : string) : string :=
  match s with
  | EmptyString => EmptyString
  | String x tl =>
      match tl with
      | String d rest =>
          if Ascii.eqb x backslash && is_delimiter d
          then String d (unescape rest)
          else String x (unescape tl)
      | EmptyString => String x EmptyString
      end
  end.

Definition digit (c : ascii) : option N :=
  let n := N_of_ascii c in
  if (48 <=? n) && (n <=? 57) then Some (n - 48) else None.

Fixpoint parse_digits (s : string) (acc : N) : option N :=
  match s with
  | EmptyString => Some acc
  | String c tl =>
      match digit c with
      | Some d => parse_digits tl (10 * acc + d)
      | None => None
      end
  end.

Definition parse_uint (s : string) : option N :=
  match s with
  | EmptyString => None
  | _ => parse_digits s 0
  end.

(** Modelled from the spec: utils.go is not under src/.  [ParsePath]
    splits on the first unescaped [:] to get the key, then on the first
    unescaped [^] (in the key when there is one, else in the path) to get
    the version, and unescapes the rest; a suffix after [^] that is not a
    number is literal text.  (utils_test.go expects an address with two
    unescaped colons to split on the last one; the addresses of the
    examples below have at most one, and no theorem depends on the
    choice.) *)
Definition ParsePath (input : string) : string * string * N :=
  let '(p, k) := split_unescaped colon input in
  match k with
  | Some k =>
      let '(k', v) := split_unescaped caret k in
      match v ≫= parse_uint with
      | Some n => (unescape p, unescape k', n)
      | None => (unescape p, unescape k, 0)
      end
  | None =>
      let '(p', v) := split_unescaped caret p in
      match v ≫= parse_uint with
      | Some n => (unescape p', EmptyString, n)
      | None => (unescape p, EmptyString, 0)
      end
  end.

Definition PathHasKey (input : string) : bool :=
  bool_decide ((ParsePath input).1.2 ≠ EmptyString).

(** The slash-separated segments of [s]; [cur] is the segment being read,
    in reverse. *)
Fixpoint segments (s : string) (cur : string) : list string :=
  match s with
  | EmptyString => [cur]
  | String x tl =>
      if Ascii.eqb x slash then cur :: segments tl EmptyString
      else segments tl (cur ++ String x EmptyString)
  end.

Fixpoint join (sep : string) (l : list string) : string :=
  match l with
  | [] => EmptyString
  | [x] => x
  | x :: rest => x ++ sep ++ join sep rest
  end.

(** Modelled from the spec: utils.go is not under src/.  [Canonicalize]
    trims leading and trailing slashes and collapses runs of slashes. *)
Definition Canonicalize (path : string) : string :=
  join "/"
    (List.filter (fun seg => negb (String.eqb seg EmptyString))
       (segments path EmptyString)).

Fixpoint EscapePathSegment (s : string) : string :=
  match s with
  | EmptyString => EmptyString
  | String x tl =>
      if is_delimiter x
      then String backslash (String x (EscapePathSegment tl))
      else String x (EscapePathSegment tl)
  end.

(** Modelled from the spec: utils.go is not under src/.  [EncodePath]
    escapes the path and the key and puts the address together
    (utils_test.go). *)
Definition EncodePath (path key : string) (version : N) : string :=
  EscapePathSegment path
  ++ (if bool_decide (key ≠ EmptyString)
      then ":" ++ EscapePathSegment key else EmptyString)
  ++ (if bool_decide (version ≠ 0)
      then "^" ++ pretty version else EmptyString).

(** [strconv.ParseUint(s, 10, 64)]: decimal digits, within 64 bits. *)
Definition ParseUint (s : string) : option N :=
  match parse_uint s with
  | Some n => if n <? 2 ^ 64 then Some n else None
  | None => None
  end.

(** Modelled from the spec: tree.go is not under src/.  [Paths] gives one
    address per key of the latest version of every entry, and the bare
    path of an entry that carries no key (tree_test.go). *)
Definition Paths (secrets : vault.Secrets) : list string :=
  secrets ≫= (fun e =>
    match last (vault.Versions e) with
    | Some v =>
        match vault.Keys (vault.Data v) with
        | [] => [EscapePathSegment (vault.Path e)]
        | keys =>
            (fun k => EscapePathSegment (vault.Path e) ++ ":"
                      ++ EscapePathSegment k) <$> keys
        end
    | None => [EscapePathSegment (vault.Path e)]
    end).

(** The values of a decoded JSON document that the examples store. *)
Inductive jsonval : Type :=
| JNull
| JBool (b : bool)
| JString (s : string).

Definition asString (v : jsonval) : option string :=
  match v with JString s => Some s | _ => None end.

Definition quote : string := String (ascii_of_nat 34) EmptyString.

Definition json_Marshal (v : jsonval) : string + vault.error :=
  match v with
  | JNull => inl "null"
  | JBool true => inl "true"
  | JBool false => inl "false"
  | JString s => inl (quote ++ s ++ quote)
  end.

#[global] Instance spec_helpers : vault.Helpers :=
  {| vault.ParsePath := ParsePath;
     vault.Canonicalize := Canonicalize;
     vault.PathHasKey := PathHasKey;
     vault.Paths := Paths;
     vault.rawval := jsonval;
     vault.asString := asString;
     vault.json_Marshal := json_Marshal |}.

End helpers.

(** ** An in-memory backend *)

(** A versioned (v2) store kept in memory, in the manner of the
    [mockVault] of sync_test.go: every secret is the list of its retained
    versions, oldest first.  [denied] is the set of paths whose metadata
    the token may not delete, so that [DestroyAll] is refused there. *)
Module mem.

Import helpers.

Record stored : Type := mkStored {
  number : N;
  deleted : bool;
  destroyed : bool;
  values : gmap string jsonval
}.

Record state : Type := mkState {
  secrets : gmap string (list stored);
  denied : gset string
}.

Definition not_found : option vault.error := Some (vault.kvNotFound "404").

Definition latest_number (vs : list stored) : N :=
  match last vs with Some v => number v | None => 0 end.

Definition select (vs : list stored) (version : N) : option stored :=
  if version =? 0 then last vs
  else List.find (fun v => number v =? version) vs.

Definition targets (vs : list stored) (versions : list N) : list N :=
  match versions with [] => [latest_number vs] | _ => versions end.

Definition mark (f : stored → stored) (versions : list N) (vs : list stored)
  : list stored :=
  (fun v => if existsb (N.eqb (number v)) (targets vs versions)
            then f v else v) <$> vs.

Definition update (path : string) (f : list stored → list stored)
    (s : state) : state :=
  {| secrets := alter f path (secrets s); denied := denied s |}.

Definition stringify (v : jsonval) : string :=
  match asString v with
  | Some s => s
  | None => match json_Marshal v with inl b => b | inr _ => EmptyString end
  end.

Definition to_state (v : stored) : vault.SecretState :=
  if destroyed v then vault.SecretStateDestroyed
  else if deleted v then vault.SecretStateDeleted
  else vault.SecretStateAlive.

Definition to_version (opts : vault.TreeOpts) (v : stored)
  : vault.SecretVersion :=
  {| vault.Data :=
       vault.mkSecret
         (if vault.FetchKeys opts && negb (destroyed v)
          then stringify <$> values v else ∅);
     vault.Number := number v;
     vault.State := to_state v |}.

Definition to_entry (opts : vault.TreeOpts) (pv : string * list stored)
  : vault.SecretEntry :=
  {| vault.Path := pv.1;
     vault.Versions :=
       if vault.SkipVersionInfo opts then []
       else if vault.FetchAllVersions opts then to_version opts <$> pv.2
       else to_version opts <$> option_list (last pv.2) |}.

Definition under (root path : string) : bool :=
  String.eqb root path || String.prefix (root ++ "/") path.

Fixpoint insert_by_path (pv : string * list stored)
    (l : list (string * list stored)) : list (string * list stored) :=
  match l with
  | [] => [pv]
  | x :: rest =>
      if String.leb pv.1 x.1 then pv :: l else x :: insert_by_path pv rest
  end.

(** A listing comes sorted by path. *)
Definition sort_by_path (l : list (string * list stored))
  : list (string * list stored) :=
  foldr insert_by_path [] l.

Definition listed (opts : vault.TreeOpts) (vs : list stored) : bool :=
  vault.AllowDeletedSecrets opts
  || match last vs with
     | Some v => negb (deleted v || destroyed v)
     | None => false
     end.

Definition of_version (v : vault.SecretVersion) (n : N) : stored :=
  {| number := n;
     deleted := bool_decide (vault.State v = vault.SecretStateDeleted);
     destroyed := bool_decide (vault.State v = vault.SecretStateDestroyed);
     values := JString <$> vault.data (vault.Data v) |}.

Fixpoint replay (vs : list vault.SecretVersion) (acc : list stored)
  : list stored :=
  match vs with
  | [] => acc
  | v :: rest => replay rest (acc ++ [of_version v (latest_number acc + 1)])%list
  end.

Definition answer (R : Type) (c : vault.call R) (s : state) : R * state :=
  match c in vault.call R return R * state with
  | vault.client_Get path version =>
      match secrets s !! path ≫= (fun vs => select vs version) with
      | Some v =>
          if deleted v || destroyed v then ((∅, not_found), s)
          else ((values v, None), s)
      | None => ((∅, not_found), s)
      end
  | vault.client_Set path vals =>
      let vs := default [] (secrets s !! path) in
      let v := {| number := latest_number vs + 1; deleted := false;
                  destroyed := false; values := JString <$> vals |} in
      (None, {| secrets := <[path := (vs ++ [v])%list]> (secrets s);
                denied := denied s |})
  | vault.client_List path =>
      match List.filter (String.prefix (path ++ "/"))
              (map_to_list (secrets s)).*1 with
      | [] => (([], not_found), s)
      | children => ((children, None), s)
      end
  | vault.client_Delete path versions _ =>
      (None,
       update path
         (fun vs => mark (fun v => mkStored (number v) true (destroyed v)
                                     (values v)) versions vs) s)
  | vault.client_Destroy path versions =>
      (None,
       update path
         (fun vs => mark (fun v => mkStored (number v) (deleted v) true ∅)
                      versions vs) s)
  | vault.client_DestroyAll path =>
      if bool_decide (path ∈ denied s)
      then (Some (vault.kvError "403 permission denied"), s)
      else (None, {| secrets := delete path (secrets s);
                     denied := denied s |})
  | vault.client_Undelete path versions =>
      (None,
       update path
         (fun vs => mark (fun v => mkStored (number v) false (destroyed v)
                                     (values v)) versions vs) s)
  | vault.client_Versions path =>
      match secrets s !! path with
      | Some vs =>
          (((fun v => vault.mkKVVersion (number v) (deleted v) (destroyed v))
              <$> vs, None), s)
      | None => (([], not_found), s)
      end
  | vault.client_MountVersion _ => ((2, None), s)
  | vault.client_MountPath _ => (("secret", None), s)
  | vault.ConstructSecrets path opts =>
      match sort_by_path
              (List.filter (fun pv => under path pv.1 && listed opts pv.2)
                 (map_to_list (secrets s))) with
      | [] => (([], Some (vault.NewSecretNotFoundError path)), s)
      | found => ((to_entry opts <$> found, None), s)
      end
  | vault.SecretEntry_Copy entry dst opts =>
      let old :=
        if vault.Clear opts then [] else default [] (secrets s !! dst) in
      (None, {| secrets := <[dst := replay (vault.Versions entry) old]>
                             (secrets s);
                denied := denied s |})
  | vault.Stderr _ => (tt, s)
  end.

Definition backend : vault.backend :=
  {| vault.St := state; vault.answer := answer |}.

(** The same store behind a mount of another version. *)
Definition answer_on_mount (mountV : N) (R : Type) (c : vault.call R)
    (s : state) : R * state :=
  match c in vault.call R return R * state with
  | vault.client_MountVersion _ => ((mountV, None), s)
  | c => answer _ c s
  end.

Definition backend_on_mount (mountV : N) : vault.backend :=
  {| vault.St := state; vault.answer := answer_on_mount mountV |}.

(** The same store under a token that may not undelete. *)
Definition answer_no_undelete (R : Type) (c : vault.call R) (s : state)
  : R * state :=
  match c in vault.call R return R * state with
  | vault.client_Undelete _ _ =>
      (Some (vault.kvError "403 permission denied"), s)
  | c => answer _ c s
  end.

Definition backend_no_undelete : vault.backend :=
  {| vault.St := state; vault.answer := answer_no_undelete |}.

(** Running a program: the outcome and the calls, without the state. *)
Definition exec {A : Type} (m : vault.prog A) (s : state)
  : vault.outcome A * list vault.event :=
  let '(o, _, t) := vault.run backend m s in (o, t).

End mem.

(** * The claims' own vocabulary *)

(** Definitions that follow the words of the specification; the theorems
    below compare them with the engine. *)
Module spec.

Import vault.

(** The records are numbered [n], [n+1], [n+2], ... *)
Fixpoint numbered_from (n : N) (versions : list KVVersion) : bool :=
  match versions with
  | [] => true
  | v :: rest => (Version v =? n) && numbered_from (n + 1) rest
  end.

(** A non-empty, ascending, contiguously numbered list of records. *)
Definition contiguous (versions : list KVVersion) : bool :=
  match versions with
  | [] => false
  | v :: _ => numbered_from (Version v) versions
  end.

(** A non-empty list of records in ascending order of number. *)
Fixpoint ascending_from (n : N) (versions : list KVVersion) : bool :=
  match versions with
  | [] => true
  | v :: rest => (n <=? Version v) && ascending_from (Version v) rest
  end.

Definition ascending (versions : list KVVersion) : bool :=
  match versions with
  | [] => false
  | v :: rest => ascending_from (Version v) rest
  end.

Definition Destroyed_error (path : string) : error :=
  secretNotFound ("`" ++ path ++ "' is destroyed").

Definition Deleted_error (path : string) : error :=
  secretNotFound ("`" ++ path ++ "' is deleted").

Definition VersionNotYetExist_error (path : string) : error :=
  secretNotFound
    ("`" ++ path ++ "' references a version that does not yet exist").

(** The check of one located record. *)
Definition check_record (path : string) (required : verifyState)
    (r : KVVersion) : option error :=
  if Destroyed r then Some (Destroyed_error path)
  else if bool_decide (required = verifyStateAlive) && Deleted r
  then Some (Deleted_error path)
  else None.

(** State verification on a v2 mount with [anyVersion] false, as the
    specification words it: the outcome for the address [path], whose
    version is [version], against the retained records.  [None] when no
    record is found to check. *)
Definition verify_v2 (path : string) (version : N) (required : verifyState)
    (versions : list KVVersion) : option (option error) :=
  oldest ← head versions;
  newest ← last versions;
  if version =? 0 then Some (check_record path required newest)
  else if version <? Version oldest then Some (Some (Destroyed_error path))
  else if Version newest <? version
  then Some (Some (VersionNotYetExist_error path))
  else check_record path required
         <$> List.find (fun r => Version r =? version) versions.

(** The target of a destroy that is not [all]: the explicit version, else
    the latest one. *)
Definition destroy_target (version : N) (versions : list KVVersion) : N :=
  if version =? 0
  then default 0 (Version <$> last versions)
  else version.

(** Destroying [target] would leave no version that is not destroyed. *)
Definition leaves_nothing (target : N) (versions : list KVVersion) : bool :=
  forallb (fun r => Destroyed r || (Version r =? target)) versions.

(** A fetched collection: non-empty, every entry with at least one
    version. *)
Definition fetched (secrets : Secrets) : bool :=
  (0 <? length secrets)%nat
  && forallb (fun e => (0 <? length (Versions e))%nat) secrets.

Definition single_versioned (secrets : Secrets) : bool :=
  forallb (fun e => (length (Versions e) =? 1)%nat) secrets.

Definition some_multi_versioned (secrets : Secrets) : bool :=
  existsb (fun e => (2 <=? length (Versions e))%nat) secrets.

(** The legacy format: a flat map from path to key/value map. *)
Definition legacy_format (out : main.toExport_t) : bool :=
  match out with main.toExport_legacy _ => true | _ => false end.

(** The versioned envelope: an array of one element that declares
    [export_version] 2. *)
Definition versioned_envelope (out : main.toExport_t) : bool :=
  match out with
  | main.toExport_versioned [e] => main.ExportVersion e =? 2
  | _ => false
  end.

(** A bare secret path: canonical, and an address with no key and no
    version that stands for itself. *)
Definition bare `{HP : Helpers} (p : string) : Prop :=
  ParsePath p = (p, "", 0) ∧ Canonicalize p = p ∧ PathHasKey p = false.

(** The options of the two listings of [MoveCopyTree]. *)
Definition listing (allowDeleted : bool) : TreeOpts :=
  {| FetchKeys := false; GetOnly := false; FetchAllVersions := false;
     GetDeletedVersions := false; AllowDeletedSecrets := allowDeleted;
     SkipVersionInfo := true |}.

(** The text on standard error, in order. *)
Definition stderr_of `{HP : Helpers} (t : list event) : list string :=
  t ≫= (fun e => match e with
                 | Event (Stderr text) => [text]
                 | Event _ => []
                 end).

(** The advisory of [MoveCopyTree]: a heading, then one line per
    colliding path. *)
Definition advisory (newRoot : string) (colliding : list string)
  : list string :=
  ("@R{Cowardly refusing to copy/move data into} @C{" ++ newRoot
   ++ "}@R{, as the following paths would be clobbered:}" ++ nl)
  :: ((fun path => "@R{- }@C{" ++ path ++ "}" ++ nl) <$> colliding).

(** A record meets the required state: alive, or at least not destroyed. *)
Definition satisfies (required : verifyState) (r : KVVersion) : bool :=
  match required with
  | verifyStateAlive => negb (Deleted r) && negb (Destroyed r)
  | verifyStateAliveOrDeleted => negb (Destroyed r)
  end.

Definition no_version_error (path : string) (required : verifyState) : error :=
  match required with
  | verifyStateAlive =>
      secretNotFound ("No living versions for `" ++ path ++ "'")
  | verifyStateAliveOrDeleted =>
      secretNotFound ("No living or deleted versions for `" ++ path ++ "'")
  end.

(** The version an address stands for: the explicit one, else the
    newest retained one. *)
Definition target_version (version : N) (versions : list KVVersion) : N :=
  if version =? 0
  then default 0 (Version <$> last versions)
  else version.

Definition undelete_destroyed (secret : string) (target : N) : error :=
  errorString
    ("`" ++ secret ++ "' version: " ++ pretty target ++ " is destroyed").

Definition undelete_not_yet (secret : string) (target : N) : error :=
  errorString
    ("version " ++ pretty target ++ " of `" ++ secret
     ++ "' does not yet exist").

(** What [Undelete] decides from the retained records; [Overflow] is
    the index that is negative as an [int]. *)
Inductive undelete_action : Type :=
| Refuse (e : error)
| Restore (target : N)
| Overflow.

Definition undelete_plan (secret : string) (version : N)
    (versions : list KVVersion) : option undelete_action :=
  oldest ← head versions;
  newest ← last versions;
  let target := target_version version versions in
  if target <? Version oldest
  then Some (Refuse (undelete_destroyed secret target))
  else if 2 ^ 63 <=? target - Version oldest
  then Some Overflow
  else if Version newest <? target
  then Some (Refuse (undelete_not_yet secret target))
  else
    r ← List.find (fun r => Version r =? target) versions;
    Some (if Destroyed r then Refuse (undelete_destroyed secret target)
          else Restore target).

(** A mutating call other than the soft delete of [secret]. *)
Definition beyond_soft_delete `{HP : Helpers} (secret : string) : callpred :=
  fun R c =>
    match c with
    | client_Delete q _ v1 => negb (bool_decide (q = secret) && v1)
    | c => mutates c
    end.

(** The entry handed to the copy when the source address pins the version
    [srcVersion]: that version alone when it is among the fetched ones,
    the whole fetched entry otherwise. *)
Definition pinned (srcVersion : N) (entry : SecretEntry) : SecretEntry :=
  if srcVersion =? 0 then entry
  else
    match List.find (fun v => Number v =? srcVersion) (Versions entry) with
    | Some v => mkSecretEntry (Path entry) [v]
    | None => entry
    end.

(** The options of the fetch of [Copy]. *)
Definition copy_fetch (opts : MoveCopyOpts) (srcVersion : N) : TreeOpts :=
  {| FetchKeys := true;
     GetOnly := true;
     FetchAllVersions := Deep opts || negb (srcVersion =? 0);
     GetDeletedVersions := Deep opts && DeletedVersions opts;
     AllowDeletedSecrets := Deep opts || negb (srcVersion =? 0);
     SkipVersionInfo := false |}.

(** The string a fetched value is stored as: itself when it is a string,
    else its compact JSON encoding; nothing when it cannot be encoded. *)
Definition stringified `{HP : Helpers} (v : rawval) : option string :=
  match asString v with
  | Some s => Some s
  | None => match json_Marshal v with inl b => Some b | inr _ => None end
  end.

Definition all_stringify `{HP : Helpers} (raw : gmap string rawval) : bool :=
  forallb (fun kv => bool_decide (is_Some (stringified kv.2)))
    (map_to_list raw).

(** The versions are numbered [n], [n+1], [n+2], ... *)
Fixpoint versions_from (n : N) (versions : list SecretVersion) : bool :=
  match versions with
  | [] => true
  | v :: rest => (Number v =? n) && versions_from (n + 1) rest
  end.

(** An entry as a fetch of all versions delivers it: at least one
    version, numbered without a gap from a number that is not 0, within
    the 64 bits of [uint]. *)
Definition exportable (e : SecretEntry) : bool :=
  match Versions e with
  | [] => false
  | v0 :: _ =>
      (0 <? Number v0) && versions_from (Number v0) (Versions e)
      && (Number v0 + N.of_nat (length (Versions e)) <? 2 ^ 64)
  end.

(** The state a version comes back with: a deleted version that was
    exported without its content comes back destroyed. *)
Definition exported_state (withDeleted : bool) (st : SecretState)
  : SecretState :=
  match st with
  | SecretStateDeleted =>
      if withDeleted then SecretStateDeleted else SecretStateDestroyed
  | _ => st
  end.

Definition restored (withDeleted : bool) (e : SecretEntry) : SecretEntry :=
  {| Path := Path e;
     Versions :=
       (fun v => {| Data := Data v; Number := Number v;
                    State := exported_state withDeleted (State v) |})
       <$> Versions e |}.

(** The number of changes of one type. *)
Definition count_type {V : Type} (t : vaultsync.ChangeType)
    (changes : list (@vaultsync.Change V)) : nat :=
  length (List.filter
            (fun c => match vaultsync.Type_ c, t with
                      | vaultsync.ChangeNone, vaultsync.ChangeNone
                      | vaultsync.ChangeAdd, vaultsync.ChangeAdd
                      | vaultsync.ChangeModify, vaultsync.ChangeModify
                      | vaultsync.ChangeDelete, vaultsync.ChangeDelete => true
                      | _, _ => false
                      end) changes).

(** What a change says about its path, given the local and the remote
    state as maps from path to data. *)
Definition classified {V : Type} (lm remote : gmap string (gmap string V))
    (c : @vaultsync.Change V) : Prop :=
  match vaultsync.Type_ c with
  | vaultsync.ChangeAdd =>
      lm !! vaultsync.Path c = Some (vaultsync.LocalData c)
      ∧ remote !! vaultsync.Path c = None
  | vaultsync.ChangeDelete =>
      lm !! vaultsync.Path c = None
      ∧ remote !! vaultsync.Path c = Some (vaultsync.RemoteData c)
  | vaultsync.ChangeNone =>
      lm !! vaultsync.Path c = Some (vaultsync.LocalData c)
      ∧ remote !! vaultsync.Path c = Some (vaultsync.RemoteData c)
      ∧ vaultsync.LocalData c = vaultsync.RemoteData c
  | vaultsync.ChangeModify =>
      lm !! vaultsync.Path c = Some (vaultsync.LocalData c)
      ∧ remote !! vaultsync.Path c = Some (vaultsync.RemoteData c)
      ∧ vaultsync.LocalData c ≠ vaultsync.RemoteData c
  end.

(** Why [revert] refuses a target version, if it does: the version is
    older than the oldest retained record or destroyed, newer than the
    newest record, or deleted while [--deleted] is not given. *)
Definition revert_refusal (optDeleted : bool) (secret : string) (target : N)
    (versions : list KVVersion) : option error :=
  oldest ← head versions;
  newest ← last versions;
  if target <? Version oldest
  then Some (main.revert_destroyed target secret)
  else if Version newest <? target
  then Some (main.revert_not_exist target secret)
  else
    r ← List.find (fun r => Version r =? target) versions;
    if Destroyed r then Some (main.revert_destroyed target secret)
    else if Deleted r && negb optDeleted
    then Some (main.revert_deleted target secret)
    else None.

End spec.

(** * Stores used in the examples *)

Module examples.

Import helpers.

Definition record (n : N) (del des : bool) (kvs : list (string * string))
  : mem.stored :=
  {| mem.number := n; mem.deleted := del; mem.destroyed := des;
     mem.values := JString <$> list_to_map kvs |}.

(** The history of the specification's example: 3 alive, 4 deleted,
    5 destroyed. *)
Definition history_345 : list mem.stored :=
  [ record 3 false false [("k", "v3")];
    record 4 true false [("k", "v4")];
    record 5 false true [] ].

Definition store_345 : mem.state :=
  {| mem.secrets := {[ "secret/foo" := history_345 ]}; mem.denied := ∅ |}.

Definition records_345 : list vault.KVVersion :=
  [ vault.mkKVVersion 3 false false;
    vault.mkKVVersion 4 true false;
    vault.mkKVVersion 5 false true ].

(** Two secrets with two keys each; the source has two versions. *)
Definition store_src_dst : mem.state :=
  {| mem.secrets :=
       {[ "secret/src" :=
            [ record 1 false false [("a", "1"); ("b", "2")];
              record 2 false false [("a", "3"); ("b", "4")] ];
          "secret/dst" := [ record 1 false false [("x", "y")] ] ]};
     mem.denied := ∅ |}.

(** The same store under a token that may not delete the metadata of the
    source. *)
Definition store_src_denied : mem.state :=
  {| mem.secrets := mem.secrets store_src_dst;
     mem.denied := {[ "secret/src" ]} |}.

(** A fetched tree: one secret with a single version, one with two. *)
Definition tree_ab : vault.Secrets :=
  [ {| vault.Path := "a/b";
       vault.Versions :=
         [ {| vault.Data := vault.mkSecret {[ "k" := "v" ]};
              vault.Number := 1; vault.State := vault.SecretStateAlive |} ] |};
    {| vault.Path := "a/c";
       vault.Versions :=
         [ {| vault.Data := vault.mkSecret {[ "k" := "old" ]};
              vault.Number := 1; vault.State := vault.SecretStateDeleted |};
           {| vault.Data := vault.mkSecret {[ "k" := "new" ]};
              vault.Number := 2; vault.State := vault.SecretStateAlive |} ] |} ].

(** Two folders; [a/x] and [b/x] collide when [a] is copied onto [b]. *)
Definition store_tree : mem.state :=
  {| mem.secrets :=
       {[ "a/x" := [ record 1 false false [("k", "1")] ];
          "a/y" := [ record 1 false false [("k", "2")] ];
          "b/x" := [ record 1 false false [("k", "3")] ] ]};
     mem.denied := ∅ |}.

Definition tree_a : vault.Secrets :=
  [ vault.mkSecretEntry "a/x" []; vault.mkSecretEntry "a/y" [] ].

Definition tree_b : vault.Secrets := [ vault.mkSecretEntry "b/x" [] ].

(** The tree under a token that may not destroy [a/y]. *)
Definition store_tree_denied : mem.state :=
  {| mem.secrets := mem.secrets store_tree; mem.denied := {[ "a/y" ]} |}.

(** The tree with a leaf whose only version is destroyed. *)
Definition store_tree_gone : mem.state :=
  {| mem.secrets :=
       {[ "a/x" := [ record 1 false false [("k", "1")] ];
          "a/y" := [ record 1 false true [] ] ]};
     mem.denied := ∅ |}.

(** A local directory and a remote tree: [a] is local only, [b] is on
    both sides with different data, [c] is the same on both sides and
    [d] is remote only. *)
Definition local_abc : list (@vaultsync.LocalSecret string) :=
  [ vaultsync.mkLocalSecret "c" {[ "k" := "3" ]};
    vaultsync.mkLocalSecret "a" {[ "k" := "1" ]};
    vaultsync.mkLocalSecret "b" {[ "k" := "2" ]} ].

Definition remote_bcd : gmap string (gmap string string) :=
  {[ "b" := {[ "k" := "two" ]}; "c" := {[ "k" := "3" ]};
     "d" := {[ "k" := "4" ]} ]}.

(** A secret whose path holds a colon, beside the secret whose path is
    the part before that colon. *)
Definition store_escaped : mem.state :=
  {| mem.secrets :=
       {[ "secret/f:oo" := [ record 1 false false [("oo", "1"); ("k", "2")] ];
          "secret/f" := [ record 1 false false [("oo", "x"); ("z", "y")] ] ]};
     mem.denied := ∅ |}.

(** The same store with a source to copy from. *)
Definition store_escaped_src : mem.state :=
  {| mem.secrets :=
       <[ "secret/src" := [ record 1 false false [("a", "3")] ] ]>
         (mem.secrets store_escaped);
     mem.denied := ∅ |}.

(** A secret whose first version has no data. *)
Definition store_empty_version : mem.state :=
  {| mem.secrets :=
       {[ "secret/e" := [ record 1 false false [];
                          record 2 false false [("k", "v")] ] ]};
     mem.denied := ∅ |}.

End examples.

(** * Properties *)

Import vault.

Local Open Scope list_scope.

(** ** Running programs *)

Section running.

Context `{HP : Helpers}.

Lemma run_bind (B : backend) {A C : Type} (m : prog A) (f : A → prog C)
    (s : St B) :
  run B (bind m f) s =
    match run B m s with
    | (Returned a, s1, t1) =>
        let '(o, s2, t2) := run B (f a) s1 in (o, s2, t1 ++ t2)
    | (Panicked msg, s1, t1) => (Panicked msg, s1, t1)
    end.
Proof.
  revert s. induction m as [a | msg | R c k IH]; intros s; simpl.
  - destruct (run B (f a) s) as [[o s2] t2]. reflexivity.
  - reflexivity.
  - rewrite IH.
    destruct (run B (k (answer B R c s).1) (answer B R c s).2)
      as [[[a | msg] s1] t1]; [| reflexivity].
    destruct (run B (f a) s1) as [[o s2] t2]. reflexivity.
Qed.

Lemma run_bind_Returned (B : backend) {A C : Type} (m : prog A)
    (f : A → prog C) (s s1 : St B) (a : A) (t1 : list event) :
  run B m s = (Returned a, s1, t1) →
  run B (bind m f) s =
    (let '(o, s2, t2) := run B (f a) s1 in (o, s2, t1 ++ t2)).
Proof. intros H. rewrite run_bind, H. reflexivity. Qed.

Lemma run_perform (B : backend) {R : Type} (c : call R) (s : St B) :
  run B (perform c) s =
    (Returned (answer B R c s).1, (answer B R c s).2, [Event c]).
Proof. reflexivity. Qed.

(** ** Programs that never issue some kind of call *)

Lemma never_bind (P : callpred) {A C : Type} (m : prog A) (f : A → prog C) :
  never P m → (∀ a, never P (f a)) → never P (bind m f).
Proof.
  intros Hm Hf. induction Hm; simpl; [apply Hf | constructor |].
  constructor; [assumption | intros r; auto].
Qed.

Lemma never_perform (P : callpred) {R : Type} (c : call R) :
  P R c = false → never P (perform c).
Proof. intros H. constructor; [exact H | intros r; constructor]. Qed.

Lemma never_run (P : callpred) (B : backend) {A : Type} (m : prog A)
    (s : St B) :
  never P m → trace_free P (run B m s).2.
Proof.
  intros Hm. revert s. induction Hm as [a | msg | R c k Hc Hk IH]; intros s.
  - constructor.
  - constructor.
  - simpl. specialize (IH (answer B R c s).1 (answer B R c s).2).
    destruct (run B (k (answer B R c s).1) (answer B R c s).2)
      as [[o s'] t]. simpl in *. constructor; [exact Hc | exact IH].
Qed.

Lemma trace_free_app (P : callpred) (t1 t2 : list event) :
  trace_free P t1 → trace_free P t2 → trace_free P (t1 ++ t2).
Proof. intros H1 H2. apply Forall_app. split; assumption. Qed.

Lemma never_weaken (P Q : callpred) {A : Type} (m : prog A) :
  (∀ R (c : call R), P R c = false → Q R c = false) →
  never P m → never Q m.
Proof.
  intros HPQ Hm. induction Hm; constructor; auto.
Qed.

Lemma any_mutation_Set R (c : call R) :
  any_mutation R c = false → any_Set R c = false.
Proof. destruct c; simpl; congruence. Qed.

(** A tactic for the read-only methods: walk the program, one call or one
    case distinction at a time. *)
Ltac never_step :=
  first
    [ apply never_Ret
    | apply never_Panic
    | apply never_perform; reflexivity
    | apply never_bind; [| intros ?]
    | progress simpl
    | match goal with
      | |- never _ (match ?x with _ => _ end) => destruct x
      | |- never _ (if ?b then _ else _) => destruct b
      | |- never _ (let '(_, _) := ?x in _) => destruct x
      end ].

Lemma Read_readonly path : never any_mutation (Read path).
Proof.
  unfold Read. destruct (ParsePath path) as [[p key] version].
  apply never_bind; [apply never_perform; reflexivity |].
  intros [raw err]. repeat never_step.
Qed.

Lemma List_readonly path : never any_mutation (List path).
Proof. unfold List. repeat never_step. Qed.

Lemma errIfFolder_readonly path msg : never any_mutation (errIfFolder path msg).
Proof.
  unfold errIfFolder. apply never_bind; [apply List_readonly |].
  intros [l err]. repeat never_step.
Qed.

Lemma Vault_Versions_readonly path : never any_mutation (Vault_Versions path).
Proof. unfold Vault_Versions. repeat never_step. Qed.

Lemma verifySecretExists_readonly path :
  never any_mutation (verifySecretExists path).
Proof.
  unfold verifySecretExists. apply never_bind; [apply Read_readonly |].
  intros [sec err]. destruct err; [| constructor].
  destruct (IsNotFound _); [| constructor].
  apply never_bind; [apply errIfFolder_readonly |].
  intros [fe |]; constructor.
Qed.

Lemma verifySecretState_readonly path opts :
  never any_mutation (verifySecretState path opts).
Proof.
  unfold verifySecretState. destruct (ParsePath path) as [[secret key] version].
  apply never_bind; [unfold MountVersion; apply never_perform; reflexivity |].
  intros [mountV err]. destruct err; [constructor |].
  destruct (mountV =? 1); [apply verifySecretExists_readonly |].
  destruct (mountV =? 2); [| constructor].
  apply never_bind; [apply Vault_Versions_readonly |].
  intros [versions err]. destruct err.
  - destruct (IsNotFound _); [| constructor].
    apply never_bind; [apply errIfFolder_readonly |].
    intros [fe |]; constructor.
  - unfold index_panic. repeat never_step.
Qed.

Lemma canSemanticallyDelete_readonly path :
  never any_mutation (canSemanticallyDelete path).
Proof.
  unfold canSemanticallyDelete.
  destruct (ParsePath path) as [[secret key] version].
  destruct (_ || _); [constructor |].
  apply never_bind; [apply Vault_Versions_readonly |].
  intros [versions err]. destruct err; [constructor |].
  destruct (last_version versions); [| constructor].
  destruct (bool_decide _); [constructor |].
  apply never_bind; [apply Read_readonly |].
  intros [sec err]. unfold nil_panic. repeat never_step.
Qed.

End running.

(** ** The version-state verifier *)

Section verifier.

Context `{HP : Helpers}.

Lemma last_version_last (versions : list KVVersion) :
  last_version versions = last versions.
Proof.
  unfold last_version. rewrite last_lookup. f_equal. lia.
Qed.

Lemma numbered_from_lookup (versions : list KVVersion) :
  ∀ n i v,
    spec.numbered_from n versions = true →
    versions !! i = Some v → Version v = n + N.of_nat i.
Proof.
  induction versions as [| r rest IH]; intros n i v Hn Hi; [done |].
  simpl in Hn. apply andb_true_iff in Hn as [Hr Hrest].
  apply N.eqb_eq in Hr. destruct i as [| i]; simpl in Hi.
  - inversion Hi; subst. lia.
  - rewrite (IH _ _ _ Hrest Hi). lia.
Qed.

Lemma numbered_from_find (versions : list KVVersion) :
  ∀ n version,
    spec.numbered_from n versions = true →
    n ≤ version →
    version < n + N.of_nat (length versions) →
    versions !! N.to_nat (version - n)
    = List.find (fun r => Version r =? version) versions
    ∧ is_Some (versions !! N.to_nat (version - n)).
Proof.
  induction versions as [| r rest IH]; intros n version Hn Hle Hlt.
  - simpl in Hlt. lia.
  - simpl in Hn. apply andb_true_iff in Hn as [Hr Hrest].
    apply N.eqb_eq in Hr. simpl.
    destruct (N.eqb_spec (Version r) version) as [Heq | Hne].
    + replace (version - n) with 0 by lia. simpl. eauto.
    + destruct (IH (n + 1) version Hrest) as [Hfind Hsome].
      * lia.
      * simpl length in Hlt. lia.
      * replace (N.to_nat (version - n))
          with (S (N.to_nat (version - (n + 1)))) by lia.
        simpl. split; assumption.
Qed.

(** C3.  On a v2 mount whose retained records are non-empty and numbered
    contiguously in ascending order, [verifySecretState] with [AnyVersion]
    false asks the mount version and the records and returns what the
    specification says: a version below the oldest record is Destroyed,
    one above the newest does not yet exist, otherwise the record with
    that number is found and checked (Destroyed, else Deleted when Alive
    is required, else success); version 0 checks the newest record. *)
Theorem C3_verifySecretState_v2 (B : backend) (s s1 s2 : St B)
    (path secret key : string) (version : N) (required : verifyState)
    (versions : list KVVersion) :
  ParsePath path = (secret, key, version) →
  answer B _ (client_MountVersion (Canonicalize secret)) s = ((2, None), s1) →
  answer B _ (client_Versions (Canonicalize secret)) s1
  = ((versions, None), s2) →
  spec.contiguous versions = true →
  ∃ r,
    spec.verify_v2 path version required versions = Some r
    ∧ run B (verifySecretState path (mkVerifyOpts false required)) s
      = (Returned r, s2,
         [Event (client_MountVersion (Canonicalize secret));
          Event (client_Versions (Canonicalize secret))]).
Proof.
  intros HP1 Hmount Hvers Hc.
  unfold verifySecretState, MountVersion, Vault_Versions. rewrite HP1.
  simpl. rewrite Hmount. simpl. rewrite Hvers. simpl.
  rewrite last_version_last. unfold spec.verify_v2.
  destruct versions as [| oldest rest]; [discriminate |].
  unfold spec.contiguous in Hc.
  destruct (last (oldest :: rest)) as [newest |] eqn:Hlast;
    [| apply last_None in Hlast; discriminate].
  cbn [head mbind option_bind].
  assert (Hnewest : Version newest
                    = Version oldest + N.of_nat (length rest)).
  { rewrite last_lookup in Hlast.
    apply (numbered_from_lookup _ _ _ _ Hc Hlast). }
  unfold spec.check_record, spec.Destroyed_error, spec.Deleted_error,
    spec.VersionNotYetExist_error.
  destruct (N.eqb_spec version 0) as [Hz | Hnz].
  - eexists. split; [reflexivity |].
    destruct (Destroyed newest); [reflexivity |].
    destruct (_ && _); reflexivity.
  - cbn [lookup list_lookup].
    destruct (N.ltb_spec version (Version oldest)) as [Hlow | Hlow].
    { eexists. split; reflexivity. }
    destruct (N.ltb_spec (Version newest) version) as [Hhigh | Hhigh].
    { eexists. split; reflexivity. }
    destruct (numbered_from_find (oldest :: rest) (Version oldest) version Hc)
      as [Hfind [v Hv]]; [lia | simpl length; lia |].
    rewrite <- Hfind, Hv. eexists. split; [reflexivity |].
    destruct (Destroyed v); [reflexivity |].
    destruct (_ && _); reflexivity.
Qed.

End verifier.

Lemma C3_verifySecretState_v2_witness :
  ∃ r,
    spec.verify_v2 "secret/foo^4" 4 verifyStateAlive examples.records_345
    = Some r
    ∧ run mem.backend
        (verifySecretState "secret/foo^4" (mkVerifyOpts false verifyStateAlive))
        examples.store_345
      = (Returned r, examples.store_345,
         [Event (client_MountVersion (Canonicalize "secret/foo"));
          Event (client_Versions (Canonicalize "secret/foo"))]).
Proof.
  refine (C3_verifySecretState_v2 mem.backend examples.store_345
            examples.store_345 examples.store_345 "secret/foo^4" "secret/foo"
            "" 4 verifyStateAlive examples.records_345 _ _ _ _);
    reflexivity.
Defined.

(** The four boundary cases of the specification on the history
    3 alive, 4 deleted, 5 destroyed. *)
Example verifySecretState_boundaries :
  let verify path :=
    (mem.exec (verifySecretState path (mkVerifyOpts false verifyStateAlive))
       examples.store_345).1 in
  verify "secret/foo^4" = Returned (Some (spec.Deleted_error "secret/foo^4"))
  ∧ verify "secret/foo^5"
    = Returned (Some (spec.Destroyed_error "secret/foo^5"))
  ∧ verify "secret/foo^2"
    = Returned (Some (spec.Destroyed_error "secret/foo^2"))
  ∧ verify "secret/foo^9"
    = Returned (Some (spec.VersionNotYetExist_error "secret/foo^9"))
  ∧ verify "secret/foo^3" = Returned None.
Proof. vm_compute. repeat split. Qed.

(** ** Whole-secret deletion *)

Section deletion.

Context `{HP : Helpers}.

(** The inner loop of [deleteEntireSecret] leaves by its own test, not by
    running out of turns. *)
Lemma advance_exit (versions : list N) (n : N) :
  ∀ fuel verIdx,
    (length versions ≤ fuel + verIdx)%nat →
    match versions !! advance versions n fuel verIdx with
    | Some x => n ≤ x
    | None => True
    end.
Proof.
  induction fuel as [| fuel IH]; intros verIdx Hlen; simpl.
  - rewrite lookup_ge_None_2; [exact I | lia].
  - destruct (versions !! verIdx) as [x |] eqn:Hx.
    + destruct (N.ltb_spec x n) as [Hlt | Hge].
      * apply IH. lia.
      * rewrite Hx. exact Hge.
    + rewrite Hx. exact I.
Qed.

Lemma shouldNuke_from_past (allVersions : list KVVersion) (t : N) :
  shouldNuke_from allVersions [t] 1 = forallb Destroyed allVersions.
Proof.
  induction allVersions as [| v rest IH]; [reflexivity |].
  simpl. destruct (Destroyed v); simpl; [exact IH | reflexivity].
Qed.

Lemma leaves_nothing_past (allVersions : list KVVersion) (t : N) :
  ∀ n, t < n →
    spec.ascending_from n allVersions = true →
    spec.leaves_nothing t allVersions = forallb Destroyed allVersions.
Proof.
  induction allVersions as [| v rest IH]; intros n Hlt Hasc; [reflexivity |].
  simpl in *. apply andb_true_iff in Hasc as [Hle Hrest].
  apply N.leb_le in Hle.
  destruct (N.eqb_spec (Version v) t) as [Heq | Hne]; [lia |].
  rewrite orb_false_r. f_equal. apply (IH (Version v)); [lia | exact Hrest].
Qed.

Lemma shouldNuke_from_target (allVersions : list KVVersion) (t : N) :
  ∀ n, spec.ascending_from n allVersions = true →
    shouldNuke_from allVersions [t] 0 = spec.leaves_nothing t allVersions.
Proof.
  induction allVersions as [| v rest IH]; intros n Hasc; [reflexivity |].
  simpl in Hasc. apply andb_true_iff in Hasc as [Hle Hrest].
  cbn [shouldNuke_from spec.leaves_nothing forallb length advance
       lookup list_lookup].
  destruct (N.ltb_spec t (Version v)) as [Hlt | Hge].
  - cbn [advance lookup list_lookup].
    destruct (N.eqb_spec (Version v) t) as [Heq | Hne]; [lia |].
    rewrite orb_false_r. destruct (Destroyed v); simpl; [| reflexivity].
    rewrite shouldNuke_from_past. symmetry.
    apply (leaves_nothing_past rest t (Version v) Hlt Hrest).
  - cbn [lookup list_lookup].
    destruct (N.eqb_spec (Version v) t) as [Heq | Hne].
    + rewrite bool_decide_eq_false_2 by (intros Hc; apply Hc; congruence).
      rewrite andb_false_r, orb_true_r. simpl. apply (IH _ Hrest).
    + rewrite bool_decide_eq_true_2 by congruence.
      rewrite andb_true_r, orb_false_r.
      destruct (Destroyed v); simpl; [apply (IH _ Hrest) | reflexivity].
Qed.

(** C4.  [deleteEntireSecret] with [destroy] true and [all] false, on a
    non-empty ascending list of retained records: the target is the
    explicit version, else the latest one; when every record that is not
    yet destroyed is the target, the engine calls [DestroyAll] on the
    secret, otherwise it calls [Destroy] with exactly the target. *)
Theorem C4_deleteEntireSecret_destroy (B : backend) (s s1 : St B)
    (path secret key : string) (version : N) (versions : list KVVersion) :
  ParsePath path = (secret, key, version) →
  answer B _ (client_Versions (Canonicalize secret)) s
  = ((versions, None), s1) →
  spec.ascending versions = true →
  let target := spec.destroy_target version versions in
  let c :=
    if spec.leaves_nothing target versions
    then client_DestroyAll secret
    else client_Destroy secret [target] in
  run B (deleteEntireSecret path true false) s
  = (Returned (answer B _ c s1).1, (answer B _ c s1).2,
     [Event (client_Versions (Canonicalize secret)); Event c]).
Proof.
  intros HP1 Hvers Hasc target c.
  unfold deleteEntireSecret, Vault_Versions. rewrite HP1.
  simpl. rewrite Hvers. simpl. rewrite last_version_last.
  destruct versions as [| v0 rest]; [discriminate |].
  unfold spec.ascending in Hasc.
  assert (Hfrom : spec.ascending_from (Version v0) (v0 :: rest) = true).
  { simpl. rewrite N.leb_refl. exact Hasc. }
  destruct (last (v0 :: rest)) as [newest |] eqn:Hlast;
    [| apply last_None in Hlast; discriminate].
  assert (Htarget :
    (if bool_decide (length (if bool_decide (version ≠ 0)
                             then [version] else []) = 0%nat)
     then (fun v => [Version v]) <$> Some newest
     else Some (if bool_decide (version ≠ 0) then [version] else []))
    = Some [target]).
  { subst target. unfold spec.destroy_target. rewrite Hlast.
    destruct (N.eqb_spec version 0) as [Hz | Hnz].
    - subst version. reflexivity.
    - rewrite (bool_decide_eq_true_2 (version ≠ 0)) by exact Hnz.
      reflexivity. }
  rewrite Htarget.
  rewrite (shouldNuke_from_target (v0 :: rest) target _ Hfrom).
  subst c. destruct (spec.leaves_nothing target (v0 :: rest)); reflexivity.
Qed.

End deletion.

Lemma C4_deleteEntireSecret_destroy_witness :
  let c := client_Destroy "secret/foo" [4] in
  run mem.backend (deleteEntireSecret "secret/foo^4" true false)
    examples.store_345
  = (Returned (answer mem.backend _ c examples.store_345).1,
     (answer mem.backend _ c examples.store_345).2,
     [Event (client_Versions (Canonicalize "secret/foo")); Event c]).
Proof.
  refine (C4_deleteEntireSecret_destroy mem.backend examples.store_345
            examples.store_345 "secret/foo^4" "secret/foo" "" 4
            examples.records_345 _ _ _);
    reflexivity.
Defined.

(** A secret whose only version is destroyed that way loses its whole
    history: the call is [DestroyAll]. *)
Example deleteEntireSecret_escalates :
  mem.exec (deleteEntireSecret "secret/dst" true false)
    examples.store_src_dst
  = (Returned None,
     [Event (client_Versions "secret/dst");
      Event (client_DestroyAll "secret/dst")]).
Proof. reflexivity. Qed.

(** ** The export format *)

Section export_format.

Context `{HP : Helpers}.

Lemma v1Export_from_runs (B : backend) (secrets : Secrets) :
  ∀ export (s : St B),
    forallb (fun e => (0 <? length (Versions e))%nat) secrets = true →
    ∃ m, run B (main.v1Export_from secrets export) s = (Returned m, s, []).
Proof.
  induction secrets as [| e rest IH]; intros export s Hne; simpl.
  - eauto.
  - simpl in Hne. apply andb_true_iff in Hne as [He Hrest].
    destruct (Versions e) as [| v0 vs]; [discriminate |]. simpl.
    apply IH. exact Hrest.
Qed.

Lemma v2Export_from_runs (B : backend) (opt : main.ExportOpts)
    (secrets : Secrets) :
  ∀ export toExport (s : St B),
    forallb (fun e => (0 <? length (Versions e))%nat) secrets = true →
    ∃ out s' t,
      run B (main.v2Export_from opt secrets export toExport) s
      = (Returned out, s', t)
      ∧ match secrets with
        | [] => out = toExport
        | _ :: _ =>
            ∃ e, out = main.toExport_versioned [e]
                 ∧ main.ExportVersion e = main.ExportVersion export
        end.
Proof.
  induction secrets as [| e rest IH]; intros export toExport s Hne.
  - simpl. eauto.
  - simpl in Hne. apply andb_true_iff in Hne as [He Hrest].
    cbn [main.v2Export_from]. rewrite run_bind.
    set (first :=
      if (1 <? length (Versions e))%nat
      then bind (perform (client_MountPath (Path e))) _
      else Ret export).
    assert (Hfirst : ∃ export' s1 t1,
               run B first s = (Returned export', s1, t1)
               ∧ main.ExportVersion export' = main.ExportVersion export).
    { subst first. destruct (1 <? length (Versions e))%nat.
      - simpl. destruct (answer B _ (client_MountPath (Path e)) s)
          as [[mount err] s1]. simpl. eauto.
      - simpl. eauto. }
    destruct Hfirst as (export' & s1 & t1 & Hrun & Hver). rewrite Hrun.
    destruct (Versions e) as [| v0 vs] eqn:Hvs; [discriminate |].
    cbn [lookup list_lookup].
    match goal with
    | |- context [main.v2Export_from opt rest ?ex ?te] =>
        destruct (IH ex te s1 Hrest) as (out & s2 & t2 & Hrec & Hout);
        rewrite Hrec
    end.
    exists out, s2, (t1 ++ t2). split; [reflexivity |].
    destruct rest as [| e' rest'].
    + subst out. eexists. split; [reflexivity |]. simpl. exact Hver.
    + destruct Hout as (e0 & Hout & He0). exists e0.
      split; [exact Hout |]. rewrite He0. simpl. exact Hver.
Qed.

Lemma mustV2Export_multi (secrets : Secrets) :
  main.mustV2Export secrets = spec.some_multi_versioned secrets.
Proof.
  induction secrets as [| e rest IH]; [reflexivity |].
  unfold main.mustV2Export, spec.some_multi_versioned in *. simpl.
  rewrite IH. f_equal.
Qed.

Lemma single_or_multi (secrets : Secrets) :
  forallb (fun e => (0 <? length (Versions e))%nat) secrets = true →
  spec.single_versioned secrets = negb (spec.some_multi_versioned secrets).
Proof.
  induction secrets as [| e rest IH]; intros Hne; [reflexivity |].
  simpl in Hne. apply andb_true_iff in Hne as [He Hrest].
  unfold spec.single_versioned, spec.some_multi_versioned in *. simpl.
  rewrite (IH Hrest), negb_orb. f_equal.
  destruct (Versions e) as [| v0 [| v1 vs]]; [discriminate | done | done].
Qed.

(** C6.  For a non-empty fetched collection whose entries all have at
    least one version, the export handler hands the legacy flat map to
    the encoder exactly when every entry has one version, and whenever
    some entry has two or more versions it hands over the one-element
    array whose element declares [export_version] 2. *)
Theorem C6_export_format (B : backend) (s : St B) (opt : main.ExportOpts)
    (secrets : Secrets) :
  spec.fetched secrets = true →
  ∃ out s' t,
    run B (main.export_toExport opt secrets) s = (Returned out, s', t)
    ∧ spec.legacy_format out = spec.single_versioned secrets
    ∧ (spec.some_multi_versioned secrets = true →
       spec.versioned_envelope out = true
       ∧ spec.legacy_format out = false).
Proof.
  intros Hf. unfold spec.fetched in Hf.
  apply andb_true_iff in Hf as [Hlen Hne].
  unfold main.export_toExport.
  rewrite (single_or_multi secrets Hne), mustV2Export_multi.
  destruct (spec.some_multi_versioned secrets) eqn:Hmulti.
  - unfold main.v2Export.
    destruct (v2Export_from_runs B opt secrets
                {| main.ExportVersion := 2; main.Data := ∅;
                   main.RequiresVersioning := ∅ |}
                main.toExport_nil s Hne) as (out & s' & t & Hrun & Hout).
    exists out, s', t. split; [exact Hrun |].
    destruct secrets as [| e rest]; [discriminate |].
    destruct Hout as (e0 & -> & He0). simpl. rewrite He0. simpl.
    repeat split; reflexivity.
  - unfold main.v1Export. rewrite run_bind.
    destruct (v1Export_from_runs B secrets ∅ s Hne) as [m Hm]. rewrite Hm.
    simpl. eexists _, _, _. split; [reflexivity |].
    split; [reflexivity | discriminate].
Qed.

End export_format.

Lemma C6_export_format_witness :
  ∃ out s' t,
    run mem.backend
      (main.export_toExport (main.mkExportOpts false true) examples.tree_ab)
      examples.store_345
    = (Returned out, s', t)
    ∧ spec.legacy_format out = spec.single_versioned examples.tree_ab
    ∧ (spec.some_multi_versioned examples.tree_ab = true →
       spec.versioned_envelope out = true
       ∧ spec.legacy_format out = false).
Proof.
  refine (C6_export_format mem.backend examples.store_345
            (main.mkExportOpts false true) examples.tree_ab _).
  reflexivity.
Defined.

(** The single-version tree of the specification's round-trip example is
    exported in the legacy format. *)
Example export_single_version_legacy :
  (mem.exec
     (main.export_toExport (main.mkExportOpts false false)
        (take 1 examples.tree_ab))
     examples.store_345).1
  = Returned
      (main.toExport_legacy {[ "a/b" := mkSecret {[ "k" := "v" ]} ]}).
Proof. vm_compute. reflexivity. Qed.

(** ** Read *)

Section reading.

Context `{HP : Helpers}.

Lemma Read_fill_single (key : string) (val : rawval) :
  key ≠ "" →
  Read_fill key [(key, val)] NewSecret
  = match asString val, json_Marshal val with
    | Some str, _ | None, inl str => (mkSecret {[ key := str ]}, None)
    | None, inr e => (NewSecret, Some e)
    end.
Proof.
  intros Hkey. simpl.
  rewrite (bool_decide_eq_true_2 (key ≠ "")) by exact Hkey.
  rewrite (bool_decide_eq_true_2 (key = key)) by reflexivity. simpl.
  destruct (asString val) as [str |]; [reflexivity |].
  destruct (json_Marshal val) as [str | e]; reflexivity.
Qed.

(** The run of [Read] on a key-qualified address, answer by answer. *)
Lemma Read_key_run (B : backend) (s s1 : St B) (path p key : string)
    (version : N) (raw : gmap string rawval) (err : option error) :
  ParsePath path = (p, key, version) →
  key ≠ "" →
  answer B _ (client_Get p version) s = ((raw, err), s1) →
  run B (Read path) s
  = (Returned
       match err with
       | Some _ =>
           (Some NewSecret,
            if vaultkv_IsNotFound err
            then Some (NewSecretNotFoundError p) else err)
       | None =>
           match raw !! key with
           | None => (None, Some (NewKeyNotFoundError p key))
           | Some val =>
               match asString val, json_Marshal val with
               | Some str, _ | None, inl str =>
                   (Some (mkSecret {[ key := str ]}), None)
               | None, inr e => (Some NewSecret, Some e)
               end
           end
       end,
     s1, [Event (client_Get p version)]).
Proof.
  intros HP1 Hkey Hget. unfold Read. rewrite HP1. simpl. rewrite Hget. simpl.
  destruct err as [e |].
  - destruct (vaultkv_IsNotFound (Some e)); reflexivity.
  - rewrite (bool_decide_eq_true_2 (key ≠ "")) by exact Hkey.
    destruct (raw !! key) as [val |]; [| reflexivity].
    rewrite map_to_list_singleton, (Read_fill_single key val Hkey).
    destruct (asString val) as [str |]; [reflexivity |].
    destruct (json_Marshal val) as [str | e]; reflexivity.
Qed.

(** C9.  [Read] of a key-qualified address issues one [Get].  When the
    snapshot is fetched and lacks the key, the result is a nil secret and
    a KeyNotFound error; whenever [Read] returns without error, the
    returned mapping holds the requested key and no other. *)
Theorem C9_Read_key (B : backend) (s s1 : St B) (path p key : string)
    (version : N) (raw : gmap string rawval) (err : option error) :
  ParsePath path = (p, key, version) →
  key ≠ "" →
  answer B _ (client_Get p version) s = ((raw, err), s1) →
  ∃ secret rerr,
    run B (Read path) s
    = (Returned (secret, rerr), s1, [Event (client_Get p version)])
    ∧ (err = None → raw !! key = None →
       secret = None ∧ rerr = Some (NewKeyNotFoundError p key))
    ∧ (rerr = None →
       ∃ val sec,
         raw !! key = Some val
         ∧ secret = Some sec
         ∧ dom (data sec) = ({[ key ]} : gset string))
    ∧ (err = None → ∀ val str,
         raw !! key = Some val →
         asString val = Some str →
         secret = Some (mkSecret {[ key := str ]}) ∧ rerr = None).
Proof.
  intros HP1 Hkey Hget.
  pose proof (Read_key_run B s s1 path p key version raw err HP1 Hkey Hget)
    as Hrun.
  destruct err as [e |].
  - eexists _, _. split; [exact Hrun |].
    repeat split; try discriminate.
    destruct (vaultkv_IsNotFound (Some e)); discriminate.
  - destruct (raw !! key) as [val |] eqn:Hval.
    + destruct (asString val) as [str |] eqn:Hstr;
        [| destruct (json_Marshal val) as [str | e] eqn:Hm];
        eexists _, _; (split; [exact Hrun |]);
        repeat split; try discriminate; try congruence;
        intros _; eexists val, _; (split; [done |]); (split; [done |]);
        apply dom_singleton_L.
    + eexists _, _. split; [exact Hrun |].
      repeat split; try discriminate; congruence.
Qed.

End reading.

Lemma C9_Read_key_witness :
  ∃ secret rerr,
    run mem.backend (Read "secret/src:a^1") examples.store_src_dst
    = (Returned (secret, rerr), examples.store_src_dst,
       [Event (client_Get "secret/src" 1)])
    ∧ (@None error = None →
       ({[ "a" := helpers.JString "1"; "b" := helpers.JString "2" ]}
          : gmap string helpers.jsonval) !! "a" = None →
       secret = None ∧ rerr = Some (NewKeyNotFoundError "secret/src" "a"))
    ∧ (rerr = None →
       ∃ val sec,
         ({[ "a" := helpers.JString "1"; "b" := helpers.JString "2" ]}
            : gmap string helpers.jsonval) !! "a" = Some val
         ∧ secret = Some sec
         ∧ dom (data sec) = ({[ "a" ]} : gset string))
    ∧ (@None error = None → ∀ val str,
         ({[ "a" := helpers.JString "1"; "b" := helpers.JString "2" ]}
            : gmap string helpers.jsonval) !! "a" = Some val →
         asString val = Some str →
         secret = Some (mkSecret {[ "a" := str ]}) ∧ rerr = None).
Proof.
  refine (C9_Read_key mem.backend examples.store_src_dst
            examples.store_src_dst "secret/src:a^1" "secret/src" "a" 1
            {[ "a" := helpers.JString "1"; "b" := helpers.JString "2" ]}
            None _ _ _).
  - reflexivity.
  - discriminate.
  - reflexivity.
Defined.

(** ** Deleting one key *)

Section key_deletion.

Context `{HP : Helpers}.

Lemma Read_trace (B : backend) (s : St B) (path p key : string) (version : N) :
  ParsePath path = (p, key, version) →
  (run B (Read path) s).2 = [Event (client_Get p version)].
Proof.
  intros HP1. unfold Read. rewrite HP1. simpl.
  destruct (answer B _ (client_Get p version) s) as [[raw err] s1]. simpl.
  destruct err as [e |].
  - destruct (vaultkv_IsNotFound (Some e)); reflexivity.
  - destruct (bool_decide (key ≠ "")); [destruct (raw !! key) |]; simpl;
      try reflexivity;
      match goal with
      | |- context [Read_fill ?k ?l ?x] => destruct (Read_fill k l x)
      end; reflexivity.
Qed.

Lemma run_readonly (B : backend) {A : Type} (m : prog A) (s s1 : St B)
    (o : outcome A) (t : list event) :
  never any_mutation m → run B m s = (o, s1, t) → trace_free any_mutation t.
Proof.
  intros Hm Hrun. pose proof (never_run any_mutation B m s Hm) as H.
  rewrite Hrun in H. exact H.
Qed.

Lemma Write_nonempty_eq (path : string) (sec : Secret) :
  Empty sec = false → Write_nonempty path sec = Write path sec.
Proof.
  intros He. unfold Write_nonempty, Write, Write_body.
  destruct (ParsePath path) as [[p key] version]. rewrite He. reflexivity.
Qed.

(** For an address whose secret path parses to itself, a [Delete] of a
    key-qualified address that has passed state verification and the
    semantic-delete guard reads the latest snapshot of the secret.  When
    the key is absent it returns KeyNotFound and has
    issued no mutating call; when removing the key leaves no key it
    deletes the secret itself and writes nothing; otherwise it writes the
    remaining keys back with one [Set]. *)
Theorem Delete_key_plain_path (B : backend) (s s1 s2 s3 : St B)
    (path secretPath key : string) (version : N) (opts : DeleteOpts)
    (secret : Secret) (t1 t2 t3 : list event) :
  PathHasKey (Canonicalize path) = true →
  ParsePath (Canonicalize path) = (secretPath, key, version) →
  ParsePath secretPath = (secretPath, "", 0) →
  run B (verifySecretState (Canonicalize path)
           (mkVerifyOpts (All opts)
              (if Destroy opts then verifyStateAliveOrDeleted
               else verifyStateAlive))) s
  = (Returned None, s1, t1) →
  run B (canSemanticallyDelete (Canonicalize path)) s1
  = (Returned None, s2, t2) →
  run B (Read secretPath) s2 = (Returned (Some secret, None), s3, t3) →
  let remaining := delete key (data secret) in
  run B (Delete path opts) s
  = match data secret !! key with
    | None =>
        (Returned (Some (NewKeyNotFoundError secretPath key)), s3,
         t1 ++ t2 ++ t3)
    | Some _ =>
        if bool_decide (remaining = ∅) then
          let c := client_Delete secretPath [] true in
          (Returned (answer B _ c s3).1, (answer B _ c s3).2,
           t1 ++ t2 ++ t3 ++ [Event c])
        else
          let c := client_Set secretPath remaining in
          let err := (answer B _ c s3).1 in
          (Returned (if vaultkv_IsNotFound err
                     then Some (NewSecretNotFoundError secretPath) else err),
           (answer B _ c s3).2,
           t1 ++ t2 ++ t3 ++ [Event c])
    end
  ∧ trace_free any_mutation (t1 ++ t2 ++ t3)
  ∧ t3 = [Event (client_Get secretPath 0)].
Proof.
  intros Hhas HP1 Hbare Hverify Hguard Hread remaining.
  split; [| split].
  - unfold Delete.
    rewrite (run_bind_Returned B _ _ _ _ _ _ Hverify).
    rewrite (run_bind_Returned B _ _ _ _ _ _ Hguard).
    rewrite Hhas. cbn [negb]. unfold deleteSpecificKey. rewrite HP1.
    rewrite (run_bind_Returned B _ _ _ _ _ _ Hread).
    unfold Secret_Delete. destruct (data secret !! key) as [val |].
    + cbn [negb]. unfold Empty. cbn [data]. fold remaining.
      destruct (bool_decide (remaining = ∅)) eqn:Hemp.
      * unfold deleteEntireSecret. rewrite Hbare. simpl.
        rewrite !app_assoc. reflexivity.
      * unfold Write_nonempty, Write_body. rewrite Hbare.
        change (Empty {| data := remaining |})
          with (bool_decide (remaining = ∅)).
        rewrite Hemp. simpl.
        destruct (vaultkv_IsNotFound _); reflexivity.
    + simpl. rewrite !app_nil_r, !app_assoc. reflexivity.
  - apply trace_free_app;
      [exact (run_readonly B _ _ _ _ _ (verifySecretState_readonly _ _) Hverify) |].
    apply trace_free_app;
      [exact (run_readonly B _ _ _ _ _ (canSemanticallyDelete_readonly _) Hguard) |].
    exact (run_readonly B _ _ _ _ _ (Read_readonly _) Hread).
  - pose proof (Read_trace B s2 secretPath secretPath "" 0 Hbare) as Ht.
    rewrite Hread in Ht. exact Ht.
Qed.

End key_deletion.

Lemma Delete_key_plain_path_witness :
  let s := examples.store_src_dst in
  let verified :=
    [Event (client_MountVersion "secret/src");
     Event (client_Versions "secret/src")] in
  let fetched := [Event (client_Get "secret/src" 0)] in
  let c := client_Set "secret/src" {[ "b" := "4" ]} in
  run mem.backend (Delete "secret/src:a" (mkDeleteOpts false false)) s
  = (Returned None, (answer mem.backend _ c s).2,
     verified ++ [] ++ fetched ++ [Event c])
  ∧ trace_free any_mutation (verified ++ [] ++ fetched)
  ∧ fetched = [Event (client_Get "secret/src" 0)].
Proof.
  intros s verified fetched c.
  refine (Delete_key_plain_path mem.backend s s s s "secret/src:a" "secret/src" "a" 0
            (mkDeleteOpts false false)
            (mkSecret {[ "a" := "3"; "b" := "4" ]})
            verified [] fetched _ _ _ _ _ _);
    reflexivity.
Defined.

(** ** Write *)

Section writing.

Context `{HP : Helpers}.

Lemma deleteEntireSecret_no_Set (path : string) (destroy all : bool) :
  never any_Set (deleteEntireSecret path destroy all).
Proof.
  unfold deleteEntireSecret. destruct (ParsePath path) as [[secret key] version].
  destruct (destroy && all); [apply never_perform; reflexivity |].
  destruct destroy.
  - apply never_bind;
      [apply (never_weaken any_mutation _ _ any_mutation_Set),
         Vault_Versions_readonly |].
    intros [allVersions err]. destruct err; [constructor |].
    destruct (if bool_decide _ then _ else _); [| constructor].
    destruct (shouldNuke_from _ _ _); apply never_perform; reflexivity.
  - destruct all; [| apply never_perform; reflexivity].
    apply never_bind;
      [apply (never_weaken any_mutation _ _ any_mutation_Set),
         Vault_Versions_readonly |].
    intros [allVersions err]. destruct err; [constructor |].
    apply never_perform; reflexivity.
Qed.

Lemma Delete_no_Set (path : string) (opts : DeleteOpts) :
  PathHasKey (Canonicalize path) = false →
  never any_Set (Delete path opts).
Proof.
  intros Hk. unfold Delete.
  apply never_bind;
    [apply (never_weaken any_mutation _ _ any_mutation_Set),
       verifySecretState_readonly |].
  intros [e |]; [constructor |].
  apply never_bind;
    [apply (never_weaken any_mutation _ _ any_mutation_Set),
       canSemanticallyDelete_readonly |].
  intros [e |]; [constructor |].
  rewrite Hk. apply deleteEntireSecret_no_Set.
Qed.

Lemma deleteIfPresent_no_Set (path : string) (opts : DeleteOpts) :
  PathHasKey (Canonicalize path) = false →
  never any_Set (deleteIfPresent path opts).
Proof.
  intros Hk. unfold deleteIfPresent.
  destruct (ParsePath path) as [[secretpath key] version].
  apply never_bind;
    [apply (never_weaken any_mutation _ _ any_mutation_Set), Read_readonly |].
  intros [sec err]. destruct err as [e |].
  - destruct (IsSecretNotFound _); constructor.
  - apply never_bind; [apply Delete_no_Set, Hk |].
    intros err. destruct (IsKeyNotFound err); constructor.
Qed.

Lemma Read_not_found (B : backend) (s s1 : St B) (path p key : string)
    (version : N) (raw : gmap string rawval) (msg : string) :
  ParsePath path = (p, key, version) →
  answer B _ (client_Get p version) s = ((raw, Some (kvNotFound msg)), s1) →
  run B (Read path) s
  = (Returned (Some NewSecret, Some (NewSecretNotFoundError p)), s1,
     [Event (client_Get p version)]).
Proof.
  intros HP1 Hget. unfold Read. rewrite HP1.
  rewrite (run_bind_Returned B _ _ s s1 (raw, Some (kvNotFound msg))
             [Event (client_Get p version)]).
  - reflexivity.
  - rewrite run_perform, Hget. reflexivity.
Qed.

(** [Write] refuses a key-qualified and a version-qualified path
    with an error and without any call.  For an empty secret and a bare
    path it never issues a [Set]; it returns success after the one [Get]
    that finds nothing there; and when a secret is there and passes state
    verification, it issues the [Delete] of that path. *)
Theorem Write_plain_path (B : backend) (s : St B) (path p key : string)
    (version : N) (sec : Secret) :
  ParsePath path = (p, key, version) →
  (key ≠ "" ∨ version ≠ 0 →
   ∃ e, run B (Write path sec) s = (Returned (Some e), s, []))
  ∧ (key = "" → version = 0 → Empty sec = true → spec.bare p →
     trace_free any_Set (run B (Write path sec) s).2
     ∧ (∀ raw msg s1,
          answer B _ (client_Get p 0) s = ((raw, Some (kvNotFound msg)), s1) →
          run B (Write path sec) s
          = (Returned None, s1, [Event (client_Get p 0)]))
     ∧ (∀ found s1 t1 s2 t2,
          run B (Read p) s = (Returned (found, None), s1, t1) →
          run B (verifySecretState p (mkVerifyOpts false verifyStateAlive)) s1
          = (Returned None, s2, t2) →
          let c := client_Delete p [] true in
          let err := (answer B _ c s2).1 in
          run B (Write path sec) s
          = (Returned (if IsKeyNotFound err then None else err),
             (answer B _ c s2).2, t1 ++ t2 ++ [Event c]))).
Proof.
  intros HP1. split.
  - intros Hq. unfold Write, Write_body. rewrite HP1.
    destruct (decide (key = "")) as [-> | Hkey].
    + destruct Hq as [Hq | Hv]; [done |].
      rewrite (bool_decide_eq_false_2 ("" ≠ "")) by (intros Hc; apply Hc; done).
      rewrite (bool_decide_eq_true_2 (version ≠ 0)) by exact Hv.
      eexists. reflexivity.
    + rewrite (bool_decide_eq_true_2 (key ≠ "")) by exact Hkey.
      eexists. reflexivity.
  - intros -> -> Hempty (Hparse & Hcanon & Hnokey).
    assert (HW : Write path sec = deleteIfPresent p (mkDeleteOpts false false)).
    { unfold Write, Write_body. rewrite HP1, Hempty. reflexivity. }
    rewrite HW. split; [| split].
    + apply never_run, deleteIfPresent_no_Set. rewrite Hcanon. exact Hnokey.
    + intros raw msg s1 Hget. unfold deleteIfPresent. rewrite Hparse.
      rewrite (run_bind_Returned B _ _ _ _ _ _
                 (Read_not_found B s s1 p p "" 0 raw msg Hparse Hget)).
      reflexivity.
    + intros found s1 t1 s2 t2 Hread Hverify c err.
      unfold deleteIfPresent. rewrite Hparse.
      rewrite (run_bind_Returned B _ _ _ _ _ _ Hread). cbn [IsSecretNotFound].
      unfold Delete. rewrite Hcanon. cbn [Destroy All].
      rewrite !run_bind.
      rewrite Hverify. unfold canSemanticallyDelete. rewrite Hparse.
      simpl. rewrite Hnokey. simpl.
      unfold deleteEntireSecret. rewrite Hparse. simpl.
      subst err c. destruct (IsKeyNotFound _); simpl;
        rewrite app_nil_r; reflexivity.
Qed.

End writing.

Lemma Write_plain_path_witness :
  let s := examples.store_src_dst in
  let path := "secret/dst" in
  let sec := NewSecret in
  ("" ≠ "" ∨ 0 ≠ 0 →
   ∃ e, run mem.backend (Write path sec) s = (Returned (Some e), s, []))
  ∧ ("" = "" → 0 = 0 → Empty sec = true → spec.bare "secret/dst" →
     trace_free any_Set (run mem.backend (Write path sec) s).2
     ∧ (∀ raw msg s1,
          answer mem.backend _ (client_Get "secret/dst" 0) s
          = ((raw, Some (kvNotFound msg)), s1) →
          run mem.backend (Write path sec) s
          = (Returned None, s1, [Event (client_Get "secret/dst" 0)]))
     ∧ (∀ found s1 t1 s2 t2,
          run mem.backend (Read "secret/dst") s
          = (Returned (found, None), s1, t1) →
          run mem.backend
            (verifySecretState "secret/dst"
               (mkVerifyOpts false verifyStateAlive)) s1
          = (Returned None, s2, t2) →
          let c := client_Delete "secret/dst" [] true in
          let err := (answer mem.backend _ c s2).1 in
          run mem.backend (Write path sec) s
          = (Returned (if IsKeyNotFound err then None else err),
             (answer mem.backend _ c s2).2, t1 ++ t2 ++ [Event c]))).
Proof.
  intros s path sec.
  refine (Write_plain_path mem.backend s path "secret/dst" "" 0 sec _).
  reflexivity.
Defined.

(** Writing an empty secret over an existing one deletes it; writing it
    where nothing is stored only looks. *)
Example Write_empty_runs :
  mem.exec (Write "secret/dst" NewSecret) examples.store_src_dst
  = (Returned None,
     [Event (client_Get "secret/dst" 0);
      Event (client_MountVersion "secret/dst");
      Event (client_Versions "secret/dst");
      Event (client_Delete "secret/dst" [] true)])
  ∧ mem.exec (Write "secret/none" NewSecret) examples.store_src_dst
    = (Returned None, [Event (client_Get "secret/none" 0)])
  ∧ spec.bare "secret/dst".
Proof. repeat split. Qed.

(** ** MoveCopyTree with skipIfExists *)

Section tree_skip.

Context `{HP : Helpers}.

Lemma Stderr_each_runs (B : backend) (lines : list string) :
  ∀ s : St B, ∃ s',
    run B (Stderr_each lines) s
    = (Returned tt, s', (fun l => Event (Stderr l)) <$> lines).
Proof.
  induction lines as [| l rest IH]; intros s.
  - simpl. eauto.
  - destruct (IH (answer B unit (Stderr l) s).2) as [s' Hs'].
    cbn [Stderr_each]. rewrite run_bind, run_perform. cbn [fst snd].
    rewrite Hs'. eauto.
Qed.

Lemma stderr_events_free (lines : list string) :
  trace_free any_mutation ((fun l => Event (Stderr l)) <$> lines).
Proof.
  induction lines as [| l rest IH]; [constructor |].
  constructor; [reflexivity | exact IH].
Qed.

Lemma stderr_of_events (lines : list string) :
  spec.stderr_of ((fun l => Event (Stderr l)) <$> lines) = lines.
Proof.
  induction lines as [| l rest IH]; [reflexivity |].
  unfold spec.stderr_of in *. rewrite fmap_cons, bind_cons, IH. reflexivity.
Qed.

(** C8, as the engine has it.  [MoveCopyTree] with [SkipIfExists] lists
    the source tree and the destination tree, computes the destination of
    every listed source path and keeps those that exist.  When at least
    one exists it returns success; its calls are the two listings and,
    unless [Quiet] is set, the heading and one line for every colliding
    path on standard error.  The per-leaf operation [f] is not run,
    whatever it is, and no mutating call is issued.  With [Quiet] nothing
    is printed. *)
Theorem C8_MoveCopyTree_skip (B : backend) (s s1 s2 : St B)
    (oldRoot newRoot : string)
    (f : string → string → MoveCopyOpts → prog (option error))
    (opts : MoveCopyOpts) (tree newTree : Secrets) (err : option error) :
  SkipIfExists opts = true →
  answer B _ (ConstructSecrets (Canonicalize oldRoot)
                (spec.listing (Deep opts))) s
  = ((tree, None), s1) →
  answer B _ (ConstructSecrets (Canonicalize newRoot)
                (spec.listing (negb (Deep opts)))) s1
  = ((newTree, err), s2) →
  err = None ∨ IsNotFound err = true →
  existingPaths (Canonicalize oldRoot) (Canonicalize newRoot) tree newTree
  ≠ [] →
  let printed :=
    if Quiet opts then []
    else spec.advisory (Canonicalize newRoot)
           (existingPaths (Canonicalize oldRoot) (Canonicalize newRoot)
              tree newTree) in
  let t :=
    Event (ConstructSecrets (Canonicalize oldRoot) (spec.listing (Deep opts)))
    :: Event (ConstructSecrets (Canonicalize newRoot)
                (spec.listing (negb (Deep opts))))
    :: ((fun l => Event (Stderr l)) <$> printed) in
  (∃ s3, run B (MoveCopyTree oldRoot newRoot f opts) s = (Returned None, s3, t))
  ∧ trace_free any_mutation t
  ∧ spec.stderr_of t = printed.
Proof.
  intros Hskip Hold Hnew Herr Hcoll printed t.
  split; [| split].
  - unfold MoveCopyTree.
    rewrite (run_bind_Returned B _ _ s s1 (tree, None)
               [Event (ConstructSecrets (Canonicalize oldRoot)
                         (spec.listing (Deep opts)))])
      by (rewrite run_perform; unfold spec.listing in Hold; rewrite Hold;
          reflexivity).
    cbn iota beta. unfold MoveCopyTree_skip. rewrite Hskip.
    rewrite !run_bind. rewrite run_perform.
    unfold spec.listing in Hnew. rewrite Hnew. cbn [fst snd].
    assert (Hpass : bool_decide (err ≠ None) && negb (IsNotFound err) = false).
    { destruct Herr as [-> | ->]; [reflexivity | apply andb_false_r]. }
    rewrite Hpass. subst t printed.
    set (colliding :=
           existingPaths (Canonicalize oldRoot) (Canonicalize newRoot)
             tree newTree) in *.
    destruct colliding as [| c0 cs] eqn:Hc; [done |].
    cbn [length Nat.ltb Nat.leb].
    destruct (Quiet opts); cbn [negb].
    + rewrite run_bind. simpl. eauto.
    + rewrite !run_bind, run_perform. cbn [fst snd].
      match goal with
      | |- context [run B (Stderr_each ?ls) ?st] =>
          destruct (Stderr_each_runs B ls st) as [s3 Hs3]; rewrite Hs3
      end.
      cbn [run]. rewrite !app_nil_r. eauto.
  - subst t. constructor; [reflexivity |]. constructor; [reflexivity |].
    apply stderr_events_free.
  - subst t. unfold spec.stderr_of. rewrite !bind_cons.
    apply stderr_of_events.
Qed.

End tree_skip.

Lemma C8_MoveCopyTree_skip_witness :
  let opts := mkMoveCopyOpts true false false false in
  let printed :=
    spec.advisory (Canonicalize "b")
      (existingPaths (Canonicalize "a") (Canonicalize "b")
         examples.tree_a examples.tree_b) in
  let t :=
    Event (ConstructSecrets (Canonicalize "a") (spec.listing false))
    :: Event (ConstructSecrets (Canonicalize "b") (spec.listing true))
    :: ((fun l => Event (Stderr l)) <$> printed) in
  (∃ s3,
     run mem.backend (MoveCopyTree "a" "b" Copy opts) examples.store_tree
     = (Returned None, s3, t))
  ∧ trace_free any_mutation t
  ∧ spec.stderr_of t = printed.
Proof.
  intros opts.
  refine (C8_MoveCopyTree_skip mem.backend examples.store_tree
            examples.store_tree examples.store_tree "a" "b" Copy opts
            examples.tree_a examples.tree_b None _ _ _ _ _).
  - reflexivity.
  - reflexivity.
  - reflexivity.
  - left. reflexivity.
  - discriminate.
Defined.

(** With [Quiet] set, a colliding destination is found and the tree is
    left alone, but nothing is reported. *)
Lemma C8_quiet_reports_nothing :
  let opts := mkMoveCopyOpts true true false false in
  existingPaths "a" "b" examples.tree_a examples.tree_b = ["b/x"]
  ∧ mem.exec (MoveCopyTree "a" "b" Copy opts) examples.store_tree
    = (Returned None,
       [Event (ConstructSecrets "a" (spec.listing false));
        Event (ConstructSecrets "b" (spec.listing true))])
  ∧ spec.stderr_of
      (mem.exec (MoveCopyTree "a" "b" Copy opts) examples.store_tree).2
    = [].
Proof. repeat split. Qed.

(** ** Copy and Move *)

Section copy_move.

Context `{HP : Helpers}.

(** The [skipIfExists] block of [Copy], when the destination is there:
    [Copy] returns success after the verification of the source and the
    read of the destination, and has issued no mutating call. *)
Lemma Copy_skip_existing (B : backend) (s s1 s2 : St B)
    (oldpath newpath : string) (opts : MoveCopyOpts)
    (found : option Secret) (t1 t2 : list event) :
  SkipIfExists opts = true →
  DeletedVersions opts && negb (Deep opts) = false →
  run B (verifySecretState (Canonicalize oldpath)
           (mkVerifyOpts (Deep opts)
              (if DeletedVersions opts then verifyStateAliveOrDeleted
               else verifyStateAlive))) s
  = (Returned None, s1, t1) →
  run B (Read (Canonicalize newpath)) s1 = (Returned (found, None), s2, t2) →
  ∃ s3 t3,
    run B (Copy oldpath newpath opts) s = (Returned None, s3, t1 ++ t2 ++ t3)
    ∧ trace_free any_mutation (t1 ++ t2 ++ t3).
Proof.
  intros Hskip Hpanic Hverify Hread. unfold Copy. rewrite Hpanic.
  rewrite (run_bind_Returned B _ _ _ _ _ _ Hverify). cbn iota beta.
  unfold Copy_skip. rewrite Hskip.
  rewrite !run_bind, Hread. cbn iota beta.
  destruct (Quiet opts); cbn [negb].
  - simpl. rewrite !app_nil_r. eexists _, []. rewrite !app_nil_r.
    split; [reflexivity |].
    apply trace_free_app;
      [exact (run_readonly B _ _ _ _ _ (verifySecretState_readonly _ _) Hverify) |].
    exact (run_readonly B _ _ _ _ _ (Read_readonly _) Hread).
  - simpl. rewrite !app_nil_r.
    eexists _, [_]. split; [reflexivity |].
    apply trace_free_app;
      [exact (run_readonly B _ _ _ _ _ (verifySecretState_readonly _ _) Hverify) |].
    apply trace_free_app;
      [exact (run_readonly B _ _ _ _ _ (Read_readonly _) Hread) |].
    constructor; [reflexivity | constructor].
Qed.

(** What [Move] does after a [Copy] that returned success, whether the
    copy wrote anything or skipped: it goes on to remove the source. *)
Lemma Move_after_Copy (B : backend) (s s1 s2 : St B)
    (oldpath newpath : string) (opts : MoveCopyOpts) (t1 t2 : list event) :
  run B (canSemanticallyDelete (Canonicalize oldpath)) s
  = (Returned None, s1, t1) →
  run B (Copy (Canonicalize oldpath) (Canonicalize newpath) opts) s1
  = (Returned None, s2, t2) →
  run B (Move oldpath newpath opts) s
  = if Deep opts && DeletedVersions opts then
      let c := client_DestroyAll (Canonicalize oldpath) in
      (Returned None, (answer B _ c s2).2, t1 ++ t2 ++ [Event c])
    else
      let '(o, s3, t3) :=
        run B (Delete (Canonicalize oldpath) (mkDeleteOpts false false)) s2 in
      (o, s3, t1 ++ t2 ++ t3).
Proof.
  intros Hguard Hcopy. unfold Move.
  rewrite (run_bind_Returned B _ _ _ _ _ _ Hguard).
  rewrite (run_bind_Returned B _ _ _ _ _ _ Hcopy).
  destruct (Deep opts && DeletedVersions opts).
  - rewrite run_bind, run_perform. reflexivity.
  - rewrite run_bind.
    destruct (run B (Delete (Canonicalize oldpath) (mkDeleteOpts false false)) s2)
      as [[[[e |] | msg] s3] t3]; simpl; rewrite ?app_nil_r; reflexivity.
Qed.

(** The secret that [Read] returns for a key-qualified address always
    passes the test of [canSemanticallyDelete]: it has one key, the
    requested one. *)
Lemma Read_key_isolated (B : backend) (s s1 : St B) (path p key : string)
    (version : N) (sec : Secret) (t : list event) :
  ParsePath path = (p, key, version) →
  key ≠ "" →
  run B (Read path) s = (Returned (Some sec, None), s1, t) →
  size (data sec) = 1%nat ∧ Has sec key = true.
Proof.
  intros HP1 Hkey Hread.
  destruct (answer B _ (client_Get p version) s) as [[raw err] s'] eqn:Hget.
  rewrite (Read_key_run B s s' path p key version raw err HP1 Hkey Hget)
    in Hread.
  assert (Hsec : ∃ str, sec = mkSecret {[ key := str ]}).
  { destruct err as [e |];
      [destruct (vaultkv_IsNotFound (Some e)); inversion Hread |].
    destruct (raw !! key) as [val |]; [| inversion Hread].
    destruct (asString val) as [str |];
      [| destruct (json_Marshal val) as [str | e]];
      inversion Hread; eauto. }
  destruct Hsec as [str ->]. split.
  - apply map_size_singleton.
  - unfold Has. apply bool_decide_eq_true_2. cbn [data].
    rewrite lookup_singleton_eq. eauto.
Qed.

(** Hence the guard lets every key-qualified address through once the
    records are listed and the address is read, whatever the snapshot at
    that version holds: its own refusal is out of reach. *)
Lemma canSemanticallyDelete_passes (B : backend) (s s1 s2 : St B)
    (path p key : string) (version : N) (versions : list KVVersion)
    (sec : Secret) (t1 t2 : list event) :
  ParsePath path = (p, key, version) →
  key ≠ "" →
  versions ≠ [] →
  run B (Vault_Versions p) s = (Returned (versions, None), s1, t1) →
  run B (Read path) s1 = (Returned (Some sec, None), s2, t2) →
  ∃ s' t, run B (canSemanticallyDelete path) s = (Returned None, s', t).
Proof.
  intros HP1 Hkey Hne Hvers Hread. unfold canSemanticallyDelete. rewrite HP1.
  rewrite (bool_decide_eq_false_2 (key = "")) by exact Hkey. cbn [orb].
  destruct (bool_decide (version = 0)); [simpl; eauto |].
  rewrite (run_bind_Returned B _ _ _ _ _ _ Hvers). cbn iota beta.
  rewrite last_version_last.
  destruct (last versions) as [newest |] eqn:Hlast;
    [| apply last_None in Hlast; contradiction].
  destruct (bool_decide (Version newest = version));
    [simpl; rewrite app_nil_r; eauto |].
  rewrite (run_bind_Returned B _ _ _ _ _ _ Hread). cbn iota beta.
  destruct (Read_key_isolated B s1 s2 path p key version sec t2 HP1 Hkey Hread)
    as [Hsize Hhas].
  rewrite Hhas, (bool_decide_eq_false_2 (size (data sec) ≠ 1%nat))
    by (intros Hc; apply Hc; exact Hsize).
  simpl. eauto.
Qed.

End copy_move.

(** C1, at the input where the engine departs from it.  [Move] with
    [SkipIfExists] onto a destination that exists: the copy is skipped and
    no call touches the destination, yet [Move] goes on, soft-deletes the
    latest version of the source and returns success. *)
Theorem C1_Move_skip_removes_source :
  let opts := mkMoveCopyOpts true false false false in
  let s := examples.store_src_dst in
  let r := run mem.backend (Move "secret/src" "secret/dst" opts) s in
  r.1.1 = Returned None
  ∧ r.2
    = [Event (client_MountVersion "secret/src");
       Event (client_Versions "secret/src");
       Event (client_Get "secret/dst" 0);
       Event (Stderr
         ("@R{Cowardly refusing to copy/move data into} @C{secret/dst}"
          ++ "@R{, as that would clobber existing data}" ++ nl)%string);
       Event (client_MountVersion "secret/src");
       Event (client_Versions "secret/src");
       Event (client_Delete "secret/src" [] true)]
  ∧ existsb (is_mutation_of "secret/dst") r.2 = false
  ∧ existsb (is_mutation_of "secret/src") r.2 = true
  ∧ mem.secrets r.1.2 !! "secret/dst" = mem.secrets s !! "secret/dst"
  ∧ mem.deleted <$> (mem.secrets s !! "secret/src" ≫= last) = Some false
  ∧ mem.deleted <$> (mem.secrets r.1.2 !! "secret/src" ≫= last) = Some true.
Proof. repeat split. Qed.

(** C2, at the input where the engine departs from it.  Version 1 of the
    secret holds two keys and is not the latest version.  The guard reads
    the address with its key, so the secret it tests has that one key: it
    lets the deletion through, and [Delete] removes the key from the
    latest snapshot and writes the rest back. *)
Theorem C2_Delete_key_of_old_version :
  let s := examples.store_src_dst in
  let path := "secret/src:a^1" in
  ParsePath path = ("secret/src", "a", 1)
  ∧ (answer mem.backend _ (client_Versions "secret/src") s).1
    = ([mkKVVersion 1 false false; mkKVVersion 2 false false], None)
  ∧ (answer mem.backend _ (client_Get "secret/src" 1) s).1
    = ({[ "a" := helpers.JString "1"; "b" := helpers.JString "2" ]}, None)
  ∧ mem.exec (canSemanticallyDelete path) s
    = (Returned None,
       [Event (client_Versions "secret/src");
        Event (client_Get "secret/src" 1)])
  ∧ mem.exec (Delete path (mkDeleteOpts false false)) s
    = (Returned None,
       [Event (client_MountVersion "secret/src");
        Event (client_Versions "secret/src");
        Event (client_Versions "secret/src");
        Event (client_Get "secret/src" 1);
        Event (client_Get "secret/src" 0);
        Event (client_Set "secret/src" {[ "b" := "4" ]})])
  ∧ mem.exec (Move path "secret/new:a" (mkMoveCopyOpts false false false false))
      s
    = (Returned None,
       [Event (client_Versions "secret/src");
        Event (client_Get "secret/src" 1);
        Event (client_MountVersion "secret/src");
        Event (client_Versions "secret/src");
        Event (client_Get "secret/src" 1);
        Event (client_Get "secret/new" 0);
        Event (client_Set "secret/new" {[ "a" := "1" ]});
        Event (client_MountVersion "secret/src");
        Event (client_Versions "secret/src");
        Event (client_Versions "secret/src");
        Event (client_Get "secret/src" 1);
        Event (client_Get "secret/src" 0);
        Event (client_Set "secret/src" {[ "b" := "4" ]})]).
Proof. repeat split. Qed.

(** C5, at the input where the engine departs from it.  [Move] with
    [Deep] and [DeletedVersions]: after the copy the source is removed
    with [DestroyAll].  The backend refuses that call with an error, the
    source stays where it was, and [Move] returns success. *)
Theorem C5_Move_deep_drops_DestroyAll_error :
  let opts := mkMoveCopyOpts false false true true in
  let s := examples.store_src_denied in
  let copied := (run mem.backend (Copy "secret/src" "secret/new" opts) s).1 in
  let r := run mem.backend (Move "secret/src" "secret/new" opts) s in
  copied.1 = Returned None
  ∧ (answer mem.backend _ (client_DestroyAll "secret/src") copied.2).1
    = Some (kvError "403 permission denied")
  ∧ r.1 = (Returned None, copied.2)
  ∧ last r.2 = Some (Event (client_DestroyAll "secret/src"))
  ∧ existsb (fun e => match e with
                      | Event (client_Delete _ _ _) => true
                      | _ => false
                      end) r.2 = false
  ∧ mem.secrets r.1.2 !! "secret/src" = mem.secrets s !! "secret/src".
Proof. repeat split. Qed.

(** C7, at an input where the engine departs from it.  The address names
    the key [oo] of the secret [secret/f:oo], with the colon of the path
    escaped, and that secret passes state verification.
    [deleteSpecificKey] hands the path it has parsed, now without the
    escape, to [Read], which parses it once more and reads the key [oo]
    of the secret [secret/f]; with that key removed nothing is left of
    what was read, and the secret [secret/f] is deleted.  The key that the
    address names is still there. *)
Theorem C7_Delete_key_escaped_path :
  let s := examples.store_escaped in
  let path := "secret/f\:oo:oo" in
  let r := run mem.backend (Delete path (mkDeleteOpts false false)) s in
  ParsePath path = ("secret/f:oo", "oo", 0)
  ∧ ParsePath "secret/f:oo" = ("secret/f", "oo", 0)
  ∧ mem.exec (verifySecretState path (mkVerifyOpts false verifyStateAlive)) s
    = (Returned None,
       [Event (client_MountVersion "secret/f:oo");
        Event (client_Versions "secret/f:oo")])
  ∧ (mem.exec (Read "secret/f\:oo") s).1
    = Returned (Some (mkSecret {[ "oo" := "1"; "k" := "2" ]}), None)
  ∧ r.1.1 = Returned None
  ∧ r.2
    = [Event (client_MountVersion "secret/f:oo");
       Event (client_Versions "secret/f:oo");
       Event (client_Get "secret/f" 0);
       Event (client_Delete "secret/f" [] true)]
  ∧ existsb (is_mutation_of "secret/f:oo") r.2 = false
  ∧ mem.secrets r.1.2 !! "secret/f:oo" = mem.secrets s !! "secret/f:oo"
  ∧ mem.deleted <$> (mem.secrets s !! "secret/f" ≫= last) = Some false
  ∧ mem.deleted <$> (mem.secrets r.1.2 !! "secret/f" ≫= last) = Some true.
Proof. repeat split. Qed.

(** C10, at an input where the engine departs from it.  An empty secret
    is written to the path [secret/f:oo], its colon escaped; a secret is
    there.  [Write] hands the path it has parsed, now without the escape,
    to [deleteIfPresent], and every function from there on parses it
    again, as the key [oo] of the secret [secret/f]: that key is removed
    from [secret/f] and the rest is written back with a [Set].  The secret
    at the path is not deleted. *)
Theorem C10_Write_empty_escaped_path :
  let s := examples.store_escaped in
  let path := "secret/f\:oo" in
  let r := run mem.backend (Write path NewSecret) s in
  Empty NewSecret = true
  ∧ ParsePath path = ("secret/f:oo", "", 0)
  ∧ (mem.exec (Read path) s).1
    = Returned (Some (mkSecret {[ "oo" := "1"; "k" := "2" ]}), None)
  ∧ r.1.1 = Returned None
  ∧ r.2
    = [Event (client_Get "secret/f" 0);
       Event (client_MountVersion "secret/f");
       Event (client_Versions "secret/f");
       Event (client_Get "secret/f" 0);
       Event (client_Set "secret/f" {[ "z" := "y" ]})]
  ∧ existsb (is_mutation_of "secret/f:oo") r.2 = false
  ∧ mem.secrets r.1.2 !! "secret/f:oo" = mem.secrets s !! "secret/f:oo"
  ∧ (mem.exec (Read "secret/f") r.1.2).1
    = Returned (Some (mkSecret {[ "z" := "y" ]}), None).
Proof. repeat split. Qed.

(** * Further properties of the engine *)

(** ** The verifier on its other paths *)

Section verifier_more.

Context `{HP : Helpers}.

(** With [AnyVersion], on a v2 mount, verification succeeds exactly when
    some retained record meets the required state; an empty list of
    records fails like a list without such a record. *)
Theorem verifySecretState_any_version (B : backend) (s s1 s2 : St B)
    (path secret key : string) (version : N) (required : verifyState)
    (versions : list KVVersion) :
  ParsePath path = (secret, key, version) →
  answer B _ (client_MountVersion (Canonicalize secret)) s = ((2, None), s1) →
  answer B _ (client_Versions (Canonicalize secret)) s1
  = ((versions, None), s2) →
  run B (verifySecretState path (mkVerifyOpts true required)) s
  = (Returned
       (if existsb (spec.satisfies required) versions then None
        else Some (spec.no_version_error path required)),
     s2,
     [Event (client_MountVersion (Canonicalize secret));
      Event (client_Versions (Canonicalize secret))]).
Proof.
  intros HP1 Hmount Hvers.
  unfold verifySecretState, MountVersion, Vault_Versions. rewrite HP1.
  simpl. rewrite Hmount. simpl. rewrite Hvers. simpl.
  assert (Hsat : existsb
            (fun v => negb (Deleted v || Destroyed v)
                      || bool_decide (required = verifyStateAliveOrDeleted)
                         && negb (Destroyed v)) versions
          = existsb (spec.satisfies required) versions).
  { clear. induction versions as [| v rest IH]; [reflexivity |].
    simpl. rewrite IH. f_equal. unfold spec.satisfies.
    destruct required, (Deleted v), (Destroyed v); reflexivity. }
  rewrite Hsat. clear Hsat.
  destruct (existsb (spec.satisfies required) versions); [reflexivity |].
  destruct required; reflexivity.
Qed.

(** A mount version that is neither 1 nor 2 is refused after the one
    call that asked for it, and an error of that call is handed back as
    it is. *)
Theorem verifySecretState_mount (B : backend) (s s1 : St B)
    (path secret key : string) (version mountV : N) (err : option error)
    (opts : verifyOpts) :
  ParsePath path = (secret, key, version) →
  answer B _ (client_MountVersion (Canonicalize secret)) s
  = ((mountV, err), s1) →
  err ≠ None ∨ (mountV ≠ 1 ∧ mountV ≠ 2) →
  run B (verifySecretState path opts) s
  = (Returned
       (match err with
        | Some _ => err
        | None =>
            Some (errorString
              ("Unsupported mount version: " ++ pretty mountV)%string)
        end),
     s1, [Event (client_MountVersion (Canonicalize secret))]).
Proof.
  intros HP1 Hmount Hcase.
  unfold verifySecretState, MountVersion. rewrite HP1.
  simpl. rewrite Hmount. simpl.
  destruct err as [e |]; [reflexivity |].
  destruct Hcase as [Hc | [H1 H2]]; [done |].
  apply N.eqb_neq in H1, H2. rewrite H1, H2. reflexivity.
Qed.

(** On a v2 mount, when the records of the path are not found, a path
    that can be listed is reported as a folder, by an error that is not a
    not-found error; a path that cannot be listed either is reported as a
    missing secret; any other error of the listing is handed back. *)
Theorem verifySecretState_missing (B : backend) (s s1 s2 s3 : St B)
    (path secret key msg : string) (version : N) (opts : verifyOpts)
    (versions : list KVVersion) (children : list string)
    (lerr : option error) :
  ParsePath path = (secret, key, version) →
  answer B _ (client_MountVersion (Canonicalize secret)) s = ((2, None), s1) →
  answer B _ (client_Versions (Canonicalize secret)) s1
  = ((versions, Some (kvNotFound msg)), s2) →
  answer B _ (client_List (Canonicalize (Canonicalize path))) s2
  = ((children, lerr), s3) →
  let result :=
    match lerr with
    | None =>
        Some (errorString
          ("`" ++ path ++ "' points to a folder, not a secret")%string)
    | Some (kvNotFound _) | Some (secretNotFound _) | Some (keyNotFound _ _) =>
        Some (NewSecretNotFoundError secret)
    | Some _ => lerr
    end in
  run B (verifySecretState path opts) s
  = (Returned result, s3,
     [Event (client_MountVersion (Canonicalize secret));
      Event (client_Versions (Canonicalize secret));
      Event (client_List (Canonicalize (Canonicalize path)))])
  ∧ (lerr = None → IsNotFound result = false).
Proof.
  intros HP1 Hmount Hvers Hlist result. split.
  - unfold verifySecretState, MountVersion, Vault_Versions. rewrite HP1.
    simpl. rewrite Hmount. simpl. rewrite Hvers. simpl.
    unfold errIfFolder, List. simpl. rewrite Hlist. simpl.
    subst result. destruct lerr as [[m | sec k | m | m | m] |]; reflexivity.
  - intros ->. reflexivity.
Qed.

End verifier_more.

Lemma verifySecretState_any_version_witness :
  run mem.backend
    (verifySecretState "secret/foo" (mkVerifyOpts true verifyStateAlive))
    examples.store_345
  = (Returned
       (if existsb (spec.satisfies verifyStateAlive) examples.records_345
        then None
        else Some (spec.no_version_error "secret/foo" verifyStateAlive)),
     examples.store_345,
     [Event (client_MountVersion (Canonicalize "secret/foo"));
      Event (client_Versions (Canonicalize "secret/foo"))]).
Proof.
  refine (verifySecretState_any_version mem.backend examples.store_345
            examples.store_345 examples.store_345 "secret/foo" "secret/foo"
            "" 0 verifyStateAlive examples.records_345 _ _ _);
    reflexivity.
Defined.

Lemma verifySecretState_mount_witness :
  run (mem.backend_on_mount 3)
    (verifySecretState "secret/foo" (mkVerifyOpts false verifyStateAlive))
    examples.store_345
  = (Returned (Some (errorString "Unsupported mount version: 3")),
     examples.store_345,
     [Event (client_MountVersion (Canonicalize "secret/foo"))]).
Proof.
  refine (verifySecretState_mount (mem.backend_on_mount 3) examples.store_345
            examples.store_345 "secret/foo" "secret/foo" "" 0 3 None
            (mkVerifyOpts false verifyStateAlive) _ _ _).
  - reflexivity.
  - reflexivity.
  - right. split; discriminate.
Defined.

Lemma verifySecretState_missing_witness :
  let result :=
    Some (errorString "`a' points to a folder, not a secret") in
  run mem.backend
    (verifySecretState "a" (mkVerifyOpts false verifyStateAlive))
    examples.store_tree
  = (Returned result, examples.store_tree,
     [Event (client_MountVersion (Canonicalize "a"));
      Event (client_Versions (Canonicalize "a"));
      Event (client_List (Canonicalize (Canonicalize "a")))])
  ∧ (@None error = None → IsNotFound result = false).
Proof.
  refine (verifySecretState_missing mem.backend examples.store_tree
            examples.store_tree examples.store_tree examples.store_tree
            "a" "a" "" "404" 0 (mkVerifyOpts false verifyStateAlive)
            [] ["a/y"; "a/x"] None _ _ _ _);
    reflexivity.
Defined.

Section verifier_v1.

Context `{HP : Helpers}.

(** On a v1 mount, verification is the read of the secret: its error is
    handed back, except that a not-found error for a path that can be
    listed becomes the folder error. *)
Theorem verifySecretState_v1 (B : backend) (s s1 s2 s3 : St B)
    (path secret key : string) (version : N) (opts : verifyOpts)
    (found : option Secret) (rerr lerr : option error) (t2 : list event)
    (children : list string) :
  ParsePath path = (secret, key, version) →
  answer B _ (client_MountVersion (Canonicalize secret)) s = ((1, None), s1) →
  run B (Read (Canonicalize path)) s1 = (Returned (found, rerr), s2, t2) →
  answer B _ (client_List (Canonicalize (Canonicalize (Canonicalize path)))) s2
  = ((children, lerr), s3) →
  run B (verifySecretState path opts) s
  = if IsNotFound rerr then
      (Returned
         (match lerr with
          | None =>
              Some (errorString
                ("`" ++ Canonicalize path
                 ++ "` points to a folder, not a secret")%string)
          | Some (kvNotFound _) | Some (secretNotFound _)
          | Some (keyNotFound _ _) => rerr
          | Some _ => lerr
          end),
       s3,
       Event (client_MountVersion (Canonicalize secret)) :: t2
       ++ [Event (client_List
                    (Canonicalize (Canonicalize (Canonicalize path))))])
    else
      (Returned rerr, s2,
       Event (client_MountVersion (Canonicalize secret)) :: t2).
Proof.
  intros HP1 Hmount Hread Hlist.
  unfold verifySecretState, MountVersion. rewrite HP1.
  rewrite run_bind, run_perform, Hmount. cbn [fst snd N.eqb Pos.eqb].
  unfold verifySecretExists.
  rewrite (run_bind_Returned B _ _ _ _ _ _ Hread). cbn iota beta.
  destruct rerr as [e |]; [| simpl; rewrite app_nil_r; reflexivity].
  destruct (IsNotFound (Some e)) eqn:Hnf;
    [| simpl; rewrite app_nil_r; reflexivity].
  unfold errIfFolder, List. rewrite !run_bind, run_perform, Hlist.
  cbn [fst snd]. destruct lerr as [[m | sec k | m | m | m] |]; reflexivity.
Qed.

(** [Delete] checks before it acts: when state verification fails, its
    error is the result, and no mutating call has been issued. *)
Theorem Delete_unverified (B : backend) (s s1 : St B) (path : string)
    (opts : DeleteOpts) (e : error) (t1 : list event) :
  run B (verifySecretState (Canonicalize path)
           (mkVerifyOpts (All opts)
              (if Destroy opts then verifyStateAliveOrDeleted
               else verifyStateAlive))) s
  = (Returned (Some e), s1, t1) →
  run B (Delete path opts) s = (Returned (Some e), s1, t1)
  ∧ trace_free any_mutation t1.
Proof.
  intros Hverify. split.
  - unfold Delete. rewrite (run_bind_Returned B _ _ _ _ _ _ Hverify).
    simpl. rewrite app_nil_r. reflexivity.
  - exact (run_readonly B _ _ _ _ _ (verifySecretState_readonly _ _) Hverify).
Qed.

End verifier_v1.

Lemma verifySecretState_v1_witness :
  run (mem.backend_on_mount 1)
    (verifySecretState "a" (mkVerifyOpts false verifyStateAlive))
    examples.store_tree
  = if IsNotFound (Some (NewSecretNotFoundError "a")) then
      (Returned
         (Some (errorString
            ("`" ++ Canonicalize "a"
             ++ "` points to a folder, not a secret")%string)),
       examples.store_tree,
       Event (client_MountVersion (Canonicalize "a"))
       :: [Event (client_Get "a" 0)]
       ++ [Event (client_List (Canonicalize (Canonicalize (Canonicalize "a"))))])
    else
      (Returned (Some (NewSecretNotFoundError "a")), examples.store_tree,
       Event (client_MountVersion (Canonicalize "a"))
       :: [Event (client_Get "a" 0)]).
Proof.
  refine (verifySecretState_v1 (mem.backend_on_mount 1) examples.store_tree
            examples.store_tree examples.store_tree examples.store_tree
            "a" "a" "" 0 (mkVerifyOpts false verifyStateAlive)
            (Some NewSecret) (Some (NewSecretNotFoundError "a")) None
            [Event (client_Get "a" 0)] ["a/y"; "a/x"] _ _ _ _);
    reflexivity.
Defined.

Lemma Delete_unverified_witness :
  run mem.backend (Delete "secret/foo^4" (mkDeleteOpts false false))
    examples.store_345
  = (Returned (Some (spec.Deleted_error "secret/foo^4")), examples.store_345,
     [Event (client_MountVersion "secret/foo");
      Event (client_Versions "secret/foo")])
  ∧ trace_free any_mutation
      [Event (client_MountVersion "secret/foo");
       Event (client_Versions "secret/foo")].
Proof.
  refine (Delete_unverified mem.backend examples.store_345 examples.store_345
            "secret/foo^4" (mkDeleteOpts false false)
            (spec.Deleted_error "secret/foo^4")
            [Event (client_MountVersion "secret/foo");
             Event (client_Versions "secret/foo")] _).
  reflexivity.
Defined.

(** ** Undelete and the deletion of trees *)

Section undelete_tree.

Context `{HP : Helpers}.

(** [Undelete] refuses a key-qualified address before any call.  On a
    contiguous list of retained records it resolves the version (the
    newest when none is given), refuses a version older than the oldest
    record or a destroyed one as destroyed, a version newer than the
    newest as not yet existing, and otherwise issues one [Undelete] of
    that version and hands its answer back.  A version that is 2^63 or
    more above the oldest record has an index that is negative as an
    [int]: it passes the test against the length, and the access to the
    records panics. *)
Theorem Undelete_plan (path secret key : string) (version : N) :
  ParsePath path = (secret, key, version) →
  (key ≠ "" →
   ∀ (B : backend) (s : St B),
     run B (Undelete path) s
     = (Returned (Some (errorString
          ("Cannot undelete specific key (" ++ path ++ ")")%string)), s, []))
  ∧ (key = "" →
     ∀ (B : backend) (s s1 : St B) (versions : list KVVersion),
       answer B _ (client_Versions (Canonicalize secret)) s
       = ((versions, None), s1) →
       spec.contiguous versions = true →
       ∃ a,
         spec.undelete_plan secret version versions = Some a
         ∧ run B (Undelete path) s
           = match a with
             | spec.Refuse e =>
                 (Returned (Some e), s1,
                  [Event (client_Versions (Canonicalize secret))])
             | spec.Restore target =>
                 let c := client_Undelete secret [target] in
                 (Returned (answer B _ c s1).1, (answer B _ c s1).2,
                  [Event (client_Versions (Canonicalize secret)); Event c])
             | spec.Overflow =>
                 (Panicked "runtime error: index out of range", s1,
                  [Event (client_Versions (Canonicalize secret))])
             end).
Proof.
  intros HP1. unfold Undelete. rewrite HP1. split.
  - intros Hkey B s.
    rewrite (bool_decide_eq_true_2 (key ≠ "")) by exact Hkey.
    reflexivity.
  - intros -> B s s1 versions Hvers Hc.
    rewrite (bool_decide_eq_false_2 ("" ≠ "")) by (intros Hn; apply Hn; done).
    unfold Vault_Versions. simpl. rewrite Hvers. simpl.
    rewrite last_version_last. unfold spec.undelete_plan.
    destruct versions as [| oldest rest]; [discriminate |].
    unfold spec.contiguous in Hc.
    destruct (last (oldest :: rest)) as [newest |] eqn:Hlast;
      [| apply last_None in Hlast; discriminate].
    cbn [head mbind option_bind lookup list_lookup].
    assert (Hnewest : Version newest
                      = Version oldest + N.of_nat (length rest)).
    { rewrite last_lookup in Hlast.
      apply (numbered_from_lookup _ _ _ _ Hc Hlast). }
    assert (Htarget : (if version =? 0 then Version newest else version)
                      = spec.target_version version (oldest :: rest)).
    { unfold spec.target_version. rewrite Hlast. reflexivity. }
    rewrite Htarget.
    set (target := spec.target_version version (oldest :: rest)) in *.
    unfold spec.undelete_destroyed, spec.undelete_not_yet.
    destruct (N.ltb_spec target (Version oldest)) as [Hlow | Hlow].
    { eexists. split; reflexivity. }
    destruct (N.leb_spec (2 ^ 63) (target - Version oldest)) as [Hbig | Hbig].
    { eexists. split; reflexivity. }
    destruct (N.ltb_spec (Version newest) target) as [Hhigh | Hhigh].
    { rewrite (proj2 (Nat.leb_le _ _)) by (simpl length; lia).
      eexists. split; reflexivity. }
    rewrite (proj2 (Nat.leb_gt _ _)) by (simpl length; lia).
    destruct (numbered_from_find (oldest :: rest) (Version oldest) target Hc)
      as [Hfind [r Hr]]; [lia | simpl length; lia |].
    rewrite <- Hfind, Hr. cbn [mbind option_bind].
    destruct (Destroyed r); eexists; split; reflexivity.
Qed.

(** A soft delete of a whole secret stays a soft delete: with [destroy]
    false, whatever the backend answers, the only mutating calls are
    [Delete] calls on the secret of the address. *)
Theorem deleteEntireSecret_soft (path secret key : string) (version : N)
    (all : bool) :
  ParsePath path = (secret, key, version) →
  never (spec.beyond_soft_delete secret) (deleteEntireSecret path false all).
Proof.
  intros HP1. unfold deleteEntireSecret. rewrite HP1. cbn [andb].
  destruct all.
  - apply never_bind.
    + apply (never_weaken any_mutation); [| apply Vault_Versions_readonly].
      intros R c. destruct c; simpl; congruence.
    + intros [allVersions err]. destruct err; [constructor |].
      apply never_perform. simpl.
      rewrite bool_decide_eq_true_2 by reflexivity. reflexivity.
  - apply never_perform. simpl.
    rewrite bool_decide_eq_true_2 by reflexivity. reflexivity.
Qed.

Lemma deleteEntireSecret_each_app (B : backend) (opts : DeleteOpts)
    (done rest : list string) :
  ∀ (s s1 : St B) (t1 : list event),
    run B (deleteEntireSecret_each done opts) s = (Returned None, s1, t1) →
    run B (deleteEntireSecret_each (done ++ rest) opts) s
    = (let '(o, s2, t2) := run B (deleteEntireSecret_each rest opts) s1 in
       (o, s2, t1 ++ t2)).
Proof.
  induction done as [| p done IH]; intros s s1 t1 Hdone.
  - simpl in Hdone. inversion Hdone; subst. simpl.
    destruct (run B (deleteEntireSecret_each rest opts) s1) as [[o s2] t2].
    reflexivity.
  - cbn [deleteEntireSecret_each app] in *. rewrite run_bind in *.
    destruct (run B (deleteEntireSecret p (Destroy opts) (All opts)) s)
      as [[[[e |] | msg] s'] t'] eqn:Hp.
    + simpl in Hdone. inversion Hdone.
    + destruct (run B (deleteEntireSecret_each done opts) s')
        as [[o' s''] t''] eqn:Hrest.
      inversion Hdone; subst.
      rewrite (IH s' s1 t'' Hrest).
      destruct (run B (deleteEntireSecret_each rest opts) s1) as [[o s2] t2].
      rewrite app_assoc. reflexivity.
    + inversion Hdone.
Qed.

(** [DeleteTree] stops at the first leaf whose deletion fails: the leaves
    listed after it, the mount lookup and the root are not reached, and
    the leaves before it stay deleted. *)
Theorem DeleteTree_first_error (B : backend) (s s1 s2 s3 : St B)
    (root p : string) (opts : DeleteOpts) (tree : Secrets)
    (done rest : list string) (e : error) (t2 t3 : list event) :
  answer B _ (ConstructSecrets (Canonicalize root) (spec.listing true)) s
  = ((tree, None), s1) →
  Paths tree = done ++ p :: rest →
  run B (deleteEntireSecret_each done opts) s1 = (Returned None, s2, t2) →
  run B (deleteEntireSecret p (Destroy opts) (All opts)) s2
  = (Returned (Some e), s3, t3) →
  run B (DeleteTree root opts) s
  = (Returned (Some e), s3,
     Event (ConstructSecrets (Canonicalize root) (spec.listing true))
     :: t2 ++ t3).
Proof.
  intros Hlist Hpaths Hdone Hp. unfold DeleteTree.
  rewrite run_bind, run_perform. unfold spec.listing in Hlist.
  rewrite Hlist. cbn [fst snd]. rewrite run_bind, Hpaths.
  rewrite (deleteEntireSecret_each_app B opts done (p :: rest) s1 s2 t2 Hdone).
  cbn [deleteEntireSecret_each]. rewrite run_bind, Hp. simpl.
  rewrite !app_nil_r. reflexivity.
Qed.

(** When every listed leaf is deleted, [DeleteTree] asks for the mount of
    the root and deletes the node at the root as well, unless the root is
    the mount itself (leading and trailing slashes apart). *)
Theorem DeleteTree_root (B : backend) (s s1 s2 s3 : St B)
    (root mount : string) (opts : DeleteOpts) (tree : Secrets)
    (t2 : list event) :
  answer B _ (ConstructSecrets (Canonicalize root) (spec.listing true)) s
  = ((tree, None), s1) →
  run B (deleteEntireSecret_each (Paths tree) opts) s1
  = (Returned None, s2, t2) →
  answer B _ (client_MountPath (Canonicalize root)) s2 = ((mount, None), s3) →
  run B (DeleteTree root opts) s
  = if bool_decide (strings_Trim_slash (Canonicalize root)
                    = strings_Trim_slash mount)
    then
      (Returned None, s3,
       Event (ConstructSecrets (Canonicalize root) (spec.listing true))
       :: t2 ++ [Event (client_MountPath (Canonicalize root))])
    else
      let '(o, s4, t4) :=
        run B (deleteEntireSecret (Canonicalize root) (Destroy opts)
                 (All opts)) s3 in
      (o, s4,
       Event (ConstructSecrets (Canonicalize root) (spec.listing true))
       :: t2 ++ Event (client_MountPath (Canonicalize root)) :: t4).
Proof.
  intros Hlist Hleaves Hmount. unfold DeleteTree.
  rewrite run_bind, run_perform. unfold spec.listing in Hlist.
  rewrite Hlist. cbn [fst snd].
  rewrite (run_bind_Returned B _ _ _ _ _ _ Hleaves). cbn iota beta.
  rewrite run_bind, run_perform, Hmount. cbn [fst snd].
  destruct (decide (strings_Trim_slash (Canonicalize root)
                    = strings_Trim_slash mount)) as [Heq | Hne].
  - rewrite (bool_decide_eq_true_2 _ Heq).
    rewrite bool_decide_eq_false_2 by (intros Hn; apply Hn; exact Heq).
    simpl. rewrite ?app_nil_r. reflexivity.
  - rewrite (bool_decide_eq_false_2 _ Hne).
    rewrite (bool_decide_eq_true_2 _ Hne).
    destruct (run B (deleteEntireSecret (Canonicalize root) (Destroy opts)
                       (All opts)) s3) as [[o s4] t4].
    reflexivity.
Qed.

End undelete_tree.

Lemma Undelete_plan_witness :
  ∃ a,
    spec.undelete_plan "secret/foo" 4 examples.records_345 = Some a
    ∧ run mem.backend (Undelete "secret/foo^4") examples.store_345
      = match a with
        | spec.Refuse e =>
            (Returned (Some e), examples.store_345,
             [Event (client_Versions (Canonicalize "secret/foo"))])
        | spec.Restore target =>
            let c := client_Undelete "secret/foo" [target] in
            (Returned (answer mem.backend _ c examples.store_345).1,
             (answer mem.backend _ c examples.store_345).2,
             [Event (client_Versions (Canonicalize "secret/foo")); Event c])
        | spec.Overflow =>
            (Panicked "runtime error: index out of range",
             examples.store_345,
             [Event (client_Versions (Canonicalize "secret/foo"))])
        end.
Proof.
  refine (proj2 (Undelete_plan "secret/foo^4" "secret/foo" "" 4 _) _
            mem.backend examples.store_345 examples.store_345
            examples.records_345 _ _);
    reflexivity.
Defined.

(** The deleted version 4 is restored; the destroyed version 5 and the
    version 2 that is no longer retained are refused, version 9 does not
    exist yet; version 3 + 2^63 has an index that is negative as an
    [int], and a key is refused. *)
Example Undelete_boundaries :
  let undelete path := mem.exec (Undelete path) examples.store_345 in
  undelete "secret/foo^4"
  = (Returned None,
     [Event (client_Versions "secret/foo");
      Event (client_Undelete "secret/foo" [4])])
  ∧ (undelete "secret/foo").1
    = Returned (Some (spec.undelete_destroyed "secret/foo" 5))
  ∧ (undelete "secret/foo^2").1
    = Returned (Some (spec.undelete_destroyed "secret/foo" 2))
  ∧ (undelete "secret/foo^9").1
    = Returned (Some (spec.undelete_not_yet "secret/foo" 9))
  ∧ (undelete "secret/foo^9223372036854775811").1
    = Panicked "runtime error: index out of range"
  ∧ (undelete "secret/foo:k").1
    = Returned (Some (errorString "Cannot undelete specific key (secret/foo:k)")).
Proof. repeat split. Qed.

Lemma deleteEntireSecret_soft_witness :
  never (spec.beyond_soft_delete "secret/foo")
    (deleteEntireSecret "secret/foo^4" false true).
Proof.
  refine (deleteEntireSecret_soft "secret/foo^4" "secret/foo" "" 4 true _).
  reflexivity.
Defined.

Lemma DeleteTree_first_error_witness :
  let opts := mkDeleteOpts true true in
  let s := examples.store_tree_denied in
  let s2 := (answer mem.backend _ (client_DestroyAll "a/x") s).2 in
  run mem.backend (DeleteTree "a" opts) s
  = (Returned (Some (kvError "403 permission denied")), s2,
     Event (ConstructSecrets (Canonicalize "a") (spec.listing true))
     :: [Event (client_DestroyAll "a/x")] ++ [Event (client_DestroyAll "a/y")]).
Proof.
  intros opts s s2.
  refine (DeleteTree_first_error mem.backend s s s2 s2 "a" "a/y" opts
            examples.tree_a ["a/x"] [] (kvError "403 permission denied")
            [Event (client_DestroyAll "a/x")]
            [Event (client_DestroyAll "a/y")] _ _ _ _);
    reflexivity.
Defined.

Lemma DeleteTree_root_witness :
  let opts := mkDeleteOpts false false in
  let s := examples.store_tree in
  let leaves :=
    run mem.backend (deleteEntireSecret_each ["a/x"; "a/y"] opts) s in
  run mem.backend (DeleteTree "a" opts) s
  = if bool_decide (strings_Trim_slash (Canonicalize "a")
                    = strings_Trim_slash "secret")
    then
      (Returned None, leaves.1.2,
       Event (ConstructSecrets (Canonicalize "a") (spec.listing true))
       :: leaves.2 ++ [Event (client_MountPath (Canonicalize "a"))])
    else
      let '(o, s4, t4) :=
        run mem.backend
          (deleteEntireSecret (Canonicalize "a") (Destroy opts) (All opts))
          leaves.1.2 in
      (o, s4,
       Event (ConstructSecrets (Canonicalize "a") (spec.listing true))
       :: leaves.2 ++ Event (client_MountPath (Canonicalize "a")) :: t4).
Proof.
  intros opts s leaves.
  refine (DeleteTree_root mem.backend s s leaves.1.2 leaves.1.2 "a" "secret"
            opts examples.tree_a leaves.2 _ _ _);
    reflexivity.
Defined.

(** Deleting the folder [a] of the example tree: the two leaves, then the
    node [a] itself, which is not the mount. *)
Example DeleteTree_runs :
  mem.exec (DeleteTree "/a/" (mkDeleteOpts false false)) examples.store_tree
  = (Returned None,
     [Event (ConstructSecrets "a" (spec.listing true));
      Event (client_Delete "a/x" [] true);
      Event (client_Delete "a/y" [] true);
      Event (client_MountPath "a");
      Event (client_Delete "a" [] true)]).
Proof. reflexivity. Qed.

(** ** Copy and Move on their other paths *)

Section copy_more.

Context `{HP : Helpers}.

Lemma Copy_skip_readonly (newpath : string) (opts : MoveCopyOpts) :
  never any_mutation (Copy_skip newpath opts).
Proof.
  unfold Copy_skip. destruct (SkipIfExists opts); [| constructor].
  apply never_bind; [apply Read_readonly |].
  intros [found err]. destruct err as [e |].
  - destruct (negb _); constructor.
  - apply never_bind; [| intros; constructor].
    destruct (negb _); [apply never_perform; reflexivity | constructor].
Qed.

(** Walks the chain of refusals of [Copy] under the hypothesis [Hinv]
    that one of them applies. *)
Ltac refusal_cases Hinv :=
  match goal with
  | |- context [bool_decide (?dv ≠ 0)] =>
      destruct (bool_decide (dv ≠ 0)) eqn:?Hdv;
      [| apply bool_decide_eq_false in Hdv ]
  end;
  [| match goal with
     | |- context [Deep ?o && bool_decide (?sv ≠ 0)] =>
         destruct (Deep o) eqn:?Hdeep; cbn [andb];
         [ destruct (bool_decide (sv ≠ 0)) eqn:?Hsv;
           [| apply bool_decide_eq_false in Hsv ] |]
     end;
     [| match goal with
        | |- context [bool_decide (?sk ≠ "")] =>
            destruct (bool_decide (sk ≠ "")) eqn:?Hsk;
            [| apply bool_decide_eq_false in Hsk ]
        end;
        [| destruct Hinv as [? | [[_ ?] | [[_ ?] | [_ Hdk]]]];
           try contradiction; rewrite (bool_decide_eq_true_2 _ Hdk) ]
      | destruct Hinv as [? | [[? _] | [[? _] | [Hsk Hdk]]]];
        try contradiction; try discriminate;
        match goal with
        | |- context [bool_decide (?sk ≠ "")] =>
            rewrite (bool_decide_eq_false_2 (sk ≠ ""))
              by (intros Hn; apply Hn; exact Hsk)
        end;
        rewrite (bool_decide_eq_true_2 _ Hdk) ] ].

(** A copy that cannot be done is never begun: onto a pinned destination
    version, deep from a pinned version or from a key, or from a whole
    secret into a key, [Copy] issues no mutating call, whatever the
    backend answers; and once the source is verified and the destination
    check is off, it returns an error. *)
Theorem Copy_invalid (oldpath newpath : string) (opts : MoveCopyOpts)
    (srcPath srcKey dstPath dstKey : string) (srcVersion dstVersion : N) :
  ParsePath (Canonicalize oldpath) = (srcPath, srcKey, srcVersion) →
  ParsePath (Canonicalize newpath) = (dstPath, dstKey, dstVersion) →
  dstVersion ≠ 0
  ∨ (Deep opts = true ∧ srcVersion ≠ 0)
  ∨ (Deep opts = true ∧ srcKey ≠ "")
  ∨ (srcKey = "" ∧ dstKey ≠ "") →
  never any_mutation (Copy oldpath newpath opts)
  ∧ (SkipIfExists opts = false →
     DeletedVersions opts && negb (Deep opts) = false →
     ∀ (B : backend) (s s1 : St B) (t1 : list event),
       run B (verifySecretState (Canonicalize oldpath)
                (mkVerifyOpts (Deep opts)
                   (if DeletedVersions opts then verifyStateAliveOrDeleted
                    else verifyStateAlive))) s
       = (Returned None, s1, t1) →
       ∃ e, run B (Copy oldpath newpath opts) s = (Returned (Some e), s1, t1)).
Proof.
  intros HPsrc HPdst Hinv. split.
  - unfold Copy. destruct (DeletedVersions opts && negb (Deep opts));
      [constructor |].
    apply never_bind; [apply verifySecretState_readonly |].
    intros [e |]; [constructor |].
    apply never_bind; [apply Copy_skip_readonly |].
    intros [r |]; [constructor |].
    rewrite HPsrc, HPdst.
    refusal_cases Hinv; constructor.
  - intros Hskip Hpanic B s s1 t1 Hverify.
    unfold Copy. rewrite Hpanic.
    rewrite (run_bind_Returned B _ _ _ _ _ _ Hverify). cbn iota beta.
    unfold Copy_skip. rewrite Hskip. cbn [bind].
    rewrite HPsrc, HPdst.
    refusal_cases Hinv; simpl; rewrite app_nil_r; eauto.
Qed.

(** Copying one key merges it into what is read at the destination:
    after the checks, [Copy] reads the key at the source and reads the
    destination path, sets that one key (under the name given for the
    destination, else under its own) in the secret read there, every
    other key of it kept, and hands the result to [Write] at the
    destination path; a destination that is not found starts empty.  For
    a destination path that parses to itself, that is, one without an
    escaped delimiter, this [Write] is exactly one [Set] of the
    destination. *)
Theorem Copy_key (B : backend) (s s1 s2 s3 s4 : St B)
    (oldpath newpath : string) (opts : MoveCopyOpts)
    (srcPath srcKey dstPath dstKey : string) (srcVersion : N)
    (srcSecret : Secret) (dstOrig : option Secret) (derr : option error)
    (t1 t2 t3 t4 : list event) :
  Deep opts = false →
  DeletedVersions opts = false →
  ParsePath (Canonicalize oldpath) = (srcPath, srcKey, srcVersion) →
  ParsePath (Canonicalize newpath) = (dstPath, dstKey, 0) →
  srcKey ≠ "" →
  run B (verifySecretState (Canonicalize oldpath)
           (mkVerifyOpts false verifyStateAlive)) s
  = (Returned None, s1, t1) →
  run B (Copy_skip (Canonicalize newpath) opts) s1 = (Returned None, s2, t2) →
  run B (Read (Canonicalize oldpath)) s2
  = (Returned (Some srcSecret, None), s3, t3) →
  run B (Read dstPath) s3 = (Returned (dstOrig, derr), s4, t4) →
  (derr = None ∧ dstOrig ≠ None) ∨ IsSecretNotFound derr = true →
  let before :=
    if IsSecretNotFound derr then ∅ else default ∅ (data <$> dstOrig) in
  let name := if bool_decide (dstKey = "") then srcKey else dstKey in
  let merged := mkSecret (<[name := Get srcSecret srcKey]> before) in
  run B (Copy oldpath newpath opts) s
  = (let '(o, s5, t5) := run B (Write dstPath merged) s4 in
     (o, s5, t1 ++ t2 ++ t3 ++ t4 ++ t5))
  ∧ (ParsePath dstPath = (dstPath, "", 0) →
     let c := client_Set dstPath (data merged) in
     let err := (answer B _ c s4).1 in
     run B (Copy oldpath newpath opts) s
     = (Returned (if vaultkv_IsNotFound err
                  then Some (NewSecretNotFoundError dstPath) else err),
        (answer B _ c s4).2,
        t1 ++ t2 ++ t3 ++ t4 ++ [Event c])).
Proof.
  intros Hdeep Hdel HPsrc HPdst Hkey Hverify Hskip Hsrc Hdst Hcase
    before name merged.
  assert (Hgen : run B (Copy oldpath newpath opts) s
                 = (let '(o, s5, t5) := run B (Write dstPath merged) s4 in
                    (o, s5, t1 ++ t2 ++ t3 ++ t4 ++ t5))).
  { unfold Copy. rewrite Hdeep, Hdel. cbn [andb negb].
    rewrite (run_bind_Returned B _ _ _ _ _ _ Hverify). cbn iota beta.
    rewrite (run_bind_Returned B _ _ _ _ _ _ Hskip). cbn iota beta.
    rewrite HPsrc, HPdst.
    rewrite (bool_decide_eq_false_2 (0 ≠ 0)) by (intros Hn; apply Hn; done).
    rewrite (bool_decide_eq_true_2 (srcKey ≠ "")) by exact Hkey.
    rewrite (run_bind_Returned B _ _ _ _ _ _ Hsrc). cbn iota beta.
    destruct (Read_key_isolated B s2 s3 (Canonicalize oldpath) srcPath srcKey
                srcVersion srcSecret t3 HPsrc Hkey Hsrc) as [_ Hhas].
    rewrite Hhas. cbn [negb].
    rewrite (run_bind_Returned B _ _ _ _ _ _ Hdst). cbn iota beta.
    assert (Hgo : bool_decide (derr ≠ None) && negb (IsSecretNotFound derr)
                  = false).
    { destruct Hcase as [[-> _] | ->]; [reflexivity | apply andb_false_r]. }
    rewrite Hgo.
    assert (Hd : ∃ d,
               (if IsSecretNotFound derr then Some NewSecret else dstOrig)
               = Some d ∧ data d = before).
    { subst before. destruct (IsSecretNotFound derr) eqn:Hnf.
      - exists NewSecret. split; reflexivity.
      - destruct Hcase as [[_ Hsome] | Hc]; [| discriminate].
        destruct dstOrig as [d |]; [| contradiction].
        exists d. split; reflexivity. }
    destruct Hd as (d & Hd & Hdata). rewrite Hd.
    cbn [Write_each]. rewrite run_bind.
    fold name. unfold Set_. rewrite Hdata. fold merged.
    destruct (run B (Write dstPath merged) s4) as [[[[e |] | msg] s5] t5];
      simpl; rewrite ?app_nil_r; reflexivity. }
  split; [exact Hgen |].
  intros Hbare c err. rewrite Hgen.
  unfold Write, Write_body. rewrite Hbare.
  rewrite (bool_decide_eq_false_2 ("" ≠ "")) by (intros Hn; apply Hn; done).
  rewrite (bool_decide_eq_false_2 (0 ≠ 0)) by (intros Hn; apply Hn; done).
  assert (Hne : Empty merged = false).
  { unfold Empty, merged. cbn [data]. apply bool_decide_eq_false_2.
    apply insert_non_empty. }
  rewrite Hne. fold c.
  rewrite run_bind, run_perform. fold err.
  clearbody err. destruct err as [[m | sec k | m | m | m] |];
    simpl; rewrite ?app_nil_r; reflexivity.
Qed.

(** Copying a whole secret fetches the source and hands the first
    fetched entry to the replay onto the destination, with [Clear] and
    [Pad] set exactly for a deep copy.  A pinned source version narrows
    the entry to that version when it was fetched, and leaves the whole
    entry when it was not.  An empty fetch is a missing secret, and
    nothing is written. *)
Theorem Copy_whole (B : backend) (s s1 s2 s3 : St B)
    (oldpath newpath : string) (opts : MoveCopyOpts)
    (srcPath dstPath : string) (srcVersion : N)
    (fetched : Secrets) (ferr : option error) (t1 t2 : list event) :
  DeletedVersions opts && negb (Deep opts) = false →
  Deep opts && negb (srcVersion =? 0) = false →
  ParsePath (Canonicalize oldpath) = (srcPath, "", srcVersion) →
  ParsePath (Canonicalize newpath) = (dstPath, "", 0) →
  run B (verifySecretState (Canonicalize oldpath)
           (mkVerifyOpts (Deep opts)
              (if DeletedVersions opts then verifyStateAliveOrDeleted
               else verifyStateAlive))) s
  = (Returned None, s1, t1) →
  run B (Copy_skip (Canonicalize newpath) opts) s1 = (Returned None, s2, t2) →
  answer B _ (ConstructSecrets srcPath (spec.copy_fetch opts srcVersion)) s2
  = ((fetched, ferr), s3) →
  let fetch := Event (ConstructSecrets srcPath (spec.copy_fetch opts srcVersion)) in
  run B (Copy oldpath newpath opts) s
  = match ferr, fetched with
    | Some _, _ => (Returned ferr, s3, t1 ++ t2 ++ [fetch])
    | None, [] =>
        (Returned (Some (NewSecretNotFoundError srcPath)), s3,
         t1 ++ t2 ++ [fetch])
    | None, entry :: _ =>
        let c :=
          SecretEntry_Copy (spec.pinned srcVersion entry) dstPath
            (mkTreeCopyOpts (Deep opts) (Deep opts)) in
        (Returned (answer B _ c s3).1, (answer B _ c s3).2,
         t1 ++ t2 ++ [fetch; Event c])
    end.
Proof.
  intros Hpanic Hpin HPsrc HPdst Hverify Hskip Hfetch fetch.
  unfold Copy. rewrite Hpanic.
  rewrite (run_bind_Returned B _ _ _ _ _ _ Hverify). cbn iota beta.
  rewrite (run_bind_Returned B _ _ _ _ _ _ Hskip). cbn iota beta.
  rewrite HPsrc, HPdst.
  rewrite (bool_decide_eq_false_2 (0 ≠ 0)) by (intros Hn; apply Hn; done).
  assert (Hsv : bool_decide (srcVersion ≠ 0) = negb (srcVersion =? 0)).
  { destruct (N.eqb_spec srcVersion 0) as [-> | Hn]; [reflexivity |].
    apply bool_decide_eq_true_2. exact Hn. }
  rewrite Hsv, Hpin.
  rewrite !(bool_decide_eq_false_2 ("" ≠ "")) by (intros Hn; apply Hn; done).
  rewrite run_bind, run_perform. unfold spec.copy_fetch in Hfetch.
  rewrite Hfetch. cbn [fst snd].
  destruct ferr as [e |]; [simpl; rewrite ?app_nil_r; reflexivity |].
  destruct fetched as [| entry rest]; [simpl; rewrite ?app_nil_r; reflexivity |].
  assert (Hentry :
    (if negb (srcVersion =? 0) then
       match List.find (fun v => Number v =? srcVersion) (Versions entry) with
       | Some v => mkSecretEntry (Path entry) [v]
       | None => entry
       end
     else entry) = spec.pinned srcVersion entry).
  { unfold spec.pinned. destruct (srcVersion =? 0); reflexivity. }
  rewrite Hentry. rewrite run_bind, run_perform. cbn [fst snd].
  destruct (answer B (option error)
              (SecretEntry_Copy (spec.pinned srcVersion entry) dstPath
                 (mkTreeCopyOpts (Deep opts) (Deep opts))) s3) as [[e |] s4];
    simpl; rewrite ?app_nil_r; reflexivity.
Qed.

(** A failed move leaves the source alone.  When the guard fails, [Move]
    returns a new error that wraps the guard's (and so is not a not-found
    error, even when the guard's was); when the copy fails, [Move] hands
    its error back.  In both cases nothing follows the failing step: no
    delete and no destroy of the source is issued. *)
Theorem Move_failure (B : backend) (s s1 s2 : St B)
    (oldpath newpath : string) (opts : MoveCopyOpts)
    (guard copied : option error) (t1 t2 : list event) :
  run B (canSemanticallyDelete (Canonicalize oldpath)) s
  = (Returned guard, s1, t1) →
  run B (Copy (Canonicalize oldpath) (Canonicalize newpath) opts) s1
  = (Returned copied, s2, t2) →
  guard ≠ None ∨ copied ≠ None →
  run B (Move oldpath newpath opts) s
  = match guard with
    | Some e =>
        (Returned (Some (errorString
            ("Can't move `" ++ Canonicalize oldpath ++ "': " ++ Error e
             ++ ". Did you mean cp?")%string)),
         s1, t1)
    | None => (Returned copied, s2, t1 ++ t2)
    end
  ∧ (guard ≠ None → trace_free any_mutation t1).
Proof.
  intros Hguard Hcopy Hfail. split.
  - unfold Move. rewrite (run_bind_Returned B _ _ _ _ _ _ Hguard).
    destruct guard as [e |]; [simpl; rewrite app_nil_r; reflexivity |].
    rewrite (run_bind_Returned B _ _ _ _ _ _ Hcopy).
    destruct copied as [e |]; [simpl; rewrite app_nil_r; reflexivity |].
    destruct Hfail; contradiction.
  - intros _.
    exact (run_readonly B _ _ _ _ _ (canSemanticallyDelete_readonly _) Hguard).
Qed.

End copy_more.

Lemma Copy_invalid_witness :
  let opts := mkMoveCopyOpts false false false false in
  never any_mutation (Copy "secret/src" "secret/dst^3" opts)
  ∧ (SkipIfExists opts = false →
     DeletedVersions opts && negb (Deep opts) = false →
     ∀ (B : backend) (s s1 : St B) (t1 : list event),
       run B (verifySecretState (Canonicalize "secret/src")
                (mkVerifyOpts (Deep opts)
                   (if DeletedVersions opts then verifyStateAliveOrDeleted
                    else verifyStateAlive))) s
       = (Returned None, s1, t1) →
       ∃ e, run B (Copy "secret/src" "secret/dst^3" opts) s
            = (Returned (Some e), s1, t1)).
Proof.
  intros opts.
  refine (Copy_invalid "secret/src" "secret/dst^3" opts "secret/src" ""
            "secret/dst" "" 0 3 _ _ _).
  - reflexivity.
  - reflexivity.
  - left. discriminate.
Defined.

Lemma Copy_key_witness :
  let opts := mkMoveCopyOpts false false false false in
  let s := examples.store_src_dst in
  let merged := mkSecret {[ "a" := "3"; "x" := "y" ]} in
  let c := client_Set "secret/dst" (data merged) in
  let checked :=
    [Event (client_MountVersion "secret/src");
     Event (client_Versions "secret/src")]
    ++ [] ++ [Event (client_Get "secret/src" 0)]
    ++ [Event (client_Get "secret/dst" 0)] in
  run mem.backend (Copy "secret/src:a" "secret/dst" opts) s
  = (let '(o, s5, t5) := run mem.backend (Write "secret/dst" merged) s in
     (o, s5, checked ++ t5))
  ∧ run mem.backend (Copy "secret/src:a" "secret/dst" opts) s
    = (Returned None, (answer mem.backend _ c s).2, checked ++ [Event c]).
Proof.
  intros opts s merged c checked.
  assert (Hbare : ParsePath "secret/dst" = ("secret/dst", "", 0))
    by reflexivity.
  refine (let H := Copy_key mem.backend s s s s s "secret/src:a" "secret/dst"
            opts "secret/src" "a" "secret/dst" "" 0
            (mkSecret {[ "a" := "3" ]}) (Some (mkSecret {[ "x" := "y" ]})) None
            [Event (client_MountVersion "secret/src");
             Event (client_Versions "secret/src")]
            [] [Event (client_Get "secret/src" 0)]
            [Event (client_Get "secret/dst" 0)] _ _ _ _ _ _ _ _ _ _ in
          conj (proj1 H) (proj2 H Hbare));
    try reflexivity.
  - discriminate.
  - left. split; [reflexivity | discriminate].
Defined.

(** A destination with an escaped colon: the path is parsed again by
    [Read] and by [Write], so that what is read is the key [oo] of the
    secret [secret/f], and the write is refused as a write to a key. *)
Example Copy_key_escaped_destination :
  mem.exec
    (Copy "secret/src:a" "secret/f\:oo"
       (mkMoveCopyOpts false false false false))
    examples.store_escaped_src
  = (Returned
       (Some (errorString "cannot write to paths in /path:key notation")),
     [Event (client_MountVersion "secret/src");
      Event (client_Versions "secret/src");
      Event (client_Get "secret/src" 0);
      Event (client_Get "secret/f" 0)]).
Proof. reflexivity. Qed.



Lemma Copy_whole_witness :
  let opts := mkMoveCopyOpts false false false false in
  let s := examples.store_src_dst in
  let fetch :=
    Event (ConstructSecrets "secret/src" (spec.copy_fetch opts 1)) in
  let entry :=
    {| Path := "secret/src";
       Versions :=
         [ {| Data := mkSecret {[ "a" := "1"; "b" := "2" ]};
              Number := 1; State := SecretStateAlive |};
           {| Data := mkSecret {[ "a" := "3"; "b" := "4" ]};
              Number := 2; State := SecretStateAlive |} ] |} in
  let c :=
    SecretEntry_Copy (spec.pinned 1 entry) "secret/new"
      (mkTreeCopyOpts false false) in
  run mem.backend (Copy "secret/src^1" "secret/new" opts) s
  = (Returned (answer mem.backend _ c s).1, (answer mem.backend _ c s).2,
     [Event (client_MountVersion "secret/src");
      Event (client_Versions "secret/src")]
     ++ [] ++ [fetch; Event c]).
Proof.
  intros opts s fetch entry c.
  refine (Copy_whole mem.backend s s s s "secret/src^1" "secret/new" opts
            "secret/src" "secret/new" 1 [entry] None
            [Event (client_MountVersion "secret/src");
             Event (client_Versions "secret/src")]
            [] _ _ _ _ _ _ _);
    reflexivity.
Defined.

(** Version 1 alone reaches the destination. *)
Example Copy_pinned_version :
  (spec.pinned 1
     {| Path := "secret/src";
        Versions :=
          [ {| Data := mkSecret {[ "a" := "1" ]}; Number := 1;
               State := SecretStateAlive |};
            {| Data := mkSecret {[ "a" := "3" ]}; Number := 2;
               State := SecretStateAlive |} ] |})
  = {| Path := "secret/src";
       Versions :=
         [ {| Data := mkSecret {[ "a" := "1" ]}; Number := 1;
              State := SecretStateAlive |} ] |}.
Proof. reflexivity. Qed.

Lemma Move_failure_witness :
  let opts := mkMoveCopyOpts false false false false in
  let s := examples.store_src_dst in
  let copied := Some (NewSecretNotFoundError "secret/none") in
  let t2 :=
    [Event (client_MountVersion "secret/none");
     Event (client_Versions "secret/none");
     Event (client_List "secret/none")] in
  run mem.backend (Move "secret/none" "secret/new" opts) s
  = (Returned copied, s, [] ++ t2)
  ∧ (@None error ≠ None → trace_free any_mutation []).
Proof.
  intros opts s copied t2.
  refine (Move_failure mem.backend s s s "secret/none" "secret/new" opts
            None copied [] t2 _ _ _).
  - reflexivity.
  - reflexivity.
  - right. discriminate.
Defined.

(** ** Reading a whole secret *)

Section reading_all.

Context `{HP : Helpers}.

Lemma Read_fill_all (l : list (string * rawval)) :
  ∀ acc : Secret,
    NoDup l.*1 →
    forallb (fun kv => bool_decide (is_Some (spec.stringified kv.2))) l
    = true →
    ∃ sec,
      Read_fill "" l acc = (sec, None)
      ∧ ∀ k, data sec !! k
             = match (list_to_map l : gmap string rawval) !! k with
               | Some v => spec.stringified v
               | None => data acc !! k
               end.
Proof.
  induction l as [| [k v] rest IH]; intros acc Hnd Hall.
  - exists acc. split; [reflexivity |]. intros k.
    cbn [list_to_map foldr]. rewrite lookup_empty. reflexivity.
  - cbn [fmap list_fmap fst] in Hnd. apply NoDup_cons in Hnd as [Hk Hnd].
    cbn [forallb snd] in Hall. apply andb_true_iff in Hall as [Hv Hall].
    apply bool_decide_eq_true in Hv. destruct Hv as [str Hstr].
    cbn [Read_fill].
    rewrite (bool_decide_eq_true_2 ("" = "")) by reflexivity.
    rewrite orb_true_r.
    assert (Hstep : ∃ acc',
      match asString v with
      | Some s => Read_fill "" rest (mkSecret (<[k := s]> (data acc)))
      | None =>
          match json_Marshal v with
          | inr e => (acc, Some e)
          | inl b => Read_fill "" rest (mkSecret (<[k := b]> (data acc)))
          end
      end = Read_fill "" rest acc' ∧ data acc' = <[k := str]> (data acc)).
    { unfold spec.stringified in Hstr.
      destruct (asString v) as [s0 |].
      - inversion Hstr; subst. eexists. split; reflexivity.
      - destruct (json_Marshal v) as [b | e]; [| discriminate].
        inversion Hstr; subst. eexists. split; reflexivity. }
    destruct Hstep as (acc' & -> & Hacc').
    destruct (IH acc' Hnd Hall) as (sec & Hsec & Hlook).
    exists sec. split; [exact Hsec |]. intros k'.
    rewrite Hlook. cbn [list_to_map foldr]. cbn [uncurry fst snd].
    destruct (decide (k = k')) as [<- | Hne].
    + rewrite lookup_insert_eq.
      rewrite (not_elem_of_list_to_map_1 rest k Hk).
      rewrite Hacc', lookup_insert_eq. symmetry. exact Hstr.
    + rewrite lookup_insert_ne by exact Hne.
      destruct (list_to_map rest !! k'); [reflexivity |].
      rewrite Hacc'. apply lookup_insert_ne. exact Hne.
Qed.

Lemma Read_all_run (B : backend) (s s1 : St B) (path p : string) (version : N)
    (raw : gmap string rawval) :
  ParsePath path = (p, "", version) →
  answer B _ (client_Get p version) s = ((raw, None), s1) →
  spec.all_stringify raw = true →
  run B (Read path) s
  = (Returned (Some (mkSecret (omap spec.stringified raw)), None), s1,
     [Event (client_Get p version)]).
Proof.
  intros HP1 Hget Hall. unfold spec.all_stringify in Hall.
  destruct (Read_fill_all (map_to_list raw) NewSecret
              (NoDup_fst_map_to_list raw) Hall) as (sec & Hfill & Hlook).
  assert (Hsec : sec = mkSecret (omap spec.stringified raw)).
  { destruct sec as [d]. f_equal. apply map_eq. intros k.
    specialize (Hlook k). cbn [data] in Hlook. rewrite Hlook.
    rewrite list_to_map_to_list, lookup_omap.
    destruct (raw !! k); reflexivity. }
  unfold Read. rewrite HP1. simpl. rewrite Hget. simpl.
  rewrite Hfill, Hsec. reflexivity.
Qed.

(** [Read] of an address without a key returns the whole snapshot: the
    same keys, every value a string, either the stored string itself or
    the compact JSON of a structured value. *)
Theorem Read_all (B : backend) (s s1 : St B) (path p : string) (version : N)
    (raw : gmap string rawval) :
  ParsePath path = (p, "", version) →
  answer B _ (client_Get p version) s = ((raw, None), s1) →
  spec.all_stringify raw = true →
  run B (Read path) s
  = (Returned (Some (mkSecret (omap spec.stringified raw)), None), s1,
     [Event (client_Get p version)])
  ∧ dom (omap spec.stringified raw) = dom raw.
Proof.
  intros HP1 Hget Hall. split.
  - apply Read_all_run; assumption.
  - unfold spec.all_stringify in Hall.
    apply set_eq. intros k. rewrite !elem_of_dom, lookup_omap.
    split.
    + intros [str Hstr]. destruct (raw !! k); [eauto | discriminate].
    + intros [v Hv]. rewrite Hv. cbn [mbind option_bind].
      assert (Hin : (k, v) ∈ map_to_list raw)
        by (apply elem_of_map_to_list; exact Hv).
      rewrite forallb_forall in Hall.
      apply list_elem_of_In in Hin. specialize (Hall _ Hin).
      apply bool_decide_eq_true in Hall. exact Hall.
Qed.

End reading_all.

Lemma Read_all_witness :
  let raw : gmap string helpers.jsonval :=
    {[ "a" := helpers.JString "3"; "b" := helpers.JString "4" ]} in
  run mem.backend (Read "secret/src") examples.store_src_dst
  = (Returned (Some (mkSecret (omap spec.stringified raw)), None),
     examples.store_src_dst, [Event (client_Get "secret/src" 0)])
  ∧ dom (omap spec.stringified raw) = dom raw.
Proof.
  intros raw.
  refine (Read_all mem.backend examples.store_src_dst examples.store_src_dst
            "secret/src" "secret/src" 0 raw _ _ _);
    reflexivity.
Defined.

(** ** Copying and moving a tree *)

Section tree_apply.

Context `{HP : Helpers}.

Variable B : backend.
Variable f : string → string → MoveCopyOpts → prog (option error).

Lemma apply_each_app (oldRoot newRoot : string) (opts : MoveCopyOpts)
    (done rest : list string) :
  ∀ (s s1 : St B) (t1 : list event),
    run B (apply_each f oldRoot newRoot opts done) s = (Returned None, s1, t1) →
    run B (apply_each f oldRoot newRoot opts (done ++ rest)) s
    = (let '(o, s2, t2) :=
         run B (apply_each f oldRoot newRoot opts rest) s1 in
       (o, s2, t1 ++ t2)).
Proof.
  induction done as [| p done IH]; intros s s1 t1 Hdone.
  - simpl in Hdone. inversion Hdone; subst. simpl.
    destruct (run B (apply_each f oldRoot newRoot opts rest) s1)
      as [[o s2] t2].
    reflexivity.
  - cbn [apply_each app] in *. rewrite run_bind in *.
    destruct (run B (f p (strings_Replace1 p oldRoot newRoot) opts) s)
      as [[[[e |] | msg] s'] t'] eqn:Hp.
    + simpl in Hdone. inversion Hdone.
    + destruct (run B (apply_each f oldRoot newRoot opts done) s')
        as [[o' s''] t''] eqn:Hrest.
      inversion Hdone; subst.
      rewrite (IH s' s1 t'' Hrest).
      destruct (run B (apply_each f oldRoot newRoot opts rest) s1)
        as [[o s2] t2].
      rewrite app_assoc. reflexivity.
    + inversion Hdone.
Qed.

(** Without [SkipIfExists] the collision check does nothing; with it and
    no colliding destination it costs one listing of the destination and
    control goes on to the leaves. *)
Lemma MoveCopyTree_skip_passes (s s2 : St B) (oldRoot newRoot : string)
    (opts : MoveCopyOpts) (tree newTree : Secrets) (err : option error) :
  answer B _ (ConstructSecrets newRoot (spec.listing (negb (Deep opts)))) s
  = ((newTree, err), s2) →
  err = None ∨ IsNotFound err = true →
  existingPaths oldRoot newRoot tree newTree = [] →
  run B (MoveCopyTree_skip oldRoot newRoot tree opts) s
  = if SkipIfExists opts
    then (Returned None, s2,
          [Event (ConstructSecrets newRoot (spec.listing (negb (Deep opts))))])
    else (Returned None, s, []).
Proof.
  intros Hnew Herr Hnone. unfold MoveCopyTree_skip.
  destruct (SkipIfExists opts); [| reflexivity].
  rewrite run_bind, run_perform. unfold spec.listing in Hnew.
  rewrite Hnew. cbn [fst snd].
  assert (Hpass : bool_decide (err ≠ None) && negb (IsNotFound err) = false).
  { destruct Herr as [-> | ->]; [reflexivity | apply andb_false_r]. }
  rewrite Hpass, Hnone. reflexivity.
Qed.

(** [MoveCopyTree] hands the leaves to the per-leaf operation in listing
    order and stops at the first one that fails: its error is the result,
    the leaves after it and the root are not touched, and what was done
    to the leaves before it is not undone. *)
Theorem MoveCopyTree_first_error (s s1 s1' s2 s3 : St B)
    (oldRoot newRoot p : string) (opts : MoveCopyOpts) (tree : Secrets)
    (done rest : list string) (e : error) (t1 t2 t3 : list event) :
  answer B _ (ConstructSecrets (Canonicalize oldRoot)
                (spec.listing (Deep opts))) s
  = ((tree, None), s1) →
  run B (MoveCopyTree_skip (Canonicalize oldRoot) (Canonicalize newRoot)
           tree opts) s1
  = (Returned None, s1', t1) →
  Paths tree = done ++ p :: rest →
  run B (apply_each f (Canonicalize oldRoot) (Canonicalize newRoot) opts done)
    s1'
  = (Returned None, s2, t2) →
  run B (f p (strings_Replace1 p (Canonicalize oldRoot) (Canonicalize newRoot))
           opts) s2
  = (Returned (Some e), s3, t3) →
  run B (MoveCopyTree oldRoot newRoot f opts) s
  = (Returned (Some e), s3,
     Event (ConstructSecrets (Canonicalize oldRoot) (spec.listing (Deep opts)))
     :: t1 ++ t2 ++ t3).
Proof.
  intros Hlist Hskip Hpaths Hdone Hp. unfold MoveCopyTree.
  rewrite run_bind, run_perform. unfold spec.listing in Hlist.
  rewrite Hlist. cbn [fst snd].
  rewrite (run_bind_Returned B _ _ _ _ _ _ Hskip). cbn iota beta.
  rewrite run_bind, Hpaths.
  rewrite (apply_each_app _ _ opts done (p :: rest) s1' s2 t2 Hdone).
  cbn [apply_each]. rewrite run_bind, Hp. simpl.
  rewrite !app_nil_r. reflexivity.
Qed.

(** When every leaf went through, [MoveCopyTree] reads the root itself
    and hands it to the per-leaf operation as well, unless the read says
    that nothing is there; a read that fails for another reason does not
    stop it. *)
Theorem MoveCopyTree_root (s s1 s1' s2 s3 : St B)
    (oldRoot newRoot : string) (opts : MoveCopyOpts) (tree : Secrets)
    (found : option Secret) (rerr : option error) (t1 t2 t3 : list event) :
  answer B _ (ConstructSecrets (Canonicalize oldRoot)
                (spec.listing (Deep opts))) s
  = ((tree, None), s1) →
  run B (MoveCopyTree_skip (Canonicalize oldRoot) (Canonicalize newRoot)
           tree opts) s1
  = (Returned None, s1', t1) →
  run B (apply_each f (Canonicalize oldRoot) (Canonicalize newRoot) opts
           (Paths tree)) s1'
  = (Returned None, s2, t2) →
  run B (Read (Canonicalize oldRoot)) s2 = (Returned (found, rerr), s3, t3) →
  run B (MoveCopyTree oldRoot newRoot f opts) s
  = if IsNotFound rerr
    then
      (Returned None, s3,
       Event (ConstructSecrets (Canonicalize oldRoot)
                (spec.listing (Deep opts)))
       :: t1 ++ t2 ++ t3)
    else
      let '(o, s4, t4) :=
        run B (f (Canonicalize oldRoot) (Canonicalize newRoot) opts) s3 in
      (o, s4,
       Event (ConstructSecrets (Canonicalize oldRoot)
                (spec.listing (Deep opts)))
       :: t1 ++ t2 ++ t3 ++ t4).
Proof.
  intros Hlist Hskip Hleaves Hread. unfold MoveCopyTree.
  rewrite run_bind, run_perform. unfold spec.listing in Hlist.
  rewrite Hlist. cbn [fst snd].
  rewrite (run_bind_Returned B _ _ _ _ _ _ Hskip). cbn iota beta.
  rewrite (run_bind_Returned B _ _ _ _ _ _ Hleaves). cbn iota beta.
  rewrite (run_bind_Returned B _ _ _ _ _ _ Hread). cbn iota beta.
  destruct (IsNotFound rerr); cbn [negb].
  - simpl. rewrite !app_nil_r. reflexivity.
  - destruct (run B (f (Canonicalize oldRoot) (Canonicalize newRoot) opts) s3)
      as [[o s4] t4].
    reflexivity.
Qed.

End tree_apply.

Lemma MoveCopyTree_first_error_witness :
  let opts := mkMoveCopyOpts false false true false in
  let s := examples.store_tree_gone in
  let leaves :=
    run mem.backend
      (apply_each Copy (Canonicalize "a") (Canonicalize "c") opts ["a/x"]) s in
  run mem.backend (MoveCopyTree "a" "c" Copy opts) s
  = (Returned (Some (secretNotFound "No living versions for `a/y'")),
     leaves.1.2,
     Event (ConstructSecrets (Canonicalize "a") (spec.listing (Deep opts)))
     :: [] ++ leaves.2
        ++ [Event (client_MountVersion "a/y"); Event (client_Versions "a/y")]).
Proof.
  intros opts s leaves.
  refine (MoveCopyTree_first_error mem.backend Copy s s s leaves.1.2
            leaves.1.2 "a" "c" "a/y" opts
            [mkSecretEntry "a/x" []; mkSecretEntry "a/y" []] ["a/x"] []
            (secretNotFound "No living versions for `a/y'") [] leaves.2
            [Event (client_MountVersion "a/y"); Event (client_Versions "a/y")]
            _ _ _ _ _);
    reflexivity.
Defined.

Lemma MoveCopyTree_root_witness :
  let opts := mkMoveCopyOpts false false false false in
  let s := examples.store_tree in
  let leaves :=
    run mem.backend
      (apply_each Copy (Canonicalize "a") (Canonicalize "c") opts
         ["a/x"; "a/y"]) s in
  let rerr := Some (NewSecretNotFoundError "a") in
  run mem.backend (MoveCopyTree "a" "c" Copy opts) s
  = if IsNotFound rerr
    then
      (Returned None, leaves.1.2,
       Event (ConstructSecrets (Canonicalize "a") (spec.listing (Deep opts)))
       :: [] ++ leaves.2 ++ [Event (client_Get "a" 0)])
    else
      let '(o, s4, t4) :=
        run mem.backend (Copy (Canonicalize "a") (Canonicalize "c") opts)
          leaves.1.2 in
      (o, s4,
       Event (ConstructSecrets (Canonicalize "a") (spec.listing (Deep opts)))
       :: [] ++ leaves.2 ++ [Event (client_Get "a" 0)] ++ t4).
Proof.
  intros opts s leaves rerr.
  refine (MoveCopyTree_root mem.backend Copy s s s leaves.1.2 leaves.1.2
            "a" "c" opts examples.tree_a (Some NewSecret) rerr [] leaves.2
            [Event (client_Get "a" 0)] _ _ _ _);
    reflexivity.
Defined.

(** Copying the folder [a] to [c] copies both leaves and leaves the
    missing node [a] itself alone; the sources are still there. *)
Example MoveCopyTree_runs :
  let opts := mkMoveCopyOpts false false false false in
  let copied :=
    run mem.backend (MoveCopyTree "a" "c" Copy opts) examples.store_tree in
  copied.1.1 = Returned None
  ∧ (mem.exec (Read "c/y:k") copied.1.2).1
    = Returned (Some (mkSecret {[ "k" := "2" ]}), None)
  ∧ (mem.exec (Read "a/y:k") copied.1.2).1
    = Returned (Some (mkSecret {[ "k" := "2" ]}), None).
Proof. split; [| split]; reflexivity. Qed.

(** ** Export and import *)

Section export_import.

Context `{HP : Helpers}.

Lemma foldl_Set_lookup (l : list (string * string)) :
  ∀ acc : Secret,
    NoDup l.*1 →
    ∀ k, data (foldl (fun d kv => Set_ d kv.1 kv.2) acc l) !! k
         = match (list_to_map l : gmap string string) !! k with
           | Some v => Some v
           | None => data acc !! k
           end.
Proof.
  induction l as [| [k0 v0] rest IH]; intros acc Hnd k.
  - cbn [list_to_map foldr foldl]. rewrite lookup_empty. reflexivity.
  - cbn [fmap list_fmap fst] in Hnd. apply NoDup_cons in Hnd as [Hk Hnd].
    cbn [foldl]. rewrite (IH _ Hnd k).
    cbn [list_to_map foldr uncurry fst snd Set_ data].
    destruct (decide (k0 = k)) as [<- | Hne].
    + rewrite (not_elem_of_list_to_map_1 rest k0 Hk).
      rewrite !lookup_insert_eq. reflexivity.
    + rewrite (lookup_insert_ne (list_to_map rest)) by exact Hne.
      destruct (list_to_map rest !! k); [reflexivity |].
      apply lookup_insert_ne. exact Hne.
Qed.

Lemma import_data_value (m : gmap string string) :
  main.import_data m = mkSecret m.
Proof.
  unfold main.import_data.
  destruct (foldl _ NewSecret (map_to_list m)) as [d] eqn:Hd.
  f_equal. apply map_eq. intros k.
  pose proof (foldl_Set_lookup (map_to_list m) NewSecret
                (NoDup_fst_map_to_list m) k) as Hk.
  rewrite Hd in Hk. cbn [data] in Hk. rewrite Hk.
  rewrite list_to_map_to_list.
  destruct (m !! k); [reflexivity | apply lookup_empty].
Qed.

Lemma foldl_Get_lookup (d : gmap string string) (l : list string) :
  ∀ acc : gmap string string,
    (∀ k, k ∈ l → is_Some (d !! k)) →
    ∀ k, foldl (fun value key => <[key := Get (mkSecret d) key]> value) acc l
         !! k
         = if bool_decide (k ∈ l) then d !! k else acc !! k.
Proof.
  induction l as [| k0 rest IH]; intros acc Hin k.
  - reflexivity.
  - cbn [foldl]. rewrite IH by (intros k' Hk'; apply Hin; right; exact Hk').
    destruct (decide (k ∈ rest)) as [Hr | Hr].
    + rewrite (bool_decide_eq_true_2 _ Hr).
      rewrite bool_decide_eq_true_2 by (right; exact Hr). reflexivity.
    + rewrite (bool_decide_eq_false_2 _ Hr).
      destruct (decide (k0 = k)) as [<- | Hne].
      * rewrite lookup_insert_eq.
        rewrite bool_decide_eq_true_2 by left.
        destruct (Hin k0 ltac:(left)) as [v Hv].
        unfold Get. cbn [data]. rewrite Hv. reflexivity.
      * rewrite lookup_insert_ne by exact Hne.
        rewrite bool_decide_eq_false_2; [reflexivity |].
        intros Hk. apply elem_of_cons in Hk as [-> | Hk]; [done | done].
Qed.

Lemma thisVersion_Value (opt : main.ExportOpts) (v : SecretVersion) :
  main.Value (main.thisVersion opt v) = data (Data v).
Proof.
  destruct v as [[d] n st]. cbn [main.thisVersion main.Value Data data Keys].
  apply map_eq. intros k.
  rewrite foldl_Get_lookup.
  - destruct (decide (k ∈ (map_to_list d).*1)) as [Hk | Hk].
    + rewrite (bool_decide_eq_true_2 _ Hk). reflexivity.
    + rewrite (bool_decide_eq_false_2 _ Hk). rewrite lookup_empty.
      symmetry. apply not_elem_of_dom. intros Hd. apply Hk.
      apply elem_of_dom in Hd as [x Hx].
      apply list_elem_of_fmap. exists (k, x).
      split; [reflexivity | apply elem_of_map_to_list; exact Hx].
  - intros k' Hk'. apply list_elem_of_fmap in Hk' as [[k1 x] [-> Hx]].
    apply elem_of_map_to_list in Hx. eauto.
Qed.

Lemma v2Import_after_export (opt : main.ExportOpts) (n : N)
    (vs : list SecretVersion) :
  ∀ (i : nat) (acc : list SecretVersion),
    spec.versions_from (n + N.of_nat i) vs = true →
    (n + N.of_nat i + N.of_nat (length vs) <= 2 ^ 64)%N →
    main.v2Import_versions (main.mkImportOpts false false false) n i
      (main.thisVersion opt <$> vs) acc
    = acc ++ Versions (spec.restored (main.OptDeleted opt)
                         (mkSecretEntry "" vs)).
Proof.
  induction vs as [| v rest IH]; intros i acc Hnum Hbound.
  - cbn. rewrite app_nil_r. reflexivity.
  - cbn [spec.versions_from] in Hnum.
    apply andb_true_iff in Hnum as [Hv Hrest].
    apply N.eqb_eq in Hv.
    cbn [length] in Hbound.
    assert (Hnumber : main.uint_add n (N.of_nat i) = Number v).
    { unfold main.uint_add. rewrite Hv. apply N.mod_small. lia. }
    cbn [fmap list_fmap main.v2Import_versions main.IgnoreDestroyed
         main.IgnoreDeleted].
    rewrite thisVersion_Value, import_data_value, Hnumber.
    assert (Hnext : (n + N.of_nat i + 1 = n + N.of_nat (S i))%N) by lia.
    rewrite Hnext in Hrest.
    assert (Hb : (n + N.of_nat (S i) + N.of_nat (length rest) <= 2 ^ 64)%N)
      by lia.
    cbn [spec.restored Versions fmap list_fmap] in *.
    destruct v as [[d] num st]. cbn [Data data Number State] in *.
    cbn [main.thisVersion main.Destroyed main.Deleted State].
    destruct st, (main.OptDeleted opt);
      repeat case_bool_decide; try congruence; cbn;
      rewrite (IH (S i) _ Hrest Hb); rewrite <- app_assoc; reflexivity.
Qed.

(** The secret that [v2Export] files under the path of an entry. *)
Lemma v2Export_from_data (B : backend) (opt : main.ExportOpts)
    (secrets : Secrets) :
  ∀ export toExport (s : St B),
    forallb (fun e => (0 <? length (Versions e))%nat) secrets = true →
    NoDup (Path <$> secrets) →
    ∃ out s' t,
      run B (main.v2Export_from opt secrets export toExport) s
      = (Returned out, s', t)
      ∧ match secrets with
        | [] => out = toExport
        | _ :: _ =>
            ∃ ex, out = main.toExport_versioned [ex]
              ∧ (∀ p, p ∉ Path <$> secrets →
                      main.Data ex !! p = main.Data export !! p)
              ∧ ∀ e v0, e ∈ secrets → Versions e !! 0%nat = Some v0 →
                  main.Data ex !! Path e
                  = Some {| main.FirstVersion :=
                              if bool_decide (Number v0 = 1%N)
                                 || main.Shallow opt
                              then 0%N else Number v0;
                            main.Versions :=
                              main.thisVersion opt <$> Versions e |}
        end.
Proof.
  induction secrets as [| e rest IH]; intros export toExport s Hne Hnd.
  - simpl. eauto.
  - simpl in Hne. apply andb_true_iff in Hne as [He Hrest].
    cbn [fmap list_fmap] in Hnd. apply NoDup_cons in Hnd as [Hfresh Hnd].
    cbn [main.v2Export_from]. rewrite run_bind.
    set (first :=
      if (1 <? length (Versions e))%nat
      then bind (perform (client_MountPath (Path e))) _
      else Ret export).
    assert (Hfirst : ∃ export' s1 t1,
               run B first s = (Returned export', s1, t1)
               ∧ main.Data export' = main.Data export).
    { subst first. destruct (1 <? length (Versions e))%nat.
      - simpl. destruct (answer B _ (client_MountPath (Path e)) s)
          as [[mount err] s1]. simpl. eauto.
      - simpl. eauto. }
    destruct Hfirst as (export' & s1 & t1 & Hrun & Hdata). rewrite Hrun.
    destruct (Versions e) as [| v0 vs] eqn:Hvs; [discriminate |].
    cbn [lookup list_lookup].
    match goal with
    | |- context [main.v2Export_from opt rest ?ex ?te] =>
        destruct (IH ex te s1 Hrest Hnd) as (out & s2 & t2 & Hrec & Hout);
        rewrite Hrec; set (mine := ex) in *
    end.
    exists out, s2, (t1 ++ t2). split; [reflexivity |].
    assert (Hmine : ∀ p, p ≠ Path e →
              main.Data mine !! p = main.Data export !! p).
    { intros p Hp. subst mine. cbn [main.Data].
      rewrite lookup_insert_ne by (intros Heq; apply Hp; symmetry; exact Heq).
      rewrite Hdata. reflexivity. }
    assert (Hhere : main.Data mine !! Path e
              = Some {| main.FirstVersion :=
                          if bool_decide (Number v0 = 1%N) || main.Shallow opt
                          then 0%N else Number v0;
                        main.Versions :=
                          main.thisVersion opt <$> (v0 :: vs) |}).
    { subst mine. cbn [main.Data]. apply lookup_insert_eq. }
    destruct rest as [| e' rest'].
    + subst out. exists mine. split; [reflexivity |]. split.
      * intros p Hp. apply Hmine. intros ->. apply Hp. left.
      * intros e1 v1 He1 Hv1. apply list_elem_of_singleton in He1. subst e1.
        rewrite Hvs in Hv1. inversion Hv1; subst v1. rewrite Hvs.
        exact Hhere.
    + destruct Hout as (ex & Hout & Hother & Hin). exists ex.
      split; [exact Hout |]. split.
      * intros p Hp. rewrite Hother.
        -- apply Hmine. intros ->. apply Hp. left.
        -- intros Hp'. apply Hp. right. exact Hp'.
      * intros e1 v1 He1 Hv1. apply elem_of_cons in He1 as [-> | He1].
        -- rewrite Hother by exact Hfresh.
           rewrite Hvs in Hv1. inversion Hv1; subst v1. rewrite Hvs.
           exact Hhere.
        -- apply Hin; assumption.
Qed.

(** What [export --all] writes for a fetched collection, [import] reads
    back: for every entry of the collection the file has a secret under
    its path, and the entry that [import] builds from it has the same
    path, the same version numbers and the same data; the states are the
    same too, but that a deleted version exported without [--deleted]
    comes back destroyed. *)
Theorem export_import_round_trip (B : backend) (s : St B)
    (opt : main.ExportOpts) (secrets : Secrets) :
  main.Shallow opt = false →
  secrets ≠ [] →
  forallb spec.exportable secrets = true →
  NoDup (Path <$> secrets) →
  ∃ ex s' t,
    run B (main.v2Export opt secrets main.toExport_nil) s
    = (Returned (main.toExport_versioned [ex]), s', t)
    ∧ ∀ e, e ∈ secrets →
        ∃ sec,
          main.Data ex !! Path e = Some sec
          ∧ main.v2Import_entry (main.mkImportOpts false false false)
              (Path e) sec
            = Ret (spec.restored (main.OptDeleted opt) e).
Proof.
  intros Hshallow Hsome Hall Hnd.
  assert (Hne : forallb (fun e => (0 <? length (Versions e))%nat) secrets
                = true).
  { apply forallb_forall. intros e He.
    rewrite forallb_forall in Hall. specialize (Hall e He).
    unfold spec.exportable in Hall.
    destruct (Versions e); [discriminate | reflexivity]. }
  unfold main.v2Export.
  destruct (v2Export_from_data B opt secrets
              {| main.ExportVersion := 2; main.Data := ∅;
                 main.RequiresVersioning := ∅ |}
              main.toExport_nil s Hne Hnd) as (out & s' & t & Hrun & Hout).
  destruct secrets as [| e0 rest]; [done |].
  destruct Hout as (ex & -> & _ & Hin).
  exists ex, s', t. split; [exact Hrun |].
  intros e He.
  rewrite forallb_forall in Hall.
  pose proof (Hall e (proj1 (list_elem_of_In _ _) He)) as Hexp.
  unfold spec.exportable in Hexp.
  destruct (Versions e) as [| v0 vs] eqn:Hvs; [discriminate |].
  apply andb_true_iff in Hexp as [Hexp Hbound].
  apply andb_true_iff in Hexp as [Hpos Hnum].
  apply N.ltb_lt in Hpos, Hbound.
  eexists. split.
  - apply (Hin e v0 He). rewrite Hvs. reflexivity.
  - rewrite Hvs, Hshallow, orb_false_r.
    unfold main.v2Import_entry.
    cbn [main.FirstVersion main.Versions main.ImportShallow bind].
    assert (Hfirst :
      (if (if bool_decide (Number v0 = 1%N) then 0 else Number v0) =? 0
       then 1 else if bool_decide (Number v0 = 1%N) then 0 else Number v0)%N
      = Number v0).
    { destruct (decide (Number v0 = 1%N)) as [H1 | H1].
      - rewrite (bool_decide_eq_true_2 _ H1). simpl. symmetry. exact H1.
      - rewrite (bool_decide_eq_false_2 _ H1).
        destruct (N.eqb_spec (Number v0) 0); [lia | reflexivity]. }
    rewrite Hfirst.
    rewrite (v2Import_after_export opt (Number v0) (v0 :: vs) 0 []).
    + unfold spec.restored. rewrite Hvs. reflexivity.
    + rewrite N.add_0_r. exact Hnum.
    + lia.
Qed.

End export_import.

Lemma export_import_round_trip_witness :
  let opt := main.mkExportOpts false true in
  ∃ ex s' t,
    run mem.backend (main.v2Export opt examples.tree_ab main.toExport_nil)
      examples.store_345
    = (Returned (main.toExport_versioned [ex]), s', t)
    ∧ ∀ e, e ∈ examples.tree_ab →
        ∃ sec,
          main.Data ex !! Path e = Some sec
          ∧ main.v2Import_entry (main.mkImportOpts false false false)
              (Path e) sec
            = Ret (spec.restored (main.OptDeleted opt) e).
Proof.
  intros opt.
  refine (export_import_round_trip mem.backend examples.store_345 opt
            examples.tree_ab _ _ _ _).
  - reflexivity.
  - discriminate.
  - reflexivity.
  - apply (bool_decide_eq_true_1 (NoDup _)). reflexivity.
Defined.

(** Without [--deleted] the deleted first version of [a/c] is exported
    as destroyed and comes back destroyed; a shallow export drops the
    number of the first version, so the import counts from 1. *)
Example export_import_boundaries :
  let c23 : SecretEntry :=
    {| Path := "a/c";
       Versions :=
         [ {| Data := mkSecret {[ "k" := "old" ]}; Number := 2;
              State := SecretStateDeleted |};
           {| Data := mkSecret {[ "k" := "new" ]}; Number := 3;
              State := SecretStateAlive |} ] |} in
  let back opt :=
    match (mem.exec (main.v2Export opt [c23] main.toExport_nil)
             examples.store_345).1 with
    | Returned (main.toExport_versioned [ex]) =>
        match main.Data ex !! "a/c" with
        | Some sec =>
            main.v2Import_entry (main.mkImportOpts false false false)
              "a/c" sec
        | None => Panic "no secret"
        end
    | _ => Panic "no export"
    end in
  back (main.mkExportOpts false false) = Ret (spec.restored false c23)
  ∧ (State <$> Versions (spec.restored false c23))
    = [SecretStateDestroyed; SecretStateAlive]
  ∧ (∃ e, back (main.mkExportOpts true true) = Ret e
          ∧ (Number <$> Versions e) = [1%N; 2%N]).
Proof.
  split; [reflexivity |]. split; [reflexivity |].
  eexists. split; reflexivity.
Qed.

Section import_file.

Context `{HP : Helpers}.

Lemma v2Import_versions_acc (opt : main.ImportOpts) (first : N)
    (versions : list main.exportVersion) :
  ∀ (i : nat) (acc : list SecretVersion),
    main.v2Import_versions opt first i versions acc
    = acc ++ main.v2Import_versions opt first i versions [].
Proof.
  induction versions as [| ev rest IH]; intros i acc.
  - cbn. rewrite app_nil_r. reflexivity.
  - cbn [main.v2Import_versions].
    destruct (main.Destroyed ev), (main.Deleted ev),
      (main.IgnoreDestroyed opt), (main.IgnoreDeleted opt);
      try apply IH;
      rewrite (IH _ (acc ++ _)), (IH _ ([] ++ _)), <- app_assoc;
      reflexivity.
Qed.

Lemma v2Import_versions_elem (opt : main.ImportOpts) (first : N)
    (v : SecretVersion) (versions : list main.exportVersion) :
  ∀ (j : nat),
    v ∈ main.v2Import_versions opt first j versions [] →
    ∃ (i : nat) (ev : main.exportVersion),
      versions !! i = Some ev
      ∧ Number v = main.uint_add first (N.of_nat (j + i))
      ∧ Data v = mkSecret (main.Value ev)
      ∧ State v = (if main.Destroyed ev then SecretStateDestroyed
                   else if main.Deleted ev then SecretStateDeleted
                   else SecretStateAlive)
      ∧ (main.IgnoreDestroyed opt = true → State v ≠ SecretStateDestroyed)
      ∧ (main.IgnoreDeleted opt = true → State v ≠ SecretStateDeleted).
Proof.
  induction versions as [| ev rest IH]; intros j Hin.
- cbn in Hin. apply elem_of_nil in Hin. done.
- assert (Hlater : v ∈ main.v2Import_versions opt first (S j) rest [] →
    ∃ (i : nat) (ev' : main.exportVersion),
      (ev :: rest) !! i = Some ev'
      ∧ Number v = main.uint_add first (N.of_nat (j + i))
      ∧ Data v = mkSecret (main.Value ev')
      ∧ State v = (if main.Destroyed ev' then SecretStateDestroyed
                   else if main.Deleted ev' then SecretStateDeleted
                   else SecretStateAlive)
      ∧ (main.IgnoreDestroyed opt = true
         → State v ≠ SecretStateDestroyed)
      ∧ (main.IgnoreDeleted opt = true → State v ≠ SecretStateDeleted)).
  { intros Hrest. destruct (IH (S j) Hrest) as (i & ev' & Hi & Hn & Hrem).
    exists (S i), ev'. split; [exact Hi |]. split; [| exact Hrem].
    rewrite Hn. do 2 f_equal. lia. }
  cbn [main.v2Import_versions] in Hin.
  destruct (main.Destroyed ev) eqn:Hdes.
  + destruct (main.IgnoreDestroyed opt) eqn:Hid; [auto |].
    rewrite v2Import_versions_acc in Hin.
    apply elem_of_app in Hin as [Hhere | Hrest]; [| auto].
    cbn in Hhere. apply list_elem_of_singleton in Hhere. subst v.
    exists 0%nat, ev. cbn [lookup list_lookup Number Data State].
    rewrite Hdes, import_data_value, Nat.add_0_r.
    repeat split; try reflexivity; try discriminate.
  + destruct (main.Deleted ev) eqn:Hdel.
    * destruct (main.IgnoreDeleted opt) eqn:Hid; [auto |].
      rewrite v2Import_versions_acc in Hin.
      apply elem_of_app in Hin as [Hhere | Hrest]; [| auto].
      cbn in Hhere. apply list_elem_of_singleton in Hhere. subst v.
      exists 0%nat, ev. cbn [lookup list_lookup Number Data State].
      rewrite Hdes, Hdel, import_data_value, Nat.add_0_r.
      repeat split; try reflexivity; try discriminate.
    * rewrite v2Import_versions_acc in Hin.
      apply elem_of_app in Hin as [Hhere | Hrest]; [| auto].
      cbn in Hhere. apply list_elem_of_singleton in Hhere. subst v.
      exists 0%nat, ev. cbn [lookup list_lookup Number Data State].
      rewrite Hdes, Hdel, import_data_value, Nat.add_0_r.
      repeat split; try reflexivity; try discriminate.
Qed.

(** Every version of the entry that [import] builds for a secret of the
    file, and hands to the store under the path of that secret, stands
    for one version of the file: it carries its data, and its state is
    destroyed, deleted or alive as the file flags it (destroyed wins).
    Without [--shallow] its number is the first number of the secret (1
    when the file gives none) plus its position in the file, so that a
    version left out with [--ignore-destroyed] or [--ignore-deleted]
    leaves a gap in the numbering rather than moving the later versions
    down.  With [--shallow] only the last version of the file is looked
    at, and it gets the first number itself.  No version of a state that
    is ignored is written. *)
Theorem v2Import_entry_versions (opt : main.ImportOpts) (path : string)
    (secret : main.exportSecret) (e : SecretEntry) (v : SecretVersion) :
  main.v2Import_entry opt path secret = Ret e →
  v ∈ Versions e →
  let first :=
    if main.FirstVersion secret =? 0 then 1 else main.FirstVersion secret in
  Path e = path
  ∧ ∃ (i : nat) (ev : main.exportVersion),
      main.Versions secret !! i = Some ev
      ∧ (main.ImportShallow opt = true
         → S i = length (main.Versions secret))
      ∧ Number v
        = main.uint_add first
            (if main.ImportShallow opt then 0 else N.of_nat i)
      ∧ Data v = mkSecret (main.Value ev)
      ∧ State v = (if main.Destroyed ev then SecretStateDestroyed
                   else if main.Deleted ev then SecretStateDeleted
                   else SecretStateAlive)
      ∧ (main.IgnoreDestroyed opt = true → State v ≠ SecretStateDestroyed)
      ∧ (main.IgnoreDeleted opt = true → State v ≠ SecretStateDeleted).
Proof.
  intros He Hin first. unfold main.v2Import_entry in He. fold first in He.
  destruct (main.ImportShallow opt) eqn:Hshallow.
  - destruct (main.Versions secret) as [| ev0 rest] eqn:Hvs;
      [discriminate |].
    cbn [bind] in He. injection He as <-. cbn [Versions Path] in *.
    split; [reflexivity |].
    destruct (v2Import_versions_elem opt first v _ 0%nat Hin)
      as (i & ev & Hi & Hn & Hrest).
    rewrite lookup_drop in Hi.
    assert (Hzero : i = 0%nat).
    { apply lookup_lt_Some in Hi. cbn [length] in *. lia. }
    subst i. rewrite Nat.add_0_r in Hi.
    exists (length (ev0 :: rest) - 1)%nat, ev.
    split; [exact Hi |]. split; [intros _; cbn [length]; lia |].
    split; [exact Hn | exact Hrest].
  - cbn [bind] in He. injection He as <-. cbn [Versions Path] in *.
    split; [reflexivity |].
    destruct (v2Import_versions_elem opt first v _ 0%nat Hin)
      as (i & ev & Hi & Hn & Hrest).
    exists i, ev. split; [exact Hi |]. split; [discriminate |].
    split; [exact Hn | exact Hrest].
Qed.

Lemma v2Import_mounts_readonly (mounts : list (string * bool)) :
  never any_mutation (main.v2Import_mounts mounts).
Proof.
  induction mounts as [| [mount needs] rest IH]; [constructor |].
  cbn [main.v2Import_mounts]. destruct needs; [| exact IH].
  apply never_bind.
  - unfold MountVersion. apply never_perform. reflexivity.
  - intros [mountVersion err]. destruct err; [constructor |].
    destruct (bool_decide (mountVersion ≠ 2%N)); [constructor | exact IH].
Qed.

(** An import that is not shallow asks for the version of every mount
    that the file flags as in need of versioning before it writes
    anything: when that check fails, its error is the result of the
    import and no mutating call has been made. *)
Theorem v2Import_checks_first (B : backend) (s s1 : St B)
    (opt : main.ImportOpts) (data : main.exportFormat) (e : error)
    (t1 : list event) :
  main.ImportShallow opt = false →
  run B (main.v2Import_mounts (map_to_list (main.RequiresVersioning data))) s
  = (Returned (Some e), s1, t1) →
  run B (main.v2Import opt [data]) s = (Returned (Some e), s1, t1)
  ∧ trace_free any_mutation t1.
Proof.
  intros Hshallow Hcheck. split.
  - unfold main.v2Import. rewrite Hshallow. cbn [negb].
    rewrite (run_bind_Returned B _ _ _ _ _ _ Hcheck). cbn iota beta.
    simpl. rewrite app_nil_r. reflexivity.
  - pose proof (never_run any_mutation B _ s
                  (v2Import_mounts_readonly
                     (map_to_list (main.RequiresVersioning data)))) as Hfree.
    rewrite Hcheck in Hfree. exact Hfree.
Qed.

(** With [--all] the [undelete] handler does not look at the answer of
    the backend to its one [Undelete] call: once the versions of the
    secret are listed, it goes on to the next path whatever that answer
    is, and a failed undelete is reported as success. *)
Theorem undelete_all_ignores_answer (B : backend) (s s1 s2 : St B)
    (path secret : string) (rest : list string)
    (respVersions : list KVVersion) (uerr : option error)
    (t1 : list event) :
  ParsePath path = (secret, "", 0%N) →
  run B (Vault_Versions secret) s = (Returned (respVersions, None), s1, t1) →
  answer B _ (client_Undelete path (Version <$> respVersions)) s1
  = (uerr, s2) →
  run B (main.undelete_paths true (path :: rest)) s
  = let '(o, s3, t3) := run B (main.undelete_paths true rest) s2 in
    (o, s3,
     t1 ++ Event (client_Undelete path (Version <$> respVersions)) :: t3).
Proof.
  intros HP1 Hvers Hun. cbn [main.undelete_paths]. rewrite HP1.
  rewrite bool_decide_eq_false_2 by (intros Hn; apply Hn; reflexivity).
  cbn [N.ltb N.compare].
  rewrite (run_bind_Returned B _ _ _ _ _ _ Hvers). cbn iota beta.
  rewrite run_bind, run_perform, Hun. cbn [fst snd].
  destruct (run B (main.undelete_paths true rest) s2) as [[o s3] t3].
  reflexivity.
Qed.

End import_file.

Lemma v2Import_entry_versions_witness :
  let secret :=
    main.mkExportSecret 3
      [ main.mkExportVersion false false {[ "k" := "1" ]};
        main.mkExportVersion false true ∅;
        main.mkExportVersion false false {[ "k" := "3" ]} ] in
  let opt := main.mkImportOpts true false false in
  let v : SecretVersion :=
    {| Data := mkSecret {[ "k" := "3" ]}; Number := 5;
       State := SecretStateAlive |} in
  let e : SecretEntry :=
    {| Path := "secret/foo";
       Versions :=
         [ {| Data := mkSecret {[ "k" := "1" ]}; Number := 3;
              State := SecretStateAlive |}; v ] |} in
  Path e = "secret/foo"
  ∧ ∃ (i : nat) (ev : main.exportVersion),
      main.Versions secret !! i = Some ev
      ∧ (main.ImportShallow opt = true
         → S i = length (main.Versions secret))
      ∧ Number v
        = main.uint_add 3 (if main.ImportShallow opt then 0 else N.of_nat i)
      ∧ Data v = mkSecret (main.Value ev)
      ∧ State v = (if main.Destroyed ev then SecretStateDestroyed
                   else if main.Deleted ev then SecretStateDeleted
                   else SecretStateAlive)
      ∧ (main.IgnoreDestroyed opt = true → State v ≠ SecretStateDestroyed)
      ∧ (main.IgnoreDeleted opt = true → State v ≠ SecretStateDeleted).
Proof.
  intros secret opt v e.
  refine (v2Import_entry_versions opt "secret/foo" secret e v _ _).
  - reflexivity.
  - apply (list_elem_of_lookup_2 _ 1%nat). reflexivity.
Defined.

(** The same file imported with [--shallow]: the one version that is
    written has the data of the last version of the file and the first
    number of the secret. *)
Example v2Import_entry_shallow :
  main.v2Import_entry (main.mkImportOpts false false true) "secret/foo"
    (main.mkExportSecret 3
       [ main.mkExportVersion false false {[ "k" := "1" ]};
         main.mkExportVersion false true ∅;
         main.mkExportVersion false false {[ "k" := "3" ]} ])
  = Ret {| Path := "secret/foo";
           Versions :=
             [ {| Data := mkSecret {[ "k" := "3" ]}; Number := 3;
                  State := SecretStateAlive |} ] |}
  ∧ main.v2Import_entry (main.mkImportOpts false false true) "secret/foo"
      (main.mkExportSecret 3 [])
    = Panic "runtime error: slice bounds out of range [-1:]".
Proof. split; reflexivity. Qed.

Lemma v2Import_checks_first_witness :
  let data :=
    {| main.ExportVersion := 2;
       main.Data :=
         {[ "secret/foo" :=
              main.mkExportSecret 0
                [ main.mkExportVersion false false {[ "k" := "1" ]};
                  main.mkExportVersion false false {[ "k" := "2" ]} ] ]};
       main.RequiresVersioning := {[ "secret" := true ]} |} in
  let e :=
    errorString
      ("Export for mount `secret' has secrets with multiple versions,"
       ++ " but the mount either" ++ nl
       ++ "does not exist or does not support versioning")%string in
  let t1 := [Event (client_MountVersion "secret")] in
  run (mem.backend_on_mount 1)
    (main.v2Import (main.mkImportOpts false false false) [data])
    examples.store_345
  = (Returned (Some e), examples.store_345, t1)
  ∧ trace_free any_mutation t1.
Proof.
  intros data e t1.
  refine (v2Import_checks_first (mem.backend_on_mount 1) examples.store_345
            examples.store_345 (main.mkImportOpts false false false) data e
            t1 _ _);
    reflexivity.
Defined.

Lemma undelete_all_ignores_answer_witness :
  let c := client_Undelete "secret/foo" (Version <$> examples.records_345) in
  (answer mem.backend_no_undelete _ c examples.store_345).1
  = Some (kvError "403 permission denied")
  ∧ run mem.backend_no_undelete (main.undelete_paths true ["secret/foo"])
      examples.store_345
    = let '(o, s3, t3) :=
        run mem.backend_no_undelete (main.undelete_paths true [])
          examples.store_345 in
      (o, s3, [Event (client_Versions "secret/foo")] ++ Event c :: t3).
Proof.
  intros c. split; [reflexivity |].
  refine (undelete_all_ignores_answer mem.backend_no_undelete
            examples.store_345 examples.store_345 examples.store_345
            "secret/foo" "secret/foo" [] examples.records_345
            (Some (kvError "403 permission denied"))
            [Event (client_Versions "secret/foo")] _ _ _);
    reflexivity.
Defined.

(** Under a token that may not undelete, [undelete --all] reports
    success, while [undelete] of the one deleted version reports the
    refusal. *)
Example undelete_all_reports_success :
  (run mem.backend_no_undelete (main.undelete_paths true ["secret/foo"])
     examples.store_345).1.1
  = Returned None
  ∧ (run mem.backend_no_undelete (main.undelete_paths false ["secret/foo^4"])
       examples.store_345).1.1
    = Returned (Some (kvError "403 permission denied")).
Proof. split; reflexivity. Qed.

(** * Properties of package [vaultsync] *)

Section sync_counts.

Context {V : Type} `{EqDecision V}.

Lemma int_add_exact (a b : Z) :
  (- 2 ^ 63 <= a + b < 2 ^ 63)%Z → vaultsync.int_add a b = (a + b)%Z.
Proof.
  intros Hr. unfold vaultsync.int_add.
  rewrite Z.mod_small by lia. lia.
Qed.

Lemma Counts_range_exact (changes : list (@vaultsync.Change V)) :
  ∀ adds modifies deletes : Z,
    (0 <= adds)%Z → (0 <= modifies)%Z → (0 <= deletes)%Z →
    (adds + modifies + deletes + Z.of_nat (length changes) < 2 ^ 63)%Z →
    vaultsync.Counts_range changes adds modifies deletes
    = ((adds + Z.of_nat (spec.count_type vaultsync.ChangeAdd changes))%Z,
       (modifies
        + Z.of_nat (spec.count_type vaultsync.ChangeModify changes))%Z,
       (deletes
        + Z.of_nat (spec.count_type vaultsync.ChangeDelete changes))%Z).
Proof.
  induction changes as [| c rest IH]; intros adds modifies deletes Ha Hm Hd Hb.
  - cbn. rewrite !Z.add_0_r. reflexivity.
  - cbn [length] in Hb. cbn [vaultsync.Counts_range].
    unfold spec.count_type in *. cbn [List.filter].
    destruct (vaultsync.Type_ c); cbn [length].
    + rewrite IH by lia. reflexivity.
    + rewrite int_add_exact by lia. rewrite IH by lia. rewrite !pair_equal_spec. repeat split; lia.
    + rewrite int_add_exact by lia. rewrite IH by lia. rewrite !pair_equal_spec. repeat split; lia.
    + rewrite int_add_exact by lia. rewrite IH by lia. rewrite !pair_equal_spec. repeat split; lia.
Qed.

Lemma count_type_total (changes : list (@vaultsync.Change V)) :
  (spec.count_type vaultsync.ChangeNone changes
   + spec.count_type vaultsync.ChangeAdd changes
   + spec.count_type vaultsync.ChangeModify changes
   + spec.count_type vaultsync.ChangeDelete changes)%nat
  = length changes.
Proof.
  induction changes as [| c rest IH]; [reflexivity |].
  unfold spec.count_type in *. cbn [List.filter length].
  destruct (vaultsync.Type_ c); cbn [length]; lia.
Qed.

Lemma Counts_of_changes (cs : @vaultsync.ChangeSet V) :
  (Z.of_nat (length (vaultsync.Changes cs)) < 2 ^ 63)%Z →
  vaultsync.Counts cs
  = (Z.of_nat (spec.count_type vaultsync.ChangeAdd (vaultsync.Changes cs)),
     Z.of_nat (spec.count_type vaultsync.ChangeModify (vaultsync.Changes cs)),
     Z.of_nat (spec.count_type vaultsync.ChangeDelete (vaultsync.Changes cs))).
Proof.
  intros Hlen. unfold vaultsync.Counts.
  rewrite Counts_range_exact by lia. reflexivity.
Qed.

Lemma counted_changes (l : list (@vaultsync.Change V)) :
  (0 < Z.of_nat (spec.count_type vaultsync.ChangeAdd l)
       + Z.of_nat (spec.count_type vaultsync.ChangeModify l)
       + Z.of_nat (spec.count_type vaultsync.ChangeDelete l))%Z
  ↔ ∃ c, c ∈ l ∧ vaultsync.Type_ c ≠ vaultsync.ChangeNone.
Proof.
  induction l as [| c rest IH].
  - cbn. split; [lia |]. intros (c & Hc & _). apply elem_of_nil in Hc. done.
  - unfold spec.count_type in *. cbn [List.filter].
    destruct (vaultsync.Type_ c) eqn:Ht; cbn [length].
    + rewrite IH. split.
      * intros (c' & Hc' & Hn). exists c'. split; [right; exact Hc' | exact Hn].
      * intros (c' & Hc' & Hn). apply elem_of_cons in Hc' as [-> | Hc'].
        -- congruence.
        -- exists c'. split; assumption.
    + split; [| lia]. intros _. exists c. split; [left | congruence].
    + split; [| lia]. intros _. exists c. split; [left | congruence].
    + split; [| lia]. intros _. exists c. split; [left | congruence].
Qed.

Lemma HasChanges_some (cs : @vaultsync.ChangeSet V) :
  (Z.of_nat (length (vaultsync.Changes cs)) < 2 ^ 63)%Z →
  vaultsync.HasChanges cs = true
  ↔ ∃ c, c ∈ vaultsync.Changes cs
         ∧ vaultsync.Type_ c ≠ vaultsync.ChangeNone.
Proof.
  intros Hlen. unfold vaultsync.HasChanges.
  rewrite (Counts_of_changes cs Hlen).
  pose proof (count_type_total (vaultsync.Changes cs)) as Htot.
  rewrite (int_add_exact (Z.of_nat _) (Z.of_nat _)) by lia.
  rewrite int_add_exact by lia.
  rewrite Z.ltb_lt. apply counted_changes.
Qed.

(** [Counts] returns the numbers of additions, of modifications and of
    deletions of the change set, and [HasChanges] tells whether some
    change is not [ChangeNone]; the 64 bits of the counters are enough
    for every change set that a slice can hold. *)
Theorem Counts_exact (cs : @vaultsync.ChangeSet V) :
  (Z.of_nat (length (vaultsync.Changes cs)) < 2 ^ 63)%Z →
  vaultsync.Counts cs
  = (Z.of_nat (spec.count_type vaultsync.ChangeAdd (vaultsync.Changes cs)),
     Z.of_nat (spec.count_type vaultsync.ChangeModify (vaultsync.Changes cs)),
     Z.of_nat (spec.count_type vaultsync.ChangeDelete (vaultsync.Changes cs)))
  ∧ (vaultsync.HasChanges cs = true
     ↔ ∃ c, c ∈ vaultsync.Changes cs
            ∧ vaultsync.Type_ c ≠ vaultsync.ChangeNone).
Proof.
  intros Hlen. split.
  - apply Counts_of_changes. exact Hlen.
  - apply HasChanges_some. exact Hlen.
Qed.

Lemma mapsEqual_range_spec (b : gmap string V) (l : list (string * V)) :
  vaultsync.mapsEqual_range l b = true
  ↔ ∀ k va, (k, va) ∈ l → b !! k = Some va.
Proof.
  induction l as [| [k va] rest IH].
  - cbn. split; [| reflexivity]. intros _ k va Hin.
    apply elem_of_nil in Hin. done.
  - cbn [vaultsync.mapsEqual_range]. split.
    + intros Hrun k' va' Hin.
      destruct (b !! k) as [vb |] eqn:Hb; [| discriminate].
      unfold vaultsync.ValuesEqual in Hrun.
      destruct (decide (va = vb)) as [-> | Hne].
      * rewrite bool_decide_eq_true_2 in Hrun by reflexivity.
        cbn [negb] in Hrun.
        apply elem_of_cons in Hin as [Heq | Hin].
        -- inversion Heq; subst. exact Hb.
        -- apply (proj1 IH Hrun). exact Hin.
      * rewrite bool_decide_eq_false_2 in Hrun by exact Hne. discriminate.
    + intros Hall. rewrite (Hall k va) by left.
      unfold vaultsync.ValuesEqual.
      rewrite bool_decide_eq_true_2 by reflexivity. cbn [negb].
      apply IH. intros k' va' Hin. apply Hall. right. exact Hin.
Qed.

Lemma mapsEqual_sound (a b : gmap string V) :
  vaultsync.mapsEqual a b = true → a = b.
Proof.
  unfold vaultsync.mapsEqual. intros Hrun.
  destruct (decide (size a = size b)) as [Hsize | Hsize].
  - rewrite bool_decide_eq_false_2 in Hrun by (intros Hn; apply Hn; exact Hsize).
    apply map_subseteq_size_eq; [| lia].
    apply map_subseteq_spec. intros k va Hk.
    apply (proj1 (mapsEqual_range_spec b _) Hrun).
    apply elem_of_map_to_list. exact Hk.
  - rewrite bool_decide_eq_true_2 in Hrun by exact Hsize. discriminate.
Qed.

Lemma mapsEqual_refl (a : gmap string V) : vaultsync.mapsEqual a a = true.
Proof.
  unfold vaultsync.mapsEqual.
  rewrite bool_decide_eq_false_2 by (intros Hn; apply Hn; reflexivity).
  apply mapsEqual_range_spec. intros k va Hin.
  apply elem_of_map_to_list. exact Hin.
Qed.

(** [mapsEqual] decides the equality of two maps: the same keys, bound
    to equal values. *)
Theorem mapsEqual_eq (a b : gmap string V) :
  vaultsync.mapsEqual a b = true ↔ a = b.
Proof.
  split.
  - apply mapsEqual_sound.
  - intros <-. apply mapsEqual_refl.
Qed.

End sync_counts.

(** ** The byte order of strings *)

Lemma Ascii_compare_Lt_trans (x y z : ascii) :
  Ascii.compare x y = Lt → Ascii.compare y z = Lt → Ascii.compare x z = Lt.
Proof.
  unfold Ascii.compare. rewrite !N.compare_lt_iff. apply N.lt_trans.
Qed.

Lemma String_compare_Lt_trans (a : string) :
  ∀ b c : string,
    String.compare a b = Lt → String.compare b c = Lt →
    String.compare a c = Lt.
Proof.
  induction a as [| x a IH]; intros [| y b] [| z c]; cbn;
    try discriminate; try reflexivity.
  destruct (Ascii.compare x y) eqn:Hxy; try discriminate.
  - apply Ascii.compare_eq_iff in Hxy. subst y.
    destruct (Ascii.compare x z); try discriminate.
    + apply IH.
    + reflexivity.
  - intros _. destruct (Ascii.compare y z) eqn:Hyz; try discriminate.
    + apply Ascii.compare_eq_iff in Hyz. subst z. rewrite Hxy. reflexivity.
    + rewrite (Ascii_compare_Lt_trans x y z Hxy Hyz). reflexivity.
Qed.

Lemma String_leb_spec (a b : string) :
  String.leb a b = true ↔ String.compare a b = Lt ∨ a = b.
Proof.
  unfold String.leb. destruct (String.compare a b) eqn:Hab.
  - apply String.compare_eq_iff in Hab. tauto.
  - tauto.
  - split; [discriminate |]. intros [Hlt | ->]; [discriminate |].
    assert (Hrefl : String.compare b b = Eq).
    { clear Hab. induction b as [| x b IH]; [reflexivity |]. cbn.
      unfold Ascii.compare. rewrite N.compare_refl. exact IH. }
    congruence.
Qed.

#[local] Instance String_leb_trans :
  Transitive (fun a b : string => String.leb a b : Prop).
Proof.
  intros a b c Hab Hbc. apply Is_true_true in Hab, Hbc. apply Is_true_true.
  apply String_leb_spec in Hab, Hbc. apply String_leb_spec.
  destruct Hab as [Hab | ->]; [| exact Hbc].
  destruct Hbc as [Hbc | <-]; [| left; exact Hab].
  left. exact (String_compare_Lt_trans a b c Hab Hbc).
Qed.

#[local] Instance String_leb_total :
  Total (fun a b : string => String.leb a b : Prop).
Proof.
  intros a b. destruct (String.leb_total a b) as [Hl | Hr].
  - left. apply Is_true_true. exact Hl.
  - right. apply Is_true_true. exact Hr.
Qed.

Section sync_changes.

Context {V : Type} `{EqDecision V}.

Lemma ComputeChanges_range_app (lm remote : gmap string (gmap string V))
    (sorted : list string) :
  ∀ acc : list (@vaultsync.Change V),
    vaultsync.ComputeChanges_range lm remote sorted acc
    = acc ++ vaultsync.ComputeChanges_range lm remote sorted [].
Proof.
  induction sorted as [| p rest IH]; intros acc.
  - cbn. rewrite app_nil_r. reflexivity.
  - cbn [vaultsync.ComputeChanges_range].
    destruct (lm !! p) as [l |], (remote !! p) as [r |];
      try destruct (vaultsync.mapsEqual l r);
      try apply IH;
      cbn [app]; rewrite (IH (acc ++ _)), (IH [_]), app_assoc; reflexivity.
Qed.

Lemma ComputeChanges_range_sound (lm remote : gmap string (gmap string V))
    (sorted : list string) (c : @vaultsync.Change V) :
  c ∈ vaultsync.ComputeChanges_range lm remote sorted [] →
  vaultsync.Path c ∈ sorted ∧ spec.classified lm remote c.
Proof.
  induction sorted as [| p rest IH]; intros Hin.
  - cbn in Hin. apply elem_of_nil in Hin. done.
  - cbn [vaultsync.ComputeChanges_range] in Hin.
    rewrite ComputeChanges_range_app in Hin.
    apply elem_of_app in Hin as [Hhere | Hrest].
    + assert (Hc : vaultsync.Path c = p ∧ spec.classified lm remote c).
      { unfold spec.classified.
        destruct (lm !! p) as [l |] eqn:Hl, (remote !! p) as [r |] eqn:Hr.
        - destruct (vaultsync.mapsEqual l r) eqn:Heq;
            cbn in Hhere; apply list_elem_of_singleton in Hhere; subst c;
            cbn; (split; [reflexivity |]); repeat split; try assumption.
          + apply mapsEqual_sound. exact Heq.
          + intros Hlr. rewrite Hlr, mapsEqual_refl in Heq. discriminate.
        - cbn in Hhere. apply list_elem_of_singleton in Hhere. subst c.
          cbn. repeat split; assumption.
        - cbn in Hhere. apply list_elem_of_singleton in Hhere. subst c.
          cbn. repeat split; assumption.
        - cbn in Hhere. apply elem_of_nil in Hhere. done. }
      destruct Hc as [<- Hc]. split; [left | exact Hc].
    + destruct (IH Hrest) as [Hp Hc]. split; [right; exact Hp | exact Hc].
Qed.

Lemma ComputeChanges_range_paths (lm remote : gmap string (gmap string V))
    (sorted : list string) :
  (∀ p, p ∈ sorted → is_Some (lm !! p) ∨ is_Some (remote !! p)) →
  vaultsync.Path <$> vaultsync.ComputeChanges_range lm remote sorted []
  = sorted.
Proof.
  induction sorted as [| p rest IH]; intros Hall; [reflexivity |].
  cbn [vaultsync.ComputeChanges_range]. rewrite ComputeChanges_range_app.
  rewrite fmap_app, IH by (intros q Hq; apply Hall; right; exact Hq).
  destruct (Hall p ltac:(left)) as [[l Hl] | [r Hr]].
  - rewrite Hl. destruct (remote !! p) as [r |];
      [destruct (vaultsync.mapsEqual l r) |]; reflexivity.
  - rewrite Hr. destruct (lm !! p) as [l |];
      [destruct (vaultsync.mapsEqual l r) |]; reflexivity.
Qed.

Lemma foldl_union_elem {A : Type} (f : A → string) (l : list A) :
  ∀ (acc : gset string) (p : string),
    p ∈ foldl (fun all x => {[ f x ]} ∪ all) acc l
    ↔ p ∈ acc ∨ ∃ x, x ∈ l ∧ f x = p.
Proof.
  induction l as [| x rest IH]; intros acc p.
  - cbn. split; [auto |]. intros [Hp | (x & Hx & _)]; [exact Hp |].
    apply elem_of_nil in Hx. done.
  - cbn [foldl]. rewrite IH. rewrite elem_of_union, elem_of_singleton.
    split.
    + intros [[-> | Hp] | (y & Hy & Hf)].
      * right. exists x. split; [left | reflexivity].
      * left. exact Hp.
      * right. exists y. split; [right; exact Hy | exact Hf].
    + intros [Hp | (y & Hy & Hf)].
      * left. right. exact Hp.
      * apply elem_of_cons in Hy as [-> | Hy].
        -- left. left. symmetry. exact Hf.
        -- right. exists y. split; assumption.
Qed.

Lemma allPaths_spec (local : list (@vaultsync.LocalSecret V))
    (remote : gmap string (gmap string V)) (p : string) :
  p ∈ vaultsync.allPaths local remote
  ↔ (∃ ls, ls ∈ local ∧ vaultsync.LocalSecret_Path ls = p)
    ∨ is_Some (remote !! p).
Proof.
  unfold vaultsync.allPaths.
  rewrite (foldl_union_elem id), (foldl_union_elem vaultsync.LocalSecret_Path).
  rewrite elem_of_empty. split.
  - intros [[[] | Hl] | (x & Hx & <-)]; [left; exact Hl |]. right.
    apply list_elem_of_fmap in Hx as [[q d] [-> Hq]].
    apply elem_of_map_to_list in Hq. eauto.
  - intros [Hl | [d Hd]]; [left; right; exact Hl |]. right.
    exists p. split; [| reflexivity].
    apply list_elem_of_fmap. exists (p, d).
    split; [reflexivity | apply elem_of_map_to_list; exact Hd].
Qed.

Lemma localMap_lookup (local : list (@vaultsync.LocalSecret V)) :
  ∀ (acc : gmap string (gmap string V)) (p : string),
    is_Some (foldl (fun m ls => <[vaultsync.LocalSecret_Path ls
                                  := vaultsync.LocalSecret_Data ls]> m)
               acc local !! p)
    ↔ is_Some (acc !! p)
      ∨ ∃ ls, ls ∈ local ∧ vaultsync.LocalSecret_Path ls = p.
Proof.
  induction local as [| ls rest IH]; intros acc p.
  - cbn. split; [auto |]. intros [Hp | (x & Hx & _)]; [exact Hp |].
    apply elem_of_nil in Hx. done.
  - cbn [foldl]. rewrite IH. rewrite lookup_insert_is_Some. split.
    + intros [[<- | [_ Hp]] | (y & Hy & Hf)].
      * right. exists ls. split; [left | reflexivity].
      * left. exact Hp.
      * right. exists y. split; [right; exact Hy | exact Hf].
    + intros [Hp | (y & Hy & Hf)].
      * destruct (decide (vaultsync.LocalSecret_Path ls = p)); auto.
      * apply elem_of_cons in Hy as [-> | Hy].
        -- left. left. exact Hf.
        -- right. exists y. split; assumption.
Qed.

Lemma sort_Strings_elem (l : list string) (p : string) :
  p ∈ vaultsync.sort_Strings l ↔ p ∈ l.
Proof.
  unfold vaultsync.sort_Strings. rewrite merge_sort_Permutation. reflexivity.
Qed.

Lemma ComputeChanges_paths_sorted (local : list (@vaultsync.LocalSecret V))
    (remote : gmap string (gmap string V)) :
  vaultsync.Path <$> vaultsync.Changes (vaultsync.ComputeChanges local remote)
  = vaultsync.sort_Strings (elements (vaultsync.allPaths local remote)).
Proof.
  unfold vaultsync.ComputeChanges. cbn [vaultsync.Changes].
  apply ComputeChanges_range_paths. intros p Hp.
  apply sort_Strings_elem, elem_of_elements, allPaths_spec in Hp.
  destruct Hp as [Hl | Hr]; [left | right; exact Hr].
  apply localMap_lookup. right. exact Hl.
Qed.

(** [ComputeChanges] reports one change for every path that is local or
    remote and for no other path, each path once, in ascending order. *)
Theorem ComputeChanges_paths (local : list (@vaultsync.LocalSecret V))
    (remote : gmap string (gmap string V)) :
  let paths :=
    vaultsync.Path
    <$> vaultsync.Changes (vaultsync.ComputeChanges local remote) in
  StronglySorted (fun a b : string => String.leb a b : Prop) paths
  ∧ NoDup paths
  ∧ ∀ p, p ∈ paths
         ↔ (∃ ls, ls ∈ local ∧ vaultsync.LocalSecret_Path ls = p)
           ∨ is_Some (remote !! p).
Proof.
  intros paths. subst paths. rewrite ComputeChanges_paths_sorted.
  split; [| split].
  - apply StronglySorted_merge_sort; apply _.
  - unfold vaultsync.sort_Strings. rewrite merge_sort_Permutation.
    apply NoDup_elements.
  - intros p. rewrite sort_Strings_elem, elem_of_elements.
    apply allPaths_spec.
Qed.

(** Every change that [ComputeChanges] reports is right about its path:
    an addition is local and not remote, a deletion is remote and not
    local, and a path on both sides is reported as unchanged exactly when
    its local data equal its remote data, and as a modification
    otherwise; the change carries the data of the two sides. *)
Theorem ComputeChanges_classifies (local : list (@vaultsync.LocalSecret V))
    (remote : gmap string (gmap string V)) (c : @vaultsync.Change V) :
  c ∈ vaultsync.Changes (vaultsync.ComputeChanges local remote) →
  spec.classified (vaultsync.localMap local) remote c.
Proof.
  intros Hin. unfold vaultsync.ComputeChanges in Hin.
  cbn [vaultsync.Changes] in Hin.
  apply ComputeChanges_range_sound in Hin. apply Hin.
Qed.

Lemma size_allPaths (local : list (@vaultsync.LocalSecret V))
    (remote : gmap string (gmap string V)) :
  (size (vaultsync.allPaths local remote) ≤ length local + size remote)%nat.
Proof.
  assert (Hfold : ∀ (A : Type) (f : A → string) (l : list A)
                    (acc : gset string),
    (size (foldl (fun all x => {[ f x ]} ∪ all) acc l)
     ≤ size acc + length l)%nat).
  { intros A f l. induction l as [| x rest IH]; intros acc.
    - cbn. lia.
    - cbn [foldl length]. etransitivity; [apply IH |].
      rewrite size_union_alt, size_singleton.
      pose proof (subseteq_size (acc ∖ {[ f x ]}) acc
                    (subseteq_difference_l _ _ _ (reflexivity acc))).
      lia. }
  unfold vaultsync.allPaths.
  etransitivity; [apply (Hfold _ id) |].
  rewrite length_fmap, length_map_to_list.
  pose proof (Hfold _ vaultsync.LocalSecret_Path local ∅) as Hl.
  rewrite size_empty in Hl. lia.
Qed.

(** [ComputeChanges] finds nothing to do exactly when the local state
    and the remote state are the same map from path to data. *)
Theorem ComputeChanges_in_sync (local : list (@vaultsync.LocalSecret V))
    (remote : gmap string (gmap string V)) :
  (Z.of_nat (length local + size remote) < 2 ^ 63)%Z →
  vaultsync.HasChanges (vaultsync.ComputeChanges local remote) = false
  ↔ vaultsync.localMap local = remote.
Proof.
  intros Hbound.
  set (cs := vaultsync.ComputeChanges local remote).
  assert (Hlen : (Z.of_nat (length (vaultsync.Changes cs)) < 2 ^ 63)%Z).
  { rewrite <- (length_fmap vaultsync.Path). subst cs.
    rewrite ComputeChanges_paths_sorted.
    unfold vaultsync.sort_Strings. rewrite merge_sort_Permutation.
    pose proof (size_allPaths local remote) as Hs.
    change (length (elements (vaultsync.allPaths local remote)))
      with (size (vaultsync.allPaths local remote)).
    lia. }
  rewrite <- not_true_iff_false, (HasChanges_some cs Hlen). split.
  - intros Hnone. apply map_eq. intros p.
    destruct (decide (p ∈ vaultsync.allPaths local remote)) as [Hp | Hp].
    + assert (Hpath : p ∈ vaultsync.Path <$> vaultsync.Changes cs).
      { subst cs. rewrite ComputeChanges_paths_sorted.
        apply sort_Strings_elem, elem_of_elements. exact Hp. }
      apply list_elem_of_fmap in Hpath as (c & -> & Hc).
      pose proof (proj2 (ComputeChanges_range_sound _ _ _ c Hc)) as Hcl.
      unfold spec.classified in Hcl.
      destruct (vaultsync.Type_ c) eqn:Ht;
        try (exfalso; apply Hnone; exists c; split; [exact Hc | congruence]).
      destruct Hcl as (Hl & Hr & Heq). rewrite Hl, Hr, Heq. reflexivity.
    + rewrite allPaths_spec in Hp.
      destruct (vaultsync.localMap local !! p) eqn:Hl.
      * exfalso. apply Hp. left.
        assert (Hs : is_Some (vaultsync.localMap local !! p)) by eauto.
        apply localMap_lookup in Hs as [Hs | Hs]; [| exact Hs].
        rewrite lookup_empty in Hs. destruct Hs. discriminate.
      * destruct (remote !! p) eqn:Hr; [| reflexivity].
        exfalso. apply Hp. right. eauto.
  - intros Heq (c & Hc & Hn).
    pose proof (proj2 (ComputeChanges_range_sound _ _ _ c Hc)) as Hcl.
    unfold spec.classified in Hcl. rewrite Heq in Hcl.
    destruct (vaultsync.Type_ c); [done | | |].
    + destruct Hcl as [Hl Hr]. congruence.
    + destruct Hcl as (Hl & Hr & Hne). congruence.
    + destruct Hcl as [Hl Hr]. congruence.
Qed.

End sync_changes.

Lemma Counts_exact_witness :
  let cs := vaultsync.ComputeChanges examples.local_abc examples.remote_bcd in
  vaultsync.Counts cs
  = (Z.of_nat (spec.count_type vaultsync.ChangeAdd (vaultsync.Changes cs)),
     Z.of_nat (spec.count_type vaultsync.ChangeModify (vaultsync.Changes cs)),
     Z.of_nat (spec.count_type vaultsync.ChangeDelete (vaultsync.Changes cs)))
  ∧ (vaultsync.HasChanges cs = true
     ↔ ∃ c, c ∈ vaultsync.Changes cs
            ∧ vaultsync.Type_ c ≠ vaultsync.ChangeNone).
Proof.
  intros cs. refine (Counts_exact cs _). reflexivity.
Defined.

Lemma ComputeChanges_classifies_witness :
  spec.classified (vaultsync.localMap examples.local_abc) examples.remote_bcd
    (vaultsync.mkChange vaultsync.ChangeModify "b"
       {[ "k" := "2" ]} {[ "k" := "two" ]}).
Proof.
  refine (ComputeChanges_classifies examples.local_abc examples.remote_bcd
            _ _).
  apply (list_elem_of_lookup_2 _ 1%nat). reflexivity.
Defined.

Lemma ComputeChanges_in_sync_witness :
  let local := [ vaultsync.mkLocalSecret "c" ({[ "k" := "3" ]} : gmap string string) ] in
  let remote : gmap string (gmap string string) :=
    {[ "c" := {[ "k" := "3" ]} ]} in
  vaultsync.HasChanges (vaultsync.ComputeChanges local remote) = false
  ↔ vaultsync.localMap local = remote.
Proof.
  intros local remote.
  refine (ComputeChanges_in_sync local remote _). reflexivity.
Defined.

(** The plan for the example: one change for each of the four paths, in
    order, and one of each type. *)
Example ComputeChanges_runs :
  let cs := vaultsync.ComputeChanges examples.local_abc examples.remote_bcd in
  ((fun c => (vaultsync.Type_ c, vaultsync.Path c)) <$> vaultsync.Changes cs)
  = [ (vaultsync.ChangeAdd, "a"); (vaultsync.ChangeModify, "b");
      (vaultsync.ChangeNone, "c"); (vaultsync.ChangeDelete, "d") ]
  ∧ vaultsync.Counts cs = (1, 1, 1)%Z
  ∧ vaultsync.HasChanges cs = true.
Proof. repeat split. Qed.

(** ** SplitDiff *)

Lemma string_of_list_ascii_app (l1 l2 : list ascii) :
  string_of_list_ascii (l1 ++ l2)
  = (string_of_list_ascii l1 ++ string_of_list_ascii l2)%string.
Proof.
  induction l1 as [| x l1 IH]; [reflexivity |]. cbn. rewrite IH. reflexivity.
Qed.

Lemma list_ascii_of_string_app (s1 s2 : string) :
  list_ascii_of_string (s1 ++ s2)%string
  = list_ascii_of_string s1 ++ list_ascii_of_string s2.
Proof.
  induction s1 as [| x s1 IH]; [reflexivity |].
  simpl. f_equal. exact IH.
Qed.

Lemma SplitDiff_prefix_inv (a b : list ascii) (n : nat) :
  ∀ i : nat,
    (i ≤ length a)%nat → (i ≤ length b)%nat → take i a = take i b →
    let r := vaultsync.SplitDiff_prefix n a b i in
    (r ≤ length a)%nat ∧ (r ≤ length b)%nat ∧ take r a = take r b
    ∧ ((length a ≤ i + n)%nat →
       ∀ x y, a !! r = Some x → b !! r = Some y → x ≠ y).
Proof.
  induction n as [| n IH]; intros i Ha Hb Heq r; subst r.
  - cbn. repeat split; try assumption.
    intros Hn x y Hx _. apply lookup_lt_Some in Hx. lia.
  - cbn [vaultsync.SplitDiff_prefix].
    destruct (a !! i) as [x |] eqn:Hx; [| repeat split; try assumption;
                                          intros; congruence].
    destruct (b !! i) as [y |] eqn:Hy; [| repeat split; try assumption;
                                          intros; congruence].
    destruct (Ascii.eqb_spec x y) as [<- | Hne].
    + assert (Hnext : take (S i) a = take (S i) b).
      { rewrite (take_S_r a i x Hx), (take_S_r b i x Hy), Heq. reflexivity. }
      apply lookup_lt_Some in Hx as Hla. apply lookup_lt_Some in Hy as Hlb.
      destruct (IH (S i) Hla Hlb Hnext) as (H1 & H2 & H3 & H4).
      repeat split; try assumption. intros Hn. apply H4. lia.
    + repeat split; try assumption. intros _ x' y' Hx' Hy'. congruence.
Qed.

Lemma SplitDiff_suffix_inv (a b : list ascii) (n : nat) :
  ∀ j : nat,
    (j ≤ length a)%nat → (j ≤ length b)%nat →
    drop (length a - j) a = drop (length b - j) b →
    let r := vaultsync.SplitDiff_suffix n a b j in
    (r ≤ length a)%nat ∧ (r ≤ length b)%nat
    ∧ drop (length a - r) a = drop (length b - r) b
    ∧ ((length a ≤ j + n)%nat →
       (r < length a)%nat → (r < length b)%nat →
       ∀ x y, a !! (length a - 1 - r)%nat = Some x →
              b !! (length b - 1 - r)%nat = Some y → x ≠ y).
Proof.
  induction n as [| n IH]; intros j Ha Hb Heq r; subst r.
  - cbn. repeat split; try assumption. intros; lia.
  - cbn [vaultsync.SplitDiff_suffix].
    destruct (Nat.ltb_spec j (length a)) as [Hja | Hja];
      [| cbn [andb]; repeat split; try assumption; intros; lia].
    destruct (Nat.ltb_spec j (length b)) as [Hjb | Hjb];
      [| cbn [andb]; repeat split; try assumption; intros; lia].
    cbn [andb].
    destruct (a !! (length a - 1 - j)%nat) as [x |] eqn:Hx;
      [| repeat split; try assumption; intros; congruence].
    destruct (b !! (length b - 1 - j)%nat) as [y |] eqn:Hy;
      [| repeat split; try assumption; intros; congruence].
    destruct (Ascii.eqb_spec x y) as [<- | Hne].
    + assert (Hnext : drop (length a - S j) a = drop (length b - S j) b).
      { replace (length a - S j)%nat with (length a - 1 - j)%nat by lia.
        replace (length b - S j)%nat with (length b - 1 - j)%nat by lia.
        rewrite (drop_S a x _ Hx), (drop_S b x _ Hy).
        replace (S (length a - 1 - j)) with (length a - j)%nat by lia.
        replace (S (length b - 1 - j)) with (length b - j)%nat by lia.
        rewrite Heq. reflexivity. }
      destruct (IH (S j) ltac:(lia) ltac:(lia) Hnext) as (H1 & H2 & H3 & H4).
      repeat split; try assumption. intros Hn. apply H4. lia.
    + repeat split; try assumption. intros; congruence.
Qed.

(** [SplitDiff] cuts both strings at the same places: the prefix and the
    suffix it returns are common to the two strings, and each string is
    the prefix, its own middle part and the suffix put together. *)
Theorem SplitDiff_joins (a b : string) :
  let '(prefix, aMid, bMid, suffix) := vaultsync.SplitDiff a b in
  a = (prefix ++ aMid ++ suffix)%string
  ∧ b = (prefix ++ bMid ++ suffix)%string.
Proof.
  unfold vaultsync.SplitDiff.
  set (la := list_ascii_of_string a). set (lb := list_ascii_of_string b).
  destruct (SplitDiff_prefix_inv la lb (length la) 0
              ltac:(lia) ltac:(lia) eq_refl) as (Hia & Hib & Hpre & _).
  set (i := vaultsync.SplitDiff_prefix (length la) la lb 0) in *.
  set (aRest := drop i la). set (bRest := drop i lb).
  assert (Hstart : drop (length aRest - 0) aRest
                   = drop (length bRest - 0) bRest).
  { rewrite !Nat.sub_0_r, !drop_all. reflexivity. }
  destruct (SplitDiff_suffix_inv aRest bRest (length aRest) 0
              ltac:(lia) ltac:(lia) Hstart) as (Hja & Hjb & Hsuf & _).
  set (j := vaultsync.SplitDiff_suffix (length aRest) aRest bRest 0) in *.
  assert (Hsuffix : (if (0 <? j)%nat then drop (length aRest - j) aRest else [])
                    = drop (length aRest - j) aRest).
  { destruct (Nat.ltb_spec 0 j) as [Hj | Hj]; [reflexivity |].
    replace j with 0%nat by lia. rewrite Nat.sub_0_r, drop_all. reflexivity. }
  rewrite Hsuffix. rewrite <- !string_of_list_ascii_app. split.
  - rewrite take_drop. subst aRest. rewrite take_drop. subst la.
    symmetry. apply string_of_list_ascii_of_string.
  - rewrite Hsuf, take_drop. subst bRest. rewrite Hpre, take_drop. subst lb.
    symmetry. apply string_of_list_ascii_of_string.
Qed.

(** The middle parts that [SplitDiff] returns are as short as they can
    be: they do not begin with the same byte and they do not end with
    the same byte. *)
Theorem SplitDiff_minimal (a b prefix aMid bMid suffix : string)
    (x y : ascii) :
  vaultsync.SplitDiff a b = (prefix, aMid, bMid, suffix) →
  ((∃ aM bM, aMid = String x aM ∧ bMid = String y bM) → x ≠ y)
  ∧ ((∃ aM bM, aMid = (aM ++ String x "")%string
               ∧ bMid = (bM ++ String y "")%string) → x ≠ y).
Proof.
  unfold vaultsync.SplitDiff.
  set (la := list_ascii_of_string a). set (lb := list_ascii_of_string b).
  destruct (SplitDiff_prefix_inv la lb (length la) 0
              ltac:(lia) ltac:(lia) eq_refl) as (Hia & Hib & Hpre & Hfirst).
  set (i := vaultsync.SplitDiff_prefix (length la) la lb 0) in *.
  set (aRest := drop i la). set (bRest := drop i lb).
  assert (Hstart : drop (length aRest - 0) aRest
                   = drop (length bRest - 0) bRest).
  { rewrite !Nat.sub_0_r, !drop_all. reflexivity. }
  destruct (SplitDiff_suffix_inv aRest bRest (length aRest) 0
              ltac:(lia) ltac:(lia) Hstart) as (Hja & Hjb & Hsuf & Hlast).
  set (j := vaultsync.SplitDiff_suffix (length aRest) aRest bRest 0) in *.
  intros Hres. injection Hres as Hp Ha Hb Hs. clear Hp Hs.
  assert (HaMid : list_ascii_of_string aMid = take (length aRest - j) aRest).
  { rewrite <- Ha. apply list_ascii_of_string_of_list_ascii. }
  assert (HbMid : list_ascii_of_string bMid = take (length bRest - j) bRest).
  { rewrite <- Hb. apply list_ascii_of_string_of_list_ascii. }
  clear Ha Hb. split.
  - intros (aM & bM & -> & ->). cbn in HaMid, HbMid.
    apply (Hfirst ltac:(lia) x y).
    + assert (Hx : take (length aRest - j) aRest !! 0%nat = Some x)
        by (rewrite <- HaMid; reflexivity).
      apply lookup_take_Some in Hx as [Hx _]. subst aRest.
      rewrite lookup_drop, Nat.add_0_r in Hx. exact Hx.
    + assert (Hy : take (length bRest - j) bRest !! 0%nat = Some y)
        by (rewrite <- HbMid; reflexivity).
      apply lookup_take_Some in Hy as [Hy _]. subst bRest.
      rewrite lookup_drop, Nat.add_0_r in Hy. exact Hy.
  - intros (aM & bM & -> & ->).
    rewrite list_ascii_of_string_app in HaMid, HbMid. cbn in HaMid, HbMid.
    assert (Hla : (length (list_ascii_of_string aM) + 1
                   = length (take (length aRest - j) aRest))%nat).
    { rewrite <- HaMid, length_app. reflexivity. }
    assert (Hlb : (length (list_ascii_of_string bM) + 1
                   = length (take (length bRest - j) bRest))%nat).
    { rewrite <- HbMid, length_app. reflexivity. }
    rewrite length_take in Hla, Hlb.
    apply (Hlast ltac:(lia) ltac:(lia) ltac:(lia) x y).
    + assert (Hx : take (length aRest - j) aRest
                   !! length (list_ascii_of_string aM) = Some x).
      { rewrite <- HaMid. apply list_lookup_middle. reflexivity. }
      apply lookup_take_Some in Hx as [Hx _].
      replace (length aRest - 1 - j)%nat
        with (length (list_ascii_of_string aM)) by lia.
      exact Hx.
    + assert (Hy : take (length bRest - j) bRest
                   !! length (list_ascii_of_string bM) = Some y).
      { rewrite <- HbMid. apply list_lookup_middle. reflexivity. }
      apply lookup_take_Some in Hy as [Hy _].
      replace (length bRest - 1 - j)%nat
        with (length (list_ascii_of_string bM)) by lia.
      exact Hy.
Qed.

Lemma SplitDiff_minimal_witness :
  ((∃ aM bM, "XXX" = String "X" aM ∧ "YY" = String "Y" bM)
   → "X"%char ≠ "Y"%char)
  ∧ ((∃ aM bM, "XXX" = (aM ++ String "X" "")%string
               ∧ "YY" = (bM ++ String "Y" "")%string)
     → "X"%char ≠ "Y"%char).
Proof.
  refine (SplitDiff_minimal "abcXXXdef" "abcYYdef" "abc" "XXX" "YY" "def"
            "X" "Y" _).
  reflexivity.
Defined.

(** The example of the source, and two strings of which one is the
    beginning of the other. *)
Example SplitDiff_runs :
  vaultsync.SplitDiff "abcXXXdef" "abcYYdef" = ("abc", "XXX", "YY", "def")
  ∧ vaultsync.SplitDiff "abc" "abcabc" = ("abc", "", "abc", "")
  ∧ vaultsync.SplitDiff "same" "same" = ("same", "", "", "").
Proof. repeat split. Qed.

(** ** The revert command *)

Section revert_command.

Context `{HP : Helpers}.

Variable EncodePath : string → string → N → string.
Variable ParseUint : string → option N.

(** [revert] writes nothing that it should not: a target version that
    is destroyed, no longer or not yet there, or deleted while
    [--deleted] is not given, is refused after the one listing of the
    versions, and a target that is the newest version, alive, is left as
    it is, with no further call. *)
Theorem revert_no_write (B : backend) (s s1 : St B) (optDeleted : bool)
    (args0 args1 secret : string) (target : N) (versions : list KVVersion) :
  ParsePath args0 = (secret, "", 0) →
  ParseUint args1 = Some target →
  target ≠ 0 →
  answer B _ (client_Versions (Canonicalize args0)) s
  = ((versions, None), s1) →
  spec.contiguous versions = true →
  match spec.revert_refusal optDeleted secret target versions with
  | Some e =>
      run B (main.revert EncodePath ParseUint optDeleted args0 args1) s
      = (Returned (Some e), s1,
         [Event (client_Versions (Canonicalize args0))])
  | None =>
      ∀ newest, last versions = Some newest →
        Version newest = target → Deleted newest = false →
        run B (main.revert EncodePath ParseUint optDeleted args0 args1) s
        = (Returned None, s1, [Event (client_Versions (Canonicalize args0))])
  end.
Proof.
  intros HP1 Hparse Hpos Hvers Hc.
  unfold main.revert. rewrite HP1.
  rewrite (bool_decide_eq_false_2 ("" ≠ "")) by (intros Hn; apply Hn; done).
  cbn [N.ltb N.compare]. rewrite Hparse.
  rewrite (proj2 (N.eqb_neq target 0) Hpos).
  unfold Vault_Versions. simpl. rewrite Hvers. simpl.
  rewrite last_version_last. unfold spec.revert_refusal.
  destruct versions as [| oldest rest]; [discriminate |].
  unfold spec.contiguous in Hc.
  destruct (last (oldest :: rest)) as [newest |] eqn:Hlast;
    [| apply last_None in Hlast; discriminate].
  cbn [head mbind option_bind lookup list_lookup].
  assert (Hnewest : Version newest
                    = Version oldest + N.of_nat (length rest)).
  { rewrite last_lookup in Hlast.
    apply (numbered_from_lookup _ _ _ _ Hc Hlast). }
  destruct (N.ltb_spec target (Version oldest)) as [Hlow | Hlow];
    [reflexivity |].
  destruct (N.ltb_spec (Version newest) target) as [Hhigh | Hhigh];
    [reflexivity |].
  destruct (numbered_from_find (oldest :: rest) (Version oldest) target Hc)
    as [Hfind [r Hr]]; [lia | simpl length; lia |].
  rewrite <- Hfind, Hr. cbn [mbind option_bind].
  destruct (Destroyed r) eqn:Hdes; [reflexivity |].
  destruct (Deleted r) eqn:Hdel.
  - destruct optDeleted; cbn [negb andb]; [| reflexivity].
    intros newest' Hn' Htarget Halive. inversion Hn'; subst newest'.
    assert (Hsame : r = newest).
    { rewrite last_lookup in Hlast. rewrite <- Htarget in Hr.
      rewrite Hnewest in Hr.
      replace (N.to_nat (Version oldest + N.of_nat (length rest)
                         - Version oldest))
        with (Init.Nat.pred (length (oldest :: rest))) in Hr
        by (simpl length; lia).
      congruence. }
    congruence.
  - cbn [andb]. intros newest' Hn' Htarget Halive.
    inversion Hn'; subst newest'.
    simpl. rewrite (proj2 (N.eqb_eq target (Version newest)))
      by (symmetry; exact Htarget).
    reflexivity.
Qed.

(** [revert] to an older version that is alive copies that version
    forward: after the listing of the versions it issues one [Get] of the
    target version, and it hands what that [Get] delivered to [Write] at
    the secret; the result of [Write] is the result of [revert].  When
    the data of the target version are not empty and the path of the
    secret parses to itself (it has no escaped delimiter), this [Write]
    is one [Set] of the secret with exactly these data, and nothing
    else is called.  (The address of the target version is put together
    with [EncodePath]; [ParsePath] is taken to invert it.) *)
Theorem revert_restores (B : backend) (s s1 s2 : St B) (optDeleted : bool)
    (args0 args1 secret : string) (target : N) (versions : list KVVersion)
    (newest r : KVVersion) (raw : gmap string rawval) :
  ParsePath args0 = (secret, "", 0) →
  ParsePath (EncodePath secret "" target) = (secret, "", target) →
  ParseUint args1 = Some target →
  target ≠ 0 →
  answer B _ (client_Versions (Canonicalize args0)) s
  = ((versions, None), s1) →
  spec.contiguous versions = true →
  last versions = Some newest →
  List.find (fun r => Version r =? target) versions = Some r →
  target < Version newest →
  Destroyed r = false →
  Deleted r = false →
  answer B _ (client_Get secret target) s1 = ((raw, None), s2) →
  spec.all_stringify raw = true →
  let found := mkSecret (omap spec.stringified raw) in
  run B (main.revert EncodePath ParseUint optDeleted args0 args1) s
  = (let '(o, s3, t3) := run B (Write secret found) s2 in
     (o, s3,
      Event (client_Versions (Canonicalize args0))
      :: Event (client_Get secret target) :: t3))
  ∧ (raw ≠ ∅ →
     ParsePath secret = (secret, "", 0) →
     let c := client_Set secret (data found) in
     run B (main.revert EncodePath ParseUint optDeleted args0 args1) s
     = (Returned (if vaultkv_IsNotFound (answer B _ c s2).1
                  then Some (NewSecretNotFoundError secret)
                  else (answer B _ c s2).1),
        (answer B _ c s2).2,
        [Event (client_Versions (Canonicalize args0));
         Event (client_Get secret target); Event c])).
Proof.
  intros HP1 HP3 Hparse Hpos Hvers Hc Hlast Hfound Hold Hdes Hdel Hget
    Hstr found.
  assert (Hgen :
    run B (main.revert EncodePath ParseUint optDeleted args0 args1) s
    = (let '(o, s3, t3) := run B (Write secret found) s2 in
       (o, s3,
        Event (client_Versions (Canonicalize args0))
        :: Event (client_Get secret target) :: t3))).
  { assert (Hr : Version r = target).
    { apply find_some in Hfound as [_ Hr]. apply N.eqb_eq in Hr. exact Hr. }
    unfold main.revert. rewrite HP1.
    rewrite (bool_decide_eq_false_2 ("" ≠ "")) by (intros Hn; apply Hn; done).
    cbn [N.ltb N.compare]. rewrite Hparse.
    destruct versions as [| oldest rest]; [discriminate |].
    unfold spec.contiguous in Hc.
    assert (Hnewest : Version newest
                      = Version oldest + N.of_nat (length rest)).
    { rewrite last_lookup in Hlast.
      apply (numbered_from_lookup _ _ _ _ Hc Hlast). }
    assert (Hlow : Version oldest ≤ target).
    { apply find_some in Hfound as [Hin _].
      apply list_elem_of_In, list_elem_of_lookup in Hin as [i Hi].
      pose proof (numbered_from_lookup _ _ _ _ Hc Hi). lia. }
    rewrite (proj2 (N.eqb_neq target 0) Hpos).
    unfold Vault_Versions. simpl. rewrite Hvers. simpl.
    rewrite last_version_last, Hlast.
    rewrite (proj2 (N.ltb_ge target (Version oldest)) Hlow).
    rewrite (proj2 (N.ltb_ge (Version newest) target)) by lia.
    destruct (numbered_from_find (oldest :: rest) (Version oldest) target Hc)
      as [Hfind _]; [lia | simpl length; lia |].
    rewrite Hfind, Hfound, Hdes, Hdel. cbn [andb bind].
    rewrite (proj2 (N.eqb_neq target (Version newest))) by lia.
    rewrite run_bind.
    rewrite (Read_all_run B s1 s2 (EncodePath secret "" target) secret target
               raw HP3 Hget Hstr).
    cbn iota beta. fold found. rewrite run_bind.
    destruct (run B (Write secret found) s2) as [[[[e |] | msg] s3] t3];
      simpl; rewrite ?app_nil_r; reflexivity. }
  split; [exact Hgen |].
  intros Hsome HP2 c. rewrite Hgen.
  assert (Hne : Empty found = false).
  { unfold Empty, found. cbn [data]. apply bool_decide_eq_false_2.
    intros Hempty.
    apply Hsome. apply map_eq. intros k. rewrite lookup_empty.
    destruct (raw !! k) as [v |] eqn:Hk; [| reflexivity]. exfalso.
    assert (Hs : omap spec.stringified raw !! k = None)
      by (rewrite Hempty; apply lookup_empty).
    rewrite lookup_omap, Hk in Hs. cbn in Hs.
    unfold spec.all_stringify in Hstr. rewrite forallb_forall in Hstr.
    assert (Hin : In (k, v) (map_to_list raw))
      by (apply list_elem_of_In, elem_of_map_to_list; exact Hk).
    specialize (Hstr _ Hin). apply bool_decide_eq_true in Hstr.
    cbn in Hstr. rewrite Hs in Hstr. destruct Hstr. discriminate. }
  unfold Write, Write_body. rewrite HP2.
  rewrite (bool_decide_eq_false_2 ("" ≠ "")) by (intros Hn; apply Hn; done).
  rewrite (bool_decide_eq_false_2 (0 ≠ 0)) by (intros Hn; apply Hn; done).
  rewrite Hne. rewrite !run_bind, run_perform.
  fold c. destruct (answer B _ c s2) as [werr s3]. cbn [fst snd].
  destruct werr as [[] |]; reflexivity.
Qed.

End revert_command.

Lemma revert_no_write_witness :
  match spec.revert_refusal false "secret/foo" 5 examples.records_345 with
  | Some e =>
      run mem.backend
        (main.revert helpers.EncodePath helpers.ParseUint false
           "secret/foo" "5")
        examples.store_345
      = (Returned (Some e), examples.store_345,
         [Event (client_Versions (Canonicalize "secret/foo"))])
  | None =>
      ∀ newest, last examples.records_345 = Some newest →
        Version newest = 5 → Deleted newest = false →
        run mem.backend
          (main.revert helpers.EncodePath helpers.ParseUint false
             "secret/foo" "5")
          examples.store_345
        = (Returned None, examples.store_345,
           [Event (client_Versions (Canonicalize "secret/foo"))])
  end.
Proof.
  refine (revert_no_write helpers.EncodePath helpers.ParseUint mem.backend
            examples.store_345 examples.store_345 false "secret/foo" "5"
            "secret/foo" 5 examples.records_345 _ _ _ _ _);
    try reflexivity.
  discriminate.
Defined.

Lemma revert_restores_witness :
  let raw : gmap string helpers.jsonval :=
    {[ "a" := helpers.JString "1"; "b" := helpers.JString "2" ]} in
  let found := mkSecret (omap spec.stringified raw) in
  let c := client_Set "secret/src" (data found) in
  let s := examples.store_src_dst in
  let revert :=
    main.revert helpers.EncodePath helpers.ParseUint false "secret/src" "1" in
  run mem.backend revert s
  = (let '(o, s3, t3) := run mem.backend (Write "secret/src" found) s in
     (o, s3,
      Event (client_Versions (Canonicalize "secret/src"))
      :: Event (client_Get "secret/src" 1) :: t3))
  ∧ run mem.backend revert s
    = (Returned (if vaultkv_IsNotFound (answer mem.backend _ c s).1
                 then Some (NewSecretNotFoundError "secret/src")
                 else (answer mem.backend _ c s).1),
       (answer mem.backend _ c s).2,
       [Event (client_Versions (Canonicalize "secret/src"));
        Event (client_Get "secret/src" 1); Event c]).
Proof.
  intros raw found c s revert.
  assert (Hsome : raw ≠ ∅).
  { intros Hraw. apply (f_equal (fun m => m !! "a")) in Hraw.
    discriminate Hraw. }
  assert (Hbare : ParsePath "secret/src" = ("secret/src", "", 0))
    by reflexivity.
  refine (let H := revert_restores helpers.EncodePath helpers.ParseUint
            mem.backend s s s false "secret/src" "1" "secret/src" 1
            [mkKVVersion 1 false false; mkKVVersion 2 false false]
            (mkKVVersion 2 false false) (mkKVVersion 1 false false) raw
            _ _ _ _ _ _ _ _ _ _ _ _ _ in
          conj (proj1 H) (proj2 H Hsome Hbare));
    try reflexivity.
  discriminate.
Defined.

(** After [revert] to version 1 the secret has a third version with the
    data of the first; a deleted target is refused without [--deleted],
    and with it, it is undeleted, copied and deleted again. *)
Example revert_runs :
  let revert optDeleted args0 args1 s :=
    run mem.backend
      (main.revert helpers.EncodePath helpers.ParseUint optDeleted
         args0 args1) s in
  let after := (revert false "secret/src" "1" examples.store_src_dst).1.2 in
  (mem.exec (Vault_Versions "secret/src") after).1
  = Returned ([mkKVVersion 1 false false; mkKVVersion 2 false false;
               mkKVVersion 3 false false], None)
  ∧ (mem.exec (Read "secret/src") after).1
    = Returned (Some (mkSecret {[ "a" := "1"; "b" := "2" ]}), None)
  ∧ (revert false "secret/foo" "4" examples.store_345).1.1
    = Returned (Some (main.revert_deleted 4 "secret/foo"))
  ∧ (mem.exec (Vault_Versions "secret/foo")
       (revert true "secret/foo" "4" examples.store_345).1.2).1
    = Returned ([mkKVVersion 3 false false; mkKVVersion 4 true false;
                 mkKVVersion 5 false true; mkKVVersion 6 false false], None).
Proof. repeat split. Qed.

(** A target version without data: [Write] of the empty secret takes its
    way through [deleteIfPresent], and the newest version is deleted; no
    [Set] is issued. *)
Example revert_empty_version :
  let r :=
    run mem.backend
      (main.revert helpers.EncodePath helpers.ParseUint false "secret/e" "1")
      examples.store_empty_version in
  r.1.1 = Returned None
  ∧ r.2
    = [Event (client_Versions "secret/e"); Event (client_Get "secret/e" 1);
       Event (client_Get "secret/e" 0);
       Event (client_MountVersion "secret/e");
       Event (client_Versions "secret/e");
       Event (client_Delete "secret/e" [] true)]
  ∧ (mem.exec (Vault_Versions "secret/e") r.1.2).1
    = Returned ([mkKVVersion 1 false false; mkKVVersion 2 true false], None).
Proof. repeat split. Qed.

(** ** Packing values for the store *)

Section packing.

Context `{HP : Helpers}.

Variable Quote : string → string.

Lemma PackMap_range_all (l : list (string * rawval)) :
  ∀ result : gmap string string,
    NoDup l.*1 →
    forallb (fun kv => bool_decide (is_Some (spec.stringified kv.2))) l
    = true →
    ∃ packed,
      vaultsync.PackMap_range Quote l result = (Some packed, None)
      ∧ ∀ k, packed !! k
             = match (list_to_map l : gmap string rawval) !! k with
               | Some v => spec.stringified v
               | None => result !! k
               end.
Proof.
  induction l as [| [k v] rest IH]; intros result Hnd Hall.
  - exists result. split; [reflexivity |]. intros k.
    cbn [list_to_map foldr]. rewrite lookup_empty. reflexivity.
  - cbn [fmap list_fmap fst] in Hnd. apply NoDup_cons in Hnd as [Hk Hnd].
    cbn [forallb snd] in Hall. apply andb_true_iff in Hall as [Hv Hall].
    apply bool_decide_eq_true in Hv. destruct Hv as [str Hstr].
    cbn [vaultsync.PackMap_range].
    assert (Hpack : vaultsync.PackValue v = (str, None)).
    { unfold vaultsync.PackValue. unfold spec.stringified in Hstr.
      destruct (asString v) as [s0 |]; [congruence |].
      destruct (json_Marshal v) as [b | e]; [congruence | discriminate]. }
    rewrite Hpack.
    destruct (IH (<[k := str]> result) Hnd Hall) as (packed & Hrun & Hlook).
    exists packed. split; [exact Hrun |]. intros k'.
    rewrite Hlook. cbn [list_to_map foldr]. cbn [uncurry fst snd].
    destruct (decide (k = k')) as [<- | Hne].
    + rewrite (not_elem_of_list_to_map_1 rest k Hk).
      rewrite !lookup_insert_eq. symmetry. exact Hstr.
    + rewrite (lookup_insert_ne (list_to_map rest)) by exact Hne.
      destruct (list_to_map rest !! k'); [reflexivity |].
      apply lookup_insert_ne. exact Hne.
Qed.

Lemma PackMap_range_fails (l : list (string * rawval)) :
  ∀ result : gmap string string,
    forallb (fun kv => bool_decide (is_Some (spec.stringified kv.2))) l
    = false →
    ∃ e, vaultsync.PackMap_range Quote l result = (None, Some e).
Proof.
  induction l as [| [k v] rest IH]; intros result Hall; [discriminate |].
  cbn [forallb snd] in Hall. cbn [vaultsync.PackMap_range].
  unfold vaultsync.PackValue. unfold spec.stringified in Hall.
  destruct (asString v) as [s0 |].
  - rewrite bool_decide_eq_true_2 in Hall by eauto. apply IH. exact Hall.
  - destruct (json_Marshal v) as [b | e].
    + rewrite bool_decide_eq_true_2 in Hall by eauto. apply IH. exact Hall.
    + eexists. reflexivity.
Qed.

(** [PackMap] packs a map for the store as [Read] delivers a fetched
    one: when every value is a string or can be encoded as JSON, the
    result has the keys of the map, each bound to the string itself or
    to the compact JSON of the value, and it is the data of the secret
    that [Read] returns for a snapshot with these values; when some
    value cannot be encoded, [PackMap] returns no map and an error. *)
Theorem PackMap_as_Read (B : backend) (s s1 : St B) (path p : string)
    (version : N) (m : gmap string rawval) :
  ParsePath path = (p, "", version) →
  answer B _ (client_Get p version) s = ((m, None), s1) →
  if spec.all_stringify m then
    ∃ packed,
      vaultsync.PackMap Quote m = (Some packed, None)
      ∧ dom packed = dom m
      ∧ (run B (Read path) s).1.1 = Returned (Some (mkSecret packed), None)
  else ∃ e, vaultsync.PackMap Quote m = (None, Some e).
Proof.
  intros HP1 Hget. destruct (spec.all_stringify m) eqn:Hall.
  - pose proof Hall as Hall'. unfold spec.all_stringify in Hall'.
    destruct (PackMap_range_all (map_to_list m) ∅
                (NoDup_fst_map_to_list m) Hall') as (packed & Hrun & Hlook).
    assert (Hpacked : packed = omap spec.stringified m).
    { apply map_eq. intros k. rewrite Hlook, list_to_map_to_list, lookup_omap.
      destruct (m !! k); [reflexivity | apply lookup_empty]. }
    exists packed. split; [exact Hrun |]. split.
    + rewrite Hpacked. apply set_eq. intros k.
      rewrite !elem_of_dom, lookup_omap. split.
      * intros [str Hstr]. destruct (m !! k); [eauto | discriminate].
      * intros [v Hv]. rewrite Hv. cbn [mbind option_bind].
        assert (Hin : In (k, v) (map_to_list m))
          by (apply list_elem_of_In, elem_of_map_to_list; exact Hv).
        rewrite forallb_forall in Hall'. specialize (Hall' _ Hin).
        apply bool_decide_eq_true in Hall'. exact Hall'.
    + rewrite (Read_all_run B s s1 path p version m HP1 Hget Hall).
      rewrite Hpacked. reflexivity.
  - apply PackMap_range_fails. exact Hall.
Qed.

End packing.

Lemma PackMap_as_Read_witness :
  let m : gmap string helpers.jsonval :=
    {[ "a" := helpers.JString "3"; "b" := helpers.JString "4" ]} in
  let Quote := fun k : string => (helpers.quote ++ k ++ helpers.quote)%string in
  if spec.all_stringify m then
    ∃ packed,
      vaultsync.PackMap Quote m = (Some packed, None)
      ∧ dom packed = dom m
      ∧ (run mem.backend (Read "secret/src") examples.store_src_dst).1.1
        = Returned (Some (mkSecret packed), None)
  else ∃ e, vaultsync.PackMap Quote m = (None, Some e).
Proof.
  intros m Quote.
  refine (PackMap_as_Read Quote mem.backend examples.store_src_dst
            examples.store_src_dst "secret/src" "secret/src" 0 m _ _);
    reflexivity.
Defined.
